(** * Ensemble generation for California redistricting plans

    A shallow embedding of [src/make_ensembles.py].  The script draws
    random district plans with GerryChain, walks a ReCom Markov chain from
    each of them, and records per-step statistics: the number of cut edges,
    the number of majority-Hispanic-or-Latino districts, the number of
    Republican seats and the efficiency gap.  Regional ensembles (NorCal,
    Cal, SoCal) are summed into "Cal 3" ensembles.  [src/plot_ensembles.py],
    which shows histograms of the pickled ensembles, is embedded as well.

    Conventions of the embedding.
    - Python [int] is [Z]; district labels and counters that only count up
      from zero are [nat].
    - Python [float] is idealised as an exact rational [Q]: the script's
      floats come from dividing integer tallies, and the statements below are
      about that arithmetic, not about IEEE rounding.  Results in [Q] are
      compared with [Qeq] ([==]).  The seat numbers are the exception: they
      are floats rounded to integers, where the last bit of the float can
      decide the integer, so the division and the product behind them round
      as binary64 does.
    - A Python exception is a value [Raise e]; a loop that has no bound in
      the code (the chain's retry loop) runs on fuel and reports
      [OutOfFuel] when the fuel is spent.
    - The module-level generator [gerrychain.random.random] is an explicit
      state [RNG] threaded through every call that may draw from it.
    - GerryChain itself is not part of the script.  What the script calls
      is an interface ([GerryChain] below); the chain driver and the
      population constraint, whose behaviour the statements depend on, are
      modelled from the specification and marked as such. *)

From Stdlib Require Import ZArith QArith Qround Qabs Qpower Lia Lqa String.
From stdpp Require Import gmap strings list pretty.

Close Scope Q_scope.
Open Scope string_scope.
Open Scope list_scope.

(** ** Python values and exceptions *)

Inductive exn : Type :=
  | ZeroDivisionError
  | KeyError
  | ValueError
  | OverflowError
  | Exception (msg : string).

Inductive result (A : Type) : Type :=
  | Ok (a : A)
  | Raise (e : exn)
  | OutOfFuel.

Arguments Ok {A} a.
Arguments Raise {A} e.
Arguments OutOfFuel {A}.

#[global] Instance result_ret : MRet result := fun A a => Ok a.
#[global] Instance result_bind : MBind result := fun A B f m =>
  match m with
  | Ok a => f a
  | Raise e => Raise e
  | OutOfFuel => OutOfFuel
  end.

(** [for x in xs: s = f(s, x)], stopping at the first exception. *)
Fixpoint foldM {m : Type → Type} `{!MRet m, !MBind m} {S A : Type}
    (f : S → A → m S) (s : S) (xs : list A) : m S :=
  match xs with
  | [] => mret s
  | x :: xs' => s' ← f s x; foldM f s' xs'
  end.

(** [range(n)] *)
Definition range (n : nat) : list nat := seq 0 n.

(** [d[k]] on a dict. *)
Definition getitem `{Countable K} {V : Type} (d : gmap K V) (k : K)
  : result V :=
  match d !! k with
  | Some v => Ok v
  | None => Raise KeyError
  end.

(** [a / b], Python's true division. *)
Definition truediv (a b : Q) : result Q :=
  if Qeq_bool b 0 then Raise ZeroDivisionError else Ok (a / b)%Q.

(** [a > b] on numbers. *)
Definition gt (a b : Q) : bool := negb (Qle_bool a b).

(** [round(x)] with one argument: nearest integer, ties to the even one. *)
Definition round (x : Q) : Z :=
  let f := Qfloor x in
  let d := (x - inject_Z f)%Q in
  if gt (1 # 2) d then f
  else if gt d (1 # 2) then (f + 1)%Z
  else if Z.even f then f else (f + 1)%Z.

(** *** Floats where they are rounded to integers

    A finite float is the rational it stands for.  The seat numbers are
    floats rounded to integers, so the float's own rounding decides them;
    the division and the product they come from are therefore modelled as
    IEEE 754 binary64 does them: the exact result rounded to the nearest
    double, ties to the even significand. *)

(** [floor(log2(x))] of a positive rational. *)
Definition ilog2 (x : Q) : Z :=
  let k := (Z.log2 (Qnum x) - Z.log2 (Zpos (Qden x)))%Z in
  if Qle_bool (2 ^ k) x then k else (k - 1)%Z.

(** The exponent of the last bit of the doubles around [x]: 53 bits of
    significand, and no exponent below that of the subnormal numbers. *)
Definition ulp_exponent (x : Q) : Z :=
  Z.max (ilog2 (Qabs x) - 52) (-1074).

(** The double nearest to [x].  A result of magnitude 2^1024 or more is
    out of range: a division of ints raises [OverflowError] there; a
    product of floats is infinite there, and the script hands it to
    [round], which raises [OverflowError] as well. *)
Definition binary64 (x : Q) : result Q :=
  if Qeq_bool x 0 then Ok 0%Q
  else
    let e := ulp_exponent x in
    let y := (inject_Z (round (x / 2 ^ e)) * 2 ^ e)%Q in
    if Qle_bool (2 ^ 1024) (Qabs y) then Raise OverflowError else Ok y.

(** [a / b] on two ints: the double nearest to the quotient. *)
Definition int_truediv (a b : Z) : result Q :=
  if decide (b = 0%Z) then Raise ZeroDivisionError
  else binary64 (inject_Z a / inject_Z b).

(** [a * b] on two floats. *)
Definition float_mul (a b : Q) : result Q := binary64 (a * b).

(** [a, b = xs] and [a, b, c = xs] *)
Definition unpack2 {A : Type} (xs : list A) : result (A * A) :=
  match xs with
  | [a; b] => Ok (a, b)
  | _ => Raise ValueError
  end.

Definition unpack3 {A : Type} (xs : list A) : result (A * A * A) :=
  match xs with
  | [a; b; c] => Ok (a, b, c)
  | _ => Raise ValueError
  end.

(** ** Graphs and partitions

    The dual graph: nodes are geographic units, [graph.nodes()[node]] is the
    unit's attribute dict, edges join units that share a border. *)

Record Graph : Type := mkGraph {
  nodes : list nat;
  node_attr : nat → gmap string Z;
  edges : gset (nat * nat);
}.

(** A GerryChain [Partition] assigns every node of its graph to a district.
    The script reads it only through its updaters: [part['cut_edges']] is a
    set of edges, and every [Tally] alias maps a district label to the sum
    of a node attribute over the district. *)

Record Partition : Type := mkPartition {
  graph : Graph;
  assignment : gmap nat nat;
  cut_edges : gset (nat * nat);
  tally : string → gmap nat Z;
}.

(** A partition has districts [0 .. K-1] for the tally [key]. *)
Definition has_districts (part : Partition) (key : string) (K : nat) : Prop :=
  ∀ i, i < K → is_Some (tally part key !! i).

(** ** Demographic ensembles: [__walk] of [make_demographic_ensembles] *)

Module Demographic.

(** Body of [for i in range(num_districts)], lines 280-283. *)
Definition count_district (part : Partition) (count : nat) (i : nat)
  : result nat :=
  hispanic ← getitem (tally part "district_hispanic_latino_pop") i;
  totpop ← getitem (tally part "district_totpop") i;
  share ← truediv (inject_Z hispanic) (inject_Z totpop);
  Ok (if gt share (1 # 2) then count + 1 else count).

(** The value of [count] after the inner loop, lines 279-283. *)
Definition majmin (part : Partition) (num_districts : nat) : result nat :=
  foldM (count_district part) 0 (range num_districts).

(** Body of [for part in rw], lines 278-285. *)
Definition walk_part (num_districts : nat)
    (ens : list nat * list nat) (part : Partition)
  : result (list nat * list nat) :=
  let '(cutedges_ens, majmin_ens) := ens in
  count ← majmin part num_districts;
  Ok (cutedges_ens ++ [size (cut_edges part)], majmin_ens ++ [count]).

(** [__walk(rw, num_districts)], lines 275-286; [rw] is given by the
    partitions it yields, in order. *)
Definition __walk (rw : list Partition) (num_districts : nat)
  : result (list nat * list nat) :=
  foldM (walk_part num_districts) ([], []) rw.

End Demographic.

(** ** Voting ensembles: [__walk] of [make_voting_ensembles] *)

Module Voting.

(** The loop variables [seats], [wasted_democrat], [wasted_republican]
    and [plan_totvotes] of lines 692-697 ([gap = 0] is overwritten at
    line 721 before it is read). *)
Record counters : Type := mkCounters {
  seats : nat;
  wasted_democrat : Q;
  wasted_republican : Q;
  plan_totvotes : Z;
}.

Definition initial : counters :=
  {| seats := 0; wasted_democrat := 0; wasted_republican := 0;
     plan_totvotes := 0 |}.

(** Body of [for i in range(num_districts)], lines 698-718. *)
Definition count_district (part : Partition) (c : counters) (i : nat)
  : result counters :=
  totvotes ← getitem (tally part "district_totvotes") i;
  votes_needed ← truediv (inject_Z totvotes) 2;
  votes_republican ← getitem (tally part "district_republican_votes") i;
  votes_democrat ← getitem (tally part "district_democrat_votes") i;
  republican_share ← truediv (inject_Z votes_republican) (inject_Z totvotes);
  if gt republican_share (1 # 2) then
    Ok {| seats := seats c + 1;
          wasted_republican :=
            (wasted_republican c + (inject_Z votes_republican - votes_needed))%Q;
          wasted_democrat := (wasted_democrat c + inject_Z votes_democrat)%Q;
          plan_totvotes := (plan_totvotes c + totvotes)%Z |}
  else
    democrat_share ← truediv (inject_Z votes_democrat) (inject_Z totvotes);
    if gt democrat_share (1 # 2) then
      Ok {| seats := seats c;
            wasted_republican :=
              (wasted_republican c + inject_Z votes_republican)%Q;
            wasted_democrat :=
              (wasted_democrat c + (inject_Z votes_democrat - votes_needed))%Q;
            plan_totvotes := (plan_totvotes c + totvotes)%Z |}
    else
      Ok {| seats := seats c;
            wasted_republican := wasted_republican c;
            wasted_democrat := wasted_democrat c;
            plan_totvotes := (plan_totvotes c + totvotes)%Z |}.

(** The counters after the inner loop, lines 692-718. *)
Definition count_districts (part : Partition) (num_districts : nat)
  : result counters :=
  foldM (count_district part) initial (range num_districts).

(** [seats] and [gap] of one partition, lines 692-721. *)
Definition plan_statistics (part : Partition) (num_districts : nat)
  : result (nat * Q) :=
  c ← count_districts part num_districts;
  gap ← truediv (wasted_democrat c - wasted_republican c)%Q
                (inject_Z (plan_totvotes c));
  Ok (seats c, gap).

(** Body of [for part in rw], lines 691-725. *)
Definition walk_part (num_districts : nat)
    (ens : list nat * list nat * list Q) (part : Partition)
  : result (list nat * list nat * list Q) :=
  let '(cutedges_ens, republican_seats_ens, efficiency_gap_ens) := ens in
  '(seats, gap) ← plan_statistics part num_districts;
  Ok (cutedges_ens ++ [size (cut_edges part)],
      republican_seats_ens ++ [seats],
      efficiency_gap_ens ++ [gap]).

(** [__walk(rw, num_districts)], lines 687-726. *)
Definition __walk (rw : list Partition) (num_districts : nat)
  : result (list nat * list nat * list Q) :=
  foldM (walk_part num_districts) ([], [], []) rw.

End Voting.

(** ** Cal 3 aggregation, lines 330-350 and 770-801 *)

(** [zip(a, b, c)]: stops at the shortest argument. *)
Fixpoint zip3 {A B C : Type} (a : list A) (b : list B) (c : list C)
  : list (A * B * C) :=
  match a, b, c with
  | x :: a', y :: b', z :: c' => (x, y, z) :: zip3 a' b' c'
  | _, _, _ => []
  end.

(** [[norcal + cal + socal for norcal, cal, socal in zip(...)]] *)
Definition cal3 {A : Type} (add : A → A → A) (norcal cal socal : list A)
  : list A :=
  map (fun '(norcal, cal, socal) => add (add norcal cal) socal)
      (zip3 norcal cal socal).

(** ** Seat allocation, lines 131-153 and 512-560 *)

Definition num_districts_california : Z := 52.

Definition nl : string := String (Ascii.ascii_of_nat 10) EmptyString.
Definition tab : string := String (Ascii.ascii_of_nat 9) EmptyString.

(** [round(num_districts_california * (totpop / totpop_california))]: the
    quotient of the two ints is a float, the product of 52 and this float
    is a float, and [round] gives the nearest integer to that float. *)
Definition regional_seats (totpop totpop_california : Z) : result Z :=
  share ← int_truediv totpop totpop_california;
  product ← float_mul (inject_Z num_districts_california) share;
  Ok (round product).

Definition seats_message : string :=
  "Total number of seats across Cal 3 doesn't match total number of seats for California.".

(** Lines 147-153 of [make_demographic_ensembles]. *)
Definition demographic_seats
    (totpop_california totpop_norcal totpop_cal totpop_socal : Z)
  : result (Z * Z * Z) :=
  num_districts_norcal ← regional_seats totpop_norcal totpop_california;
  num_districts_cal ← regional_seats totpop_cal totpop_california;
  num_districts_socal ← regional_seats totpop_socal totpop_california;
  if decide ((num_districts_norcal + num_districts_cal + num_districts_socal)%Z
             ≠ num_districts_california)
  then Raise (Exception seats_message)
  else Ok (num_districts_norcal, num_districts_cal, num_districts_socal).

(** Lines 534-560 of [make_voting_ensembles]. *)
Definition voting_seats
    (totpop_california totpop_norcal totpop_cal totpop_socal : Z)
  : result (Z * Z * Z) :=
  num_districts_norcal ← regional_seats totpop_norcal totpop_california;
  num_districts_cal ← regional_seats totpop_cal totpop_california;
  num_districts_socal ← regional_seats totpop_socal totpop_california;
  let num_districts_cal := (num_districts_cal + 1)%Z in
  if decide ((num_districts_norcal + num_districts_cal + num_districts_socal)%Z
             ≠ num_districts_california)
  then Raise (Exception
    (seats_message ++ nl ++ tab
     ++ "            NorCal: " ++ pretty num_districts_norcal ++ nl ++ tab
     ++ "                Cal: " ++ pretty num_districts_cal ++ nl ++ tab
     ++ "                    SoCal: " ++ pretty num_districts_socal)%string)
  else Ok (num_districts_norcal, num_districts_cal, num_districts_socal).

(** ** The GerryChain interface

    What the script imports from GerryChain, with the shared generator made
    explicit.  [seed s] is the generator's state after [random.seed(s)];
    a call that may draw random numbers takes the state and returns the
    next one. *)

Inductive updater : Type :=
  | cut_edges_updater
  | Tally (field alias : string).

Class GerryChain : Type := {
  RNG : Type;
  seed : Z → RNG;
  (** [recursive_tree_part(graph, parts, pop_target, pop_col, epsilon,
      node_repeats)] returns an assignment of nodes to parts. *)
  recursive_tree_part :
    Graph → list nat → Q → string → Q → nat →
    RNG → result (gmap nat nat * RNG);
  (** [Partition(graph, assignment, updaters)] *)
  new_partition : Graph → gmap nat nat → list (string * updater) → Partition;
  (** [recom(partition, pop_col, pop_target, epsilon, node_repeats)] *)
  recom :
    Partition → string → Q → Q → nat → RNG → result (Partition * RNG);
}.

Section Generators.
Context `{GerryChain}.

(** Computations that read and advance the generator. *)
Definition M (A : Type) : Type := RNG → result (A * RNG).

#[export] Instance M_ret : MRet M := fun A a r => Ok (a, r).
#[export] Instance M_bind : MBind M := fun A B f m r =>
  match m r with
  | Ok (a, r') => f a r'
  | Raise e => Raise e
  | OutOfFuel => OutOfFuel
  end.

Definition lift {A : Type} (m : result A) : M A :=
  fun r => a ← m; Ok (a, r).

(** [random.seed(s)] *)
Definition random_seed (s : Z) : M unit := fun _ => Ok (tt, seed s).

(** Body of [for seed in seeds], lines 26-37. *)
Definition draw_plan (graph : Graph) (num_districts : nat)
    (idealpop : Q) (totpop_key : string) (pop_tolerance : Q)
    (plans : list (gmap nat nat)) (s : Z) : M (list (gmap nat nat)) :=
  _ ← random_seed s;
  plan ← recursive_tree_part graph (range num_districts) idealpop totpop_key
           pop_tolerance 10;
  mret (plans ++ [plan]).

(** [__random_partitions], lines 21-46.  The call sites leave
    [totpop_key] and [pop_tolerance] at their defaults or pass them by
    keyword; here they are always passed. *)
Definition __random_partitions (graph : Graph) (num_districts : nat)
    (idealpop : Q) (totpop_key : string) (pop_tolerance : Q)
    (updaters : list (string * updater)) (seeds : list Z)
  : M (list Partition) :=
  plans ← foldM (draw_plan graph num_districts idealpop totpop_key
                   pop_tolerance)
           [] seeds;
  mret (map (fun plan => new_partition graph plan updaters) plans).

(** The plan [recursive_tree_part] returns right after [random.seed(s)]. *)
Definition plan_of_seed (graph : Graph) (num_districts : nat)
    (idealpop : Q) (totpop_key : string) (pop_tolerance : Q) (s : Z)
  : result (gmap nat nat * RNG) :=
  recursive_tree_part graph (range num_districts) idealpop totpop_key
    pop_tolerance 10 (seed s).

(** Modelled from the spec: the ideal value used by GerryChain's
    [constraints.within_percent_of_ideal_population], which is not under
    src/: the total of the tracked attribute over the districts of
    [initial_partition] divided by their number. *)
Definition ideal_population (initial_partition : Partition)
    (pop_key : string) : result Q :=
  let populations := map_to_list (tally initial_partition pop_key) in
  truediv (inject_Z (foldr Z.add 0%Z populations.*2))
          (inject_Z (Z.of_nat (length populations))).

(** Modelled from the spec: a tally lies within the relative tolerance
    [percent] of [ideal]. *)
Definition within (percent ideal : Q) (pop : Z) : bool :=
  Qle_bool ((1 - percent) * ideal) (inject_Z pop)
  && Qle_bool (inject_Z pop) ((1 + percent) * ideal).

(** Modelled from the spec: [constraints.within_percent_of_ideal_population]
    of GerryChain, which is not under src/.  The constraint it returns
    holds of a partition when every district's tally of [pop_key] is within
    [percent] of the ideal value. *)
Definition within_percent_of_ideal_population
    (initial_partition : Partition) (percent : Q) (pop_key : string)
  : result (Partition → bool) :=
  ideal ← ideal_population initial_partition pop_key;
  Ok (fun part =>
        forallb (within percent ideal) (map_to_list (tally part pop_key)).*2).

(** [MarkovChain(proposal, constraints, accept, initial_state,
    total_steps)] *)
Record MarkovChain : Type := mkMarkovChain {
  proposal : Partition → M Partition;
  constraints : list (Partition → bool);
  accept : Partition → bool;
  initial_state : Partition;
  total_steps : nat;
}.

Definition always_accept (_ : Partition) : bool := true.

Definition is_valid (chain : MarkovChain) (part : Partition) : bool :=
  forallb (fun constraint => constraint part) (constraints chain).

(** Modelled from the spec: the Markov chain driver, GerryChain's
    [MarkovChain] iteration, which is not under src/.  From [state], draw
    a candidate; an invalid candidate is discarded and a new one is drawn
    from the same state; a valid one becomes the next state when
    accepted, and the step is yielded.  [remaining] steps are left to
    yield; [fuel] bounds the number of candidates drawn. *)
Fixpoint chain_from (fuel : nat) (chain : MarkovChain) (remaining : nat)
    (state : Partition) {struct fuel} : M (list Partition) :=
  match remaining with
  | 0 => mret []
  | S remaining' =>
    match fuel with
    | 0 => fun _ => OutOfFuel
    | S fuel' =>
      proposed ← proposal chain state;
      if is_valid chain proposed then
        let state' := if accept chain proposed then proposed else state in
        rest ← chain_from fuel' chain remaining' state';
        mret (state' :: rest)
      else chain_from fuel' chain remaining state
    end
  end.

(** Modelled from the spec: the partitions a chain yields, in order.  The
    initial state is step 0 and the chain ends after [total_steps]
    steps. *)
Definition iterate (fuel : nat) (chain : MarkovChain) : M (list Partition) :=
  match total_steps chain with
  | 0 => mret []
  | S remaining =>
    rest ← chain_from fuel chain remaining (initial_state chain);
    mret (initial_state chain :: rest)
  end.

(** [sum([graph.nodes()[node][key] for node in graph.nodes()])] *)
Definition total (graph : Graph) (key : string) : result Z :=
  foldM (fun acc node =>
           value ← getitem (node_attr graph node) key;
           Ok (acc + value)%Z)
        0%Z (nodes graph).

End Generators.

(** ** The two generators

    Both are modelled with [make_objects=False]: the four graphs are the
    unpickled inputs.  The result is the list of files handed to
    [pkl.dump], in order.  Progress lines and the report printed at the end
    are not modelled. *)

Inductive pyobject : Type :=
  | IntList (xs : list nat)
  | FloatList (xs : list Q).

Definition pop_tolerance : Q := 2 # 100.

Section Ensembles.
Context `{GerryChain}.

(** [__markov_chain], lines 234-241 and 646-653. *)
Definition __markov_chain (proposal : Partition → M Partition)
    (constraint : Partition → bool) (initial_state : Partition)
    (steps : nat) : MarkovChain :=
  {| proposal := proposal;
     constraints := [constraint];
     accept := always_accept;
     initial_state := initial_state;
     total_steps := steps |}.

(** [__walk] applied to a chain: the chain is run and the statistics of
    the partitions it yields are collected. *)
Definition walk_demographic (fuel : nat) (rw : MarkovChain)
    (num_districts : nat) : M (list nat * list nat) :=
  parts ← iterate fuel rw;
  lift (Demographic.__walk parts num_districts).

Definition walk_voting (fuel : nat) (rw : MarkovChain)
    (num_districts : nat) : M (list nat * list nat * list Q) :=
  parts ← iterate fuel rw;
  lift (Voting.__walk parts num_districts).

(** [__pickle(category, object, name)], lines 355-357 and 806-808. *)
Definition __pickle (kind category : string) (object : pyobject)
    (name : string) : string * pyobject :=
  ("../ensembles/" ++ kind ++ "/" ++ category ++ "/" ++ name ++ ".pkl",
   object)%string.

Definition make_demographic_ensembles (fuel steps : nat)
    (graph_california graph_norcal graph_cal graph_socal : Graph)
  : M (list (string * pyobject)) :=
  (* population variables *)
  totpop_california ← lift (total graph_california "total_pop");
  totpop_norcal ← lift (total graph_norcal "total_pop");
  totpop_cal ← lift (total graph_cal "total_pop");
  totpop_socal ← lift (total graph_socal "total_pop");
  idealpop_california ←
    lift (truediv (inject_Z totpop_california)
                  (inject_Z num_districts_california));
  '(num_districts_norcal, num_districts_cal, num_districts_socal) ←
    lift (demographic_seats totpop_california
            totpop_norcal totpop_cal totpop_socal);
  idealpop_norcal ←
    lift (truediv (inject_Z totpop_norcal) (inject_Z num_districts_norcal));
  idealpop_cal ←
    lift (truediv (inject_Z totpop_cal) (inject_Z num_districts_cal));
  idealpop_socal ←
    lift (truediv (inject_Z totpop_socal) (inject_Z num_districts_socal));
  let num_districts_california := Z.to_nat num_districts_california in
  let num_districts_norcal := Z.to_nat num_districts_norcal in
  let num_districts_cal := Z.to_nat num_districts_cal in
  let num_districts_socal := Z.to_nat num_districts_socal in
  (* initial partitions *)
  let my_updaters :=
    [("cut_edges", cut_edges_updater);
     ("district_totpop", Tally "total_pop" "district_totpop");
     ("district_hispanic_latino_pop",
      Tally "hispanic_latino_pop" "district_hispanic_latino_pop")] in
  parts ← __random_partitions graph_california num_districts_california
            idealpop_california "total_pop" (2 # 100) my_updaters
            [0; 3; 4]%Z;
  '(part_california_1, part_california_2, part_california_3) ←
    lift (unpack3 parts);
  parts ← __random_partitions graph_norcal num_districts_norcal
            idealpop_norcal "total_pop" (2 # 100) my_updaters [0; 1]%Z;
  '(part_norcal_1, part_norcal_2) ← lift (unpack2 parts);
  parts ← __random_partitions graph_cal num_districts_cal
            idealpop_cal "total_pop" (2 # 100) my_updaters [0; 1]%Z;
  '(part_cal_1, part_cal_2) ← lift (unpack2 parts);
  parts ← __random_partitions graph_socal num_districts_socal
            idealpop_socal "total_pop" (2 # 100) my_updaters [0; 1]%Z;
  '(part_socal_1, part_socal_2) ← lift (unpack2 parts);
  (* random walks *)
  let proposal idealpop : Partition → M Partition :=
    fun part => recom part "total_pop" idealpop pop_tolerance 1 in
  let constraint part :=
    within_percent_of_ideal_population part pop_tolerance
      "district_totpop" in
  constraint_california ← lift (constraint part_california_1);
  constraint_norcal ← lift (constraint part_norcal_1);
  constraint_cal ← lift (constraint part_cal_1);
  constraint_socal ← lift (constraint part_socal_1);
  let rw_california part :=
    __markov_chain (proposal idealpop_california) constraint_california
      part steps in
  let rw_norcal part :=
    __markov_chain (proposal idealpop_norcal) constraint_norcal part steps in
  let rw_cal part :=
    __markov_chain (proposal idealpop_cal) constraint_cal part steps in
  let rw_socal part :=
    __markov_chain (proposal idealpop_socal) constraint_socal part steps in
  '(cutedges_california_1, majmin_california_1) ←
    walk_demographic fuel (rw_california part_california_1)
      num_districts_california;
  '(cutedges_california_2, majmin_california_2) ←
    walk_demographic fuel (rw_california part_california_2)
      num_districts_california;
  '(cutedges_california_3, majmin_california_3) ←
    walk_demographic fuel (rw_california part_california_3)
      num_districts_california;
  '(cutedges_norcal_1, majmin_norcal_1) ←
    walk_demographic fuel (rw_norcal part_norcal_1) num_districts_norcal;
  '(cutedges_norcal_2, majmin_norcal_2) ←
    walk_demographic fuel (rw_norcal part_norcal_2) num_districts_norcal;
  '(cutedges_cal_1, majmin_cal_1) ←
    walk_demographic fuel (rw_cal part_cal_1) num_districts_cal;
  '(cutedges_cal_2, majmin_cal_2) ←
    walk_demographic fuel (rw_cal part_cal_2) num_districts_cal;
  '(cutedges_socal_1, majmin_socal_1) ←
    walk_demographic fuel (rw_socal part_socal_1) num_districts_socal;
  '(cutedges_socal_2, majmin_socal_2) ←
    walk_demographic fuel (rw_socal part_socal_2) num_districts_socal;
  (* Cal 3 ensembles *)
  let cutedges_cal3_1 :=
    cal3 Nat.add cutedges_norcal_1 cutedges_cal_1 cutedges_socal_1 in
  let cutedges_cal3_2 :=
    cal3 Nat.add cutedges_norcal_2 cutedges_cal_2 cutedges_socal_2 in
  let majmin_cal3_1 :=
    cal3 Nat.add majmin_norcal_1 majmin_cal_1 majmin_socal_1 in
  let majmin_cal3_2 :=
    cal3 Nat.add majmin_norcal_2 majmin_cal_2 majmin_socal_2 in
  (* pickles *)
  let __pickle category object name :=
    __pickle "demographic" category (IntList object) name in
  mret [
    __pickle "cut_edges" cutedges_california_1 "cutedges_california_1";
    __pickle "cut_edges" cutedges_california_2 "cutedges_california_2";
    __pickle "cut_edges" cutedges_california_3 "cutedges_california_3";
    __pickle "cut_edges" cutedges_cal3_1 "cutedges_cal3_1";
    __pickle "cut_edges" cutedges_cal3_2 "cutedges_cal3_2";
    __pickle "majority-minority" majmin_california_1 "majmin_california_1";
    __pickle "majority-minority" majmin_california_2 "majmin_california_2";
    __pickle "majority-minority" majmin_california_3 "majmin_california_3";
    __pickle "majority-minority" majmin_cal3_1 "majmin_cal3_1";
    __pickle "majority-minority" majmin_cal3_2 "majmin_cal3_2"
  ].

Definition make_voting_ensembles (fuel steps : nat)
    (graph_california graph_norcal graph_cal graph_socal : Graph)
  : M (list (string * pyobject)) :=
  (* population variables *)
  totpop_california ← lift (total graph_california "total_votes");
  totpop_norcal ← lift (total graph_norcal "total_votes");
  totpop_cal ← lift (total graph_cal "total_votes");
  totpop_socal ← lift (total graph_socal "total_votes");
  idealpop_california ←
    lift (truediv (inject_Z totpop_california)
                  (inject_Z num_districts_california));
  '(num_districts_norcal, num_districts_cal, num_districts_socal) ←
    lift (voting_seats totpop_california
            totpop_norcal totpop_cal totpop_socal);
  idealpop_norcal ←
    lift (truediv (inject_Z totpop_norcal) (inject_Z num_districts_norcal));
  idealpop_cal ←
    lift (truediv (inject_Z totpop_cal) (inject_Z num_districts_cal));
  idealpop_socal ←
    lift (truediv (inject_Z totpop_socal) (inject_Z num_districts_socal));
  let num_districts_california := Z.to_nat num_districts_california in
  let num_districts_norcal := Z.to_nat num_districts_norcal in
  let num_districts_cal := Z.to_nat num_districts_cal in
  let num_districts_socal := Z.to_nat num_districts_socal in
  (* initial partitions *)
  let my_updaters :=
    [("cut_edges", cut_edges_updater);
     ("district_totvotes", Tally "total_votes" "district_totvotes");
     ("district_democrat_votes",
      Tally "democrat_votes" "district_democrat_votes");
     ("district_republican_votes",
      Tally "republican_votes" "district_republican_votes")] in
  parts ← __random_partitions graph_california num_districts_california
            idealpop_california "total_votes" (2 # 100) my_updaters
            [0; 3; 4]%Z;
  '(part_california_1, part_california_2, part_california_3) ←
    lift (unpack3 parts);
  parts ← __random_partitions graph_norcal num_districts_norcal
            idealpop_norcal "total_votes" (2 # 100) my_updaters [0; 1]%Z;
  '(part_norcal_1, part_norcal_2) ← lift (unpack2 parts);
  parts ← __random_partitions graph_cal num_districts_cal
            idealpop_cal "total_votes" (2 # 100) my_updaters [0; 1]%Z;
  '(part_cal_1, part_cal_2) ← lift (unpack2 parts);
  parts ← __random_partitions graph_socal num_districts_socal
            idealpop_socal "total_votes" (2 # 100) my_updaters [0; 1]%Z;
  '(part_socal_1, part_socal_2) ← lift (unpack2 parts);
  (* random walks *)
  let proposal idealpop : Partition → M Partition :=
    fun part => recom part "total_votes" idealpop pop_tolerance 1 in
  let constraint part :=
    within_percent_of_ideal_population part pop_tolerance
      "district_totvotes" in
  constraint_california ← lift (constraint part_california_1);
  constraint_norcal ← lift (constraint part_norcal_1);
  constraint_cal ← lift (constraint part_cal_1);
  constraint_socal ← lift (constraint part_socal_1);
  let rw_california part :=
    __markov_chain (proposal idealpop_california) constraint_california
      part steps in
  let rw_norcal part :=
    __markov_chain (proposal idealpop_norcal) constraint_norcal part steps in
  let rw_cal part :=
    __markov_chain (proposal idealpop_cal) constraint_cal part steps in
  let rw_socal part :=
    __markov_chain (proposal idealpop_socal) constraint_socal part steps in
  '(cutedges_california_1, republican_seats_california_1,
    efficiency_gap_california_1) ←
    walk_voting fuel (rw_california part_california_1)
      num_districts_california;
  '(cutedges_california_2, republican_seats_california_2,
    efficiency_gap_california_2) ←
    walk_voting fuel (rw_california part_california_2)
      num_districts_california;
  '(cutedges_california_3, republican_seats_california_3,
    efficiency_gap_california_3) ←
    walk_voting fuel (rw_california part_california_3)
      num_districts_california;
  '(cutedges_norcal_1, republican_seats_norcal_1, efficiency_gap_norcal_1) ←
    walk_voting fuel (rw_norcal part_norcal_1) num_districts_norcal;
  '(cutedges_norcal_2, republican_seats_norcal_2, efficiency_gap_norcal_2) ←
    walk_voting fuel (rw_norcal part_norcal_2) num_districts_norcal;
  '(cutedges_cal_1, republican_seats_cal_1, efficiency_gap_cal_1) ←
    walk_voting fuel (rw_cal part_cal_1) num_districts_cal;
  '(cutedges_cal_2, republican_seats_cal_2, efficiency_gap_cal_2) ←
    walk_voting fuel (rw_cal part_cal_2) num_districts_cal;
  '(cutedges_socal_1, republican_seats_socal_1, efficiency_gap_socal_1) ←
    walk_voting fuel (rw_socal part_socal_1) num_districts_socal;
  '(cutedges_socal_2, republican_seats_socal_2, efficiency_gap_socal_2) ←
    walk_voting fuel (rw_socal part_socal_2) num_districts_socal;
  (* Cal 3 ensembles *)
  let cutedges_cal3_1 :=
    cal3 Nat.add cutedges_norcal_1 cutedges_cal_1 cutedges_socal_1 in
  let cutedges_cal3_2 :=
    cal3 Nat.add cutedges_norcal_2 cutedges_cal_2 cutedges_socal_2 in
  let republican_seats_cal3_1 :=
    cal3 Nat.add republican_seats_norcal_1 republican_seats_cal_1
      republican_seats_socal_1 in
  let republican_seats_cal3_2 :=
    cal3 Nat.add republican_seats_norcal_2 republican_seats_cal_2
      republican_seats_socal_2 in
  let efficiency_gap_cal3_1 :=
    cal3 Qplus efficiency_gap_norcal_1 efficiency_gap_cal_1
      efficiency_gap_socal_1 in
  let efficiency_gap_cal3_2 :=
    cal3 Qplus efficiency_gap_norcal_2 efficiency_gap_cal_2
      efficiency_gap_socal_2 in
  (* pickles *)
  let __pickle := __pickle "voting" in
  mret [
    __pickle "cut_edges" (IntList cutedges_california_1)
      "cutedges_california_1";
    __pickle "cut_edges" (IntList cutedges_california_2)
      "cutedges_california_2";
    __pickle "cut_edges" (IntList cutedges_california_3)
      "cutedges_california_3";
    __pickle "cut_edges" (IntList cutedges_cal3_1) "cutedges_cal3_1";
    __pickle "cut_edges" (IntList cutedges_cal3_2) "cutedges_cal3_2";
    __pickle "republican_seats" (IntList republican_seats_california_1)
      "republican_seats_california_1";
    __pickle "republican_seats" (IntList republican_seats_california_2)
      "republican_seats_california_2";
    __pickle "republican_seats" (IntList republican_seats_california_3)
      "republican_seats_california_3";
    __pickle "republican_seats" (IntList republican_seats_cal3_1)
      "republican_seats_cal3_1";
    __pickle "republican_seats" (IntList republican_seats_cal3_2)
      "republican_seats_cal3_2";
    __pickle "efficiency_gap" (FloatList efficiency_gap_california_1)
      "efficiency_gap_california_1";
    __pickle "efficiency_gap" (FloatList efficiency_gap_california_2)
      "efficiency_gap_california_2";
    __pickle "efficiency_gap" (FloatList efficiency_gap_california_3)
      "efficiency_gap_california_3";
    __pickle "efficiency_gap" (FloatList efficiency_gap_cal3_1)
      "efficiency_gap_cal3_1";
    __pickle "efficiency_gap" (FloatList efficiency_gap_cal3_2)
      "efficiency_gap_cal3_2"
  ].

End Ensembles.

(** ** The statistics in the specification's words *)

(** [votes] strictly exceeds 50% of [total]. *)
Definition exceeds_half (votes total : Z) : Prop :=
  ((1 # 2) * inject_Z total < inject_Z votes)%Q.

#[global] Instance exceeds_half_dec votes total :
  Decision (exceeds_half votes total).
Proof.
  unfold exceeds_half.
  destruct (Qlt_le_dec ((1 # 2) * inject_Z total) (inject_Z votes)) as [Hlt|Hle].
  - left. exact Hlt.
  - right. apply Qle_not_lt. exact Hle.
Defined.

(** The tally of district [i], zero when the district is absent. *)
Definition district (part : Partition) (key : string) (i : nat) : Z :=
  default 0%Z (tally part key !! i).

(** Number of districts whose subgroup sum exceeds 50% of the primary sum. *)
Definition subgroup_majority_count (part : Partition) (K : nat) : nat :=
  length (filter
    (fun i => exceeds_half (district part "district_hispanic_latino_pop" i)
                           (district part "district_totpop" i))
    (range K)).

(** The bare majority threshold of a district: half of its cast total. *)
Definition votes_needed (total : Z) : Q := (inject_Z total / 2)%Q.

(** Wasted votes of the two parties in a district with [republican] and
    [democrat] votes out of [total]: all votes of the loser, the votes
    above the threshold for a winner, the one with more than 50% of
    [total]; nothing when neither has more than 50%. *)
Definition wasted_republican_votes (republican democrat total : Z) : Q :=
  if decide (exceeds_half republican total)
  then (inject_Z republican - votes_needed total)%Q
  else if decide (exceeds_half democrat total)
  then inject_Z republican
  else 0%Q.

Definition wasted_democrat_votes (republican democrat total : Z) : Q :=
  if decide (exceeds_half republican total)
  then inject_Z democrat
  else if decide (exceeds_half democrat total)
  then (inject_Z democrat - votes_needed total)%Q
  else 0%Q.

Definition sum_Q (xs : list Q) : Q := foldr Qplus 0%Q xs.
Definition sum_Z (xs : list Z) : Z := foldr Z.add 0%Z xs.

Section GapSpec.
Variable part : Partition.

(** District [i] has its three vote tallies. *)
Definition tallied (i : nat) : Prop :=
  is_Some (tally part "district_totvotes" !! i)
  ∧ is_Some (tally part "district_republican_votes" !! i)
  ∧ is_Some (tally part "district_democrat_votes" !! i).

Definition republican (i : nat) : Z :=
  district part "district_republican_votes" i.
Definition democrat (i : nat) : Z :=
  district part "district_democrat_votes" i.
Definition totvotes (i : nat) : Z :=
  district part "district_totvotes" i.

(** (wasted Democrat votes - wasted Republican votes) / votes cast, over
    districts [0 .. K-1]. *)
Definition efficiency_gap (K : nat) : Q :=
  ((sum_Q (map (fun i => wasted_democrat_votes
                            (republican i) (democrat i) (totvotes i))
               (range K))
    - sum_Q (map (fun i => wasted_republican_votes
                              (republican i) (democrat i) (totvotes i))
                 (range K)))
   / inject_Z (sum_Z (map totvotes (range K))))%Q.

(** Number of districts in which the Republican votes exceed 50%. *)
Definition republican_seats (K : nat) : nat :=
  length (filter (fun i => exceeds_half (republican i) (totvotes i))
                 (range K)).
End GapSpec.

(** ** Example partitions *)

Definition no_graph : Graph :=
  {| nodes := []; node_attr := fun _ => ∅; edges := ∅ |}.

(** A partition given by its tallies, district [i] at position [i]. *)
Definition partition_of (tallies : list (string * list Z)) : Partition :=
  {| graph := no_graph; assignment := ∅; cut_edges := ∅;
     tally := fun key =>
       map_seq 0 (default [] ((list_to_map tallies : gmap string (list Z))
                              !! key)) |}.

(** Two districts of 100 people, 51 and 50 of them Hispanic or Latino. *)
Definition two_districts : Partition :=
  partition_of [("district_totpop", [100; 100]%Z);
                ("district_hispanic_latino_pop", [51; 50]%Z)].

(** Two districts of 100 votes: 40 against 60, and 30 against 50. *)
Definition two_races : Partition :=
  partition_of [("district_totvotes", [100; 100]%Z);
                ("district_republican_votes", [40; 30]%Z);
                ("district_democrat_votes", [60; 50]%Z)].

(** One district in which nobody lives and nobody voted. *)
Definition empty_district : Partition :=
  partition_of [("district_totpop", [0]%Z);
                ("district_hispanic_latino_pop", [0]%Z);
                ("district_totvotes", [0]%Z);
                ("district_republican_votes", [0]%Z);
                ("district_democrat_votes", [0]%Z)].

(** Two districts of 101 and 99 people, and two of 150 and 50. *)
Definition balanced : Partition :=
  partition_of [("district_totpop", [101; 99]%Z);
                ("district_hispanic_latino_pop", [60; 10]%Z)].

Definition lopsided : Partition :=
  partition_of [("district_totpop", [150; 50]%Z);
                ("district_hispanic_latino_pop", [60; 10]%Z)].

(** A toy GerryChain whose generator state is a counter: [recom] proposes
    [lopsided] at even states and [balanced] at odd ones. *)
Definition toy : GerryChain :=
  {| RNG := nat;
     seed := Z.to_nat;
     recursive_tree_part := fun _ _ _ _ _ _ r => Ok (∅, S r);
     new_partition := fun _ _ _ => two_districts;
     recom := fun _ _ _ _ _ r =>
       Ok (if Nat.even r then lopsided else balanced, S r) |}.

Definition toy_constraint : Partition → bool :=
  match within_percent_of_ideal_population
          two_districts pop_tolerance "district_totpop" with
  | Ok constraint => constraint
  | _ => fun _ => false
  end.


(** A reference GerryChain on which both generators run to completion.
    A partition tracks its tallies and cut edges from the graph and the
    assignment; the tree partitioner gives every node a district of its own
    and [recom] proposes the partition it was given. *)
Definition tallies_of (graph : Graph) (plan : gmap nat nat) (field : string)
  : gmap nat Z :=
  foldr (fun node acc =>
           match plan !! node, node_attr graph node !! field with
           | Some d, Some value => <[d := (default 0 (acc !! d) + value)%Z]> acc
           | _, _ => acc
           end)
        ∅ (nodes graph).

Definition tracked (graph : Graph) (plan : gmap nat nat)
    (updaters : list (string * updater)) : Partition :=
  {| graph := graph;
     assignment := plan;
     cut_edges := filter (fun edge => plan !! edge.1 ≠ plan !! edge.2)
                         (edges graph);
     tally :=
       let tallies : gmap string (gmap nat Z) :=
         list_to_map
           (omap (fun '(alias, u) =>
                    match u with
                    | Tally field _ => Some (alias, tallies_of graph plan field)
                    | cut_edges_updater => None
                    end)
                 updaters) in
       fun alias => default ∅ (tallies !! alias) |}.

Definition one_node_each : GerryChain :=
  {| RNG := nat;
     seed := Z.to_nat;
     recursive_tree_part := fun graph parts _ _ _ _ r =>
       Ok (list_to_map (zip (nodes graph) parts), S r);
     new_partition := tracked;
     recom := fun part _ _ _ _ r => Ok (part, S r) |}.

(** A graph without edges whose node [i] has [pops[i]] people (and votes),
    60 of them Hispanic or Latino (Republican voters), 30 Democrat voters. *)
Definition graph_of (pops : list Z) : Graph :=
  {| nodes := seq 0 (length pops);
     node_attr := fun node =>
       {[ "total_pop" := default 0%Z (pops !! node);
          "hispanic_latino_pop" := 60%Z;
          "total_votes" := default 0%Z (pops !! node);
          "republican_votes" := 60%Z;
          "democrat_votes" := 30%Z ]};
     edges := ∅ |}.

(** ** More of [make_ensembles.py] and [plot_ensembles.py]

    The definitions below cover the code around the two walks: the three
    regions cut out of the graph of California, the files the generators
    write, and the plotting script that reads them. *)

(** District [i] has votes, and its two parties have no more votes than
    were cast. *)
Definition consistent_votes (part : Partition) (i : nat) : Prop :=
  (0 < totvotes part i ∧ 0 ≤ republican part i ∧ 0 ≤ democrat part i
   ∧ republican part i + democrat part i ≤ totvotes part i)%Z.

(** The partition whose Republican tally is the Democrat tally of [part]
    and the other way round. *)
Definition swap_parties (part : Partition) : Partition :=
  {| graph := graph part; assignment := assignment part;
     cut_edges := cut_edges part;
     tally := fun key =>
       if decide (key = "district_republican_votes")
       then tally part "district_democrat_votes"
       else if decide (key = "district_democrat_votes")
       then tally part "district_republican_votes"
       else tally part key |}.

(** *** The three regions, lines 88-119 and 472-506

    With [make_objects] the subgraphs are built from the graph of
    California; the county code of a node is a string and is kept beside
    the numeric attributes, in [COUNTYFP]. *)

(** [fips_cal], lines 92 and 476. *)
Definition fips_cal : gset string :=
  list_to_set ["069"; "053"; "079"; "083"; "111"; "037"].

(** [fips_socal], lines 94 and 478. *)
Definition fips_socal : gset string :=
  list_to_set ["051"; "039"; "019"; "107"; "027"; "029"; "071"; "065";
               "059"; "073"; "025"].

(** [set([fp for fp in data['COUNTYFP']
          if fp not in fips_cal and fp not in fips_socal])] *)
Definition fips_norcal (column : list string) : gset string :=
  list_to_set
    (filter (fun fp => (fp ∉ fips_cal) ∧ (fp ∉ fips_socal)) column).

(** [nx.subgraph(graph, nodes)]: the subgraph induced on the nodes of
    [graph] that are in [kept].  The order in which networkx lists its
    nodes is not modelled; nothing below depends on it. *)
Definition subgraph (graph : Graph) (kept : list nat) : Graph :=
  {| nodes := filter (fun node => node ∈ kept) (nodes graph);
     node_attr := node_attr graph;
     edges := filter (fun edge => edge.1 ∈ kept ∧ edge.2 ∈ kept)
                     (edges graph) |}.

(** [[node for node in graph.nodes()
      if graph.nodes()[node]['COUNTYFP'] in fips]] *)
Definition nodes_in (graph : Graph) (COUNTYFP : gmap nat string)
    (fips : gset string) : result (list nat) :=
  foldM (fun kept node =>
           fp ← getitem COUNTYFP node;
           Ok (if decide (fp ∈ fips) then kept ++ [node] else kept))
        [] (nodes graph).

(** The three subgraphs, lines 108-119 and 495-506. *)
Definition regions (graph_california : Graph) (COUNTYFP : gmap nat string)
    (fips_norcal : gset string) : result (Graph * Graph * Graph) :=
  subgraphs ← foldM (fun subgraphs fips =>
                 kept ← nodes_in graph_california COUNTYFP fips;
                 Ok (subgraphs ++ [subgraph graph_california kept]))
               [] [fips_norcal; fips_cal; fips_socal];
  unpack3 subgraphs.

(** Node [node] has a county code in [fips]. *)
Definition in_region (COUNTYFP : gmap nat string) (fips : gset string)
    (node : nat) : Prop :=
  match COUNTYFP !! node with
  | Some fp => fp ∈ fips
  | None => False
  end.

#[global] Instance in_region_dec COUNTYFP fips node :
  Decision (in_region COUNTYFP fips node).
Proof. unfold in_region. destruct (COUNTYFP !! node); apply _. Defined.

(** The value of attribute [key] at [node], zero when it is absent. *)
Definition attribute (graph : Graph) (key : string) (node : nat) : Z :=
  default 0%Z (node_attr graph node !! key).

(** Every node of [graph] has a nonnegative [key]. *)
Definition nonnegative (graph : Graph) (key : string) : Prop :=
  ∀ node, node ∈ nodes graph → (0 ≤ attribute graph key node)%Z.

(** *** The pickled files

    The paths [make_demographic_ensembles] writes, in order
    (lines 359-371). *)
Definition demographic_paths : list string :=
  map (fun name => "../ensembles/demographic/" ++ name ++ ".pkl")%string
    ["cut_edges/cutedges_california_1"; "cut_edges/cutedges_california_2";
     "cut_edges/cutedges_california_3"; "cut_edges/cutedges_cal3_1";
     "cut_edges/cutedges_cal3_2";
     "majority-minority/majmin_california_1";
     "majority-minority/majmin_california_2";
     "majority-minority/majmin_california_3";
     "majority-minority/majmin_cal3_1"; "majority-minority/majmin_cal3_2"].

(** The paths [make_voting_ensembles] writes, in order (lines 810-829). *)
Definition voting_paths : list string :=
  map (fun name => "../ensembles/voting/" ++ name ++ ".pkl")%string
    ["cut_edges/cutedges_california_1"; "cut_edges/cutedges_california_2";
     "cut_edges/cutedges_california_3"; "cut_edges/cutedges_cal3_1";
     "cut_edges/cutedges_cal3_2";
     "republican_seats/republican_seats_california_1";
     "republican_seats/republican_seats_california_2";
     "republican_seats/republican_seats_california_3";
     "republican_seats/republican_seats_cal3_1";
     "republican_seats/republican_seats_cal3_2";
     "efficiency_gap/efficiency_gap_california_1";
     "efficiency_gap/efficiency_gap_california_2";
     "efficiency_gap/efficiency_gap_california_3";
     "efficiency_gap/efficiency_gap_cal3_1";
     "efficiency_gap/efficiency_gap_cal3_2"].

(** *** [plot_ensembles.py]

    [main(show_convergence)] unpickles thirteen ensembles and shows
    histograms of them.  A figure is the record of the calls made between
    [plt.subplots()] and [plt.show()]; every figure of the script is drawn
    by the same sequence of calls: the title, one [plt.hist] per series,
    one [plt.axvline] at the mean of each series in the same order, the
    fixed lines, the legend and the axis labels.  The files are a map from
    path to pickled object.  [statistics.mean] is exact on the rationals
    that stand for floats. *)

(** The exceptions of the script: [open] of a missing file, and
    [statistics.mean] of an empty list. *)
Inductive failure : Type :=
  | FileNotFoundError (path : string)
  | StatisticsError.

Definition attempt (A : Type) : Type := failure + A.

#[global] Instance attempt_ret : MRet attempt := fun A a => inr a.
#[global] Instance attempt_bind : MBind attempt := fun A B f m =>
  match m with
  | inr a => f a
  | inl e => inl e
  end.

(** [with open(path, 'rb') as f: pkl.load(f)] *)
Definition load (files : gmap string pyobject) (path : string)
  : attempt pyobject :=
  match files !! path with
  | Some object => inr object
  | None => inl (FileNotFoundError path)
  end.

(** The numbers of a pickled list. *)
Definition numbers (object : pyobject) : list Q :=
  match object with
  | IntList xs => map (fun x => inject_Z (Z.of_nat x)) xs
  | FloatList xs => xs
  end.

(** [statistics.mean(data)] *)
Definition mean (data : list Q) : attempt Q :=
  match data with
  | [] => inl StatisticsError
  | _ => inr (sum_Q data / inject_Z (Z.of_nat (length data)))%Q
  end.

Inductive linestyle : Type :=
  | dashed
  | dashes (offset on off : nat).

Record histogram : Type := {
  hist_data : list Q; hist_color : string; hist_alpha : Q; hist_bins : nat;
}.

Record vline : Type := {
  vline_x : Q; vline_color : string; vline_width : Q; vline_style : linestyle;
}.

Record patch : Type := { patch_color : string; patch_label : string }.

Record figure : Type := {
  title : string;
  hists : list histogram;
  vlines : list vline;
  legend : list patch;
  legend_loc : string;
  ylabel : string;
  xlabel : string;
}.

(** Plot styles, lines 52-58. *)
Definition colors_california : list string :=
  ["tab:cyan"; "tab:orange"; "tab:green"].
Definition colors_cal3 : list string := ["tab:red"; "tab:pink"].
Definition convergence_intervals : list Z := [100; 25000; 50000]%Z.
Definition alpha : Q := 7 # 10.
Definition linewidth : Q := 15 # 10.
Definition loc : string := "upper right".

(** [colors[i]] of the two colour lists, whose indices are in range. *)
Definition color (colors : list string) (i : nat) : string :=
  default "" (colors !! i).

(** The [plt.axvline(mean(data), ...)] calls of a figure, in order. *)
Fixpoint mean_lines (series : list (list Q * string)) : attempt (list vline) :=
  match series with
  | [] => mret []
  | (data, color) :: series' =>
      m ← mean data;
      lines ← mean_lines series';
      mret ({| vline_x := m; vline_color := color;
               vline_width := linewidth; vline_style := dashed |} :: lines)
  end.

(** One figure, from [plt.subplots()] to [plt.show()]: [series] are the
    histogram data with their colours, [marks] the vertical lines drawn
    after the means. *)
Definition plot (title : string) (bins : nat)
    (series : list (list Q * string)) (marks : list vline)
    (legend : list patch) (xlabel : string) : attempt figure :=
  lines ← mean_lines series;
  mret {| title := title;
          hists := map (fun '(data, color) =>
                          {| hist_data := data; hist_color := color;
                             hist_alpha := alpha; hist_bins := bins |})
                       series;
          vlines := lines ++ marks;
          legend := legend;
          legend_loc := loc;
          ylabel := "# Plans";
          xlabel := xlabel |}.

(** [[val/52 for val in ensemble]] *)
Definition shares (ensemble : list Q) : list Q :=
  map (fun val => val / 52)%Q ensemble.

(** [plt.axvline(x, color='darkorange', linewidth=linewidth,
    linestyle=(0, (5, 1)))] *)
Definition actual (x : Q) : vline :=
  {| vline_x := x; vline_color := "darkorange"; vline_width := linewidth;
     vline_style := dashes 0 5 1 |}.

Definition handle (colors : list string) (i : nat) (label : string) : patch :=
  {| patch_color := color colors i; patch_label := label |}.

(** The thirteen ensembles in the order they are loaded, lines 18-47. *)
Record ensembles : Type := {
  tract_cutedges_california_1 : list Q;
  tract_cutedges_california_2 : list Q;
  tract_cutedges_california_3 : list Q;
  majmin_california_1 : list Q;
  tract_cutedges_cal3_1 : list Q;
  tract_cutedges_cal3_2 : list Q;
  majmin_cal3_1 : list Q;
  precinct_cutedges_california_1 : list Q;
  precinct_cutedges_california_2 : list Q;
  republican_seats_california_1 : list Q;
  efficiency_gap_california_1 : list Q;
  republican_seats_cal3_1 : list Q;
  efficiency_gap_cal3_1 : list Q;
}.

(** Lines 18-47. *)
Definition load_ensembles (files : gmap string pyobject) : attempt ensembles :=
  a ← load files "../ensembles/demographic/cut_edges/cutedges_california_1.pkl";
  b ← load files "../ensembles/demographic/cut_edges/cutedges_california_2.pkl";
  c ← load files "../ensembles/demographic/cut_edges/cutedges_california_3.pkl";
  d ← load files "../ensembles/demographic/majority-minority/majmin_california_1.pkl";
  e ← load files "../ensembles/demographic/cut_edges/cutedges_cal3_1.pkl";
  f ← load files "../ensembles/demographic/cut_edges/cutedges_cal3_2.pkl";
  g ← load files "../ensembles/demographic/majority-minority/majmin_cal3_1.pkl";
  h ← load files "../ensembles/voting/cut_edges/cutedges_california_1.pkl";
  i ← load files "../ensembles/voting/cut_edges/cutedges_california_2.pkl";
  j ← load files "../ensembles/voting/republican_seats/republican_seats_california_1.pkl";
  k ← load files "../ensembles/voting/efficiency_gap/efficiency_gap_california_1.pkl";
  l ← load files "../ensembles/voting/republican_seats/republican_seats_cal3_1.pkl";
  m ← load files "../ensembles/voting/efficiency_gap/efficiency_gap_cal3_1.pkl";
  mret {| tract_cutedges_california_1 := numbers a;
          tract_cutedges_california_2 := numbers b;
          tract_cutedges_california_3 := numbers c;
          majmin_california_1 := numbers d;
          tract_cutedges_cal3_1 := numbers e;
          tract_cutedges_cal3_2 := numbers f;
          majmin_cal3_1 := numbers g;
          precinct_cutedges_california_1 := numbers h;
          precinct_cutedges_california_2 := numbers i;
          republican_seats_california_1 := numbers j;
          efficiency_gap_california_1 := numbers k;
          republican_seats_cal3_1 := numbers l;
          efficiency_gap_cal3_1 := numbers m |}.

(** Lines 66-84. *)
Definition tract_california (e : ensembles) (steps : Z) : attempt figure :=
  plot ("Distribution of # Cut Edges in California after " ++ pretty steps
        ++ " steps using Tract-level dual graphs") 25
    [(take (Z.to_nat steps) (tract_cutedges_california_3 e), color colors_california 2);
     (take (Z.to_nat steps) (tract_cutedges_california_2 e), color colors_california 1);
     (take (Z.to_nat steps) (tract_cutedges_california_1 e), color colors_california 0)]
    []
    [handle colors_california 0 "Seed 0"; handle colors_california 1 "Seed 3";
     handle colors_california 2 "Seed 4"]
    "# Cut Edges".

(** Lines 88-103. *)
Definition tract_cal3 (e : ensembles) (steps : Z) : attempt figure :=
  plot ("Distribution of # Cut Edges in Cal 3 after " ++ pretty steps
        ++ " steps using Tract-level dual graphs") 25
    [(take (Z.to_nat steps) (tract_cutedges_cal3_2 e), color colors_cal3 1);
     (take (Z.to_nat steps) (tract_cutedges_cal3_1 e), color colors_cal3 0)]
    []
    [handle colors_cal3 0 "Seed 0"; handle colors_cal3 1 "Seed 1"]
    "# Cut Edges".

(** Lines 108-125. *)
Definition majority_minority (e : ensembles) : attempt figure :=
  plot "Distribution of % Districts Majority-Hispanic or -Latino in Cal 3 vs. California"
    13
    [(shares (majmin_california_1 e), color colors_california 0);
     (shares (majmin_cal3_1 e), color colors_cal3 0)]
    [actual (394 # 1000)]
    [handle colors_california 0 "California (seed 0)";
     handle colors_cal3 0 "Cal 3 (seed 0)";
     {| patch_color := "darkorange"; patch_label := "% population (actual)" |}]
    "% Districts Majority-Hispanic or -Latino".

(** Lines 133-148. *)
Definition precinct_california (e : ensembles) (steps : Z)
  : attempt figure :=
  plot ("Distribution of # Cut Edges in California after " ++ pretty steps
        ++ " steps using Precinct-level dual graphs") 25
    [(take (Z.to_nat steps) (precinct_cutedges_california_2 e),
      color colors_california 1);
     (take (Z.to_nat steps) (precinct_cutedges_california_1 e),
      color colors_california 0)]
    []
    [handle colors_california 0 "Seed 0"; handle colors_california 1 "Seed 3"]
    "# Cut Edges".

(** Lines 153-170. *)
Definition seat_share (e : ensembles) : attempt figure :=
  plot "Distribution of Republican Seat Share in Cal 3 vs. California" 8
    [(shares (republican_seats_california_1 e), color colors_california 0);
     (shares (republican_seats_cal3_1 e), color colors_cal3 0)]
    [actual (3191 # 10000)]
    [handle colors_california 0 "California (seed 0)";
     handle colors_cal3 0 "Cal 3 (seed 0)";
     {| patch_color := "darkorange"; patch_label := "Vote share (actual)" |}]
    "Republican Seat Share".

(** Lines 175-190. *)
Definition efficiency_gaps (e : ensembles) : attempt figure :=
  plot "Distribution of the Efficiency Gap of Cal 3 vs. California" 25
    [(efficiency_gap_california_1 e, color colors_california 0);
     (efficiency_gap_cal3_1 e, color colors_cal3 0)]
    []
    [handle colors_california 0 "California (seed 0)";
     handle colors_cal3 0 "Cal 3 (seed 0)"]
    "Efficiency Gap".

(** The figures of [main] in the order they are drawn. *)
Definition figures (show_convergence : bool) (e : ensembles)
  : list (attempt figure) :=
  (if show_convergence
   then map (tract_california e) convergence_intervals
        ++ map (tract_cal3 e) convergence_intervals
   else [])
  ++ [majority_minority e]
  ++ (if show_convergence
      then map (precinct_california e) convergence_intervals
      else [])
  ++ [seat_share e; efficiency_gaps e].

(** The figures are shown one after the other; the first exception ends
    the script. *)
Fixpoint show_figures (drawn : list (attempt figure)) : list figure * option failure :=
  match drawn with
  | [] => ([], None)
  | inl e :: _ => ([], Some e)
  | inr f :: drawn' => let '(shown, e) := show_figures drawn' in (f :: shown, e)
  end.

(** [main(show_convergence)]: the figures shown, and the exception that
    ended the script if there was one. *)
Definition plot_main (show_convergence : bool) (files : gmap string pyobject)
  : list figure * option failure :=
  match load_ensembles files with
  | inl e => ([], Some e)
  | inr e => show_figures (figures show_convergence e)
  end.

(** The paths read by [main], in order. *)
Definition loaded_paths : list string :=
  ["../ensembles/demographic/cut_edges/cutedges_california_1.pkl";
   "../ensembles/demographic/cut_edges/cutedges_california_2.pkl";
   "../ensembles/demographic/cut_edges/cutedges_california_3.pkl";
   "../ensembles/demographic/majority-minority/majmin_california_1.pkl";
   "../ensembles/demographic/cut_edges/cutedges_cal3_1.pkl";
   "../ensembles/demographic/cut_edges/cutedges_cal3_2.pkl";
   "../ensembles/demographic/majority-minority/majmin_cal3_1.pkl";
   "../ensembles/voting/cut_edges/cutedges_california_1.pkl";
   "../ensembles/voting/cut_edges/cutedges_california_2.pkl";
   "../ensembles/voting/republican_seats/republican_seats_california_1.pkl";
   "../ensembles/voting/efficiency_gap/efficiency_gap_california_1.pkl";
   "../ensembles/voting/republican_seats/republican_seats_cal3_1.pkl";
   "../ensembles/voting/efficiency_gap/efficiency_gap_cal3_1.pkl"].

(** The paths whose ensembles are plotted without [show_convergence]. *)
Definition compared_paths : list string :=
  ["../ensembles/demographic/majority-minority/majmin_california_1.pkl";
   "../ensembles/demographic/majority-minority/majmin_cal3_1.pkl";
   "../ensembles/voting/republican_seats/republican_seats_california_1.pkl";
   "../ensembles/voting/efficiency_gap/efficiency_gap_california_1.pkl";
   "../ensembles/voting/republican_seats/republican_seats_cal3_1.pkl";
   "../ensembles/voting/efficiency_gap/efficiency_gap_cal3_1.pkl"].

(** [pkl.dump] of each file in turn, a later file replacing an earlier one
    of the same path. *)
Definition dump (written : list (string * pyobject))
    (files : gmap string pyobject) : gmap string pyobject :=
  foldl (fun files '(path, object) => <[path := object]> files) files written.

(** The ensembles of the three comparison figures, and those of the
    convergence figures. *)
Definition compared (e : ensembles) : list (list Q) :=
  [majmin_california_1 e; majmin_cal3_1 e; republican_seats_california_1 e;
   republican_seats_cal3_1 e; efficiency_gap_california_1 e;
   efficiency_gap_cal3_1 e].

Definition converging (e : ensembles) : list (list Q) :=
  [tract_cutedges_california_1 e; tract_cutedges_california_2 e;
   tract_cutedges_california_3 e; tract_cutedges_cal3_1 e;
   tract_cutedges_cal3_2 e; precinct_cutedges_california_1 e;
   precinct_cutedges_california_2 e].

(** The numbers [main] holds for [path] after loading. *)
Definition read (files : gmap string pyobject) (path : string) : list Q :=
  match files !! path with
  | Some object => numbers object
  | None => []
  end.

(** There is no file at [path]. *)
Definition missing (files : gmap string pyobject) (path : string) : bool :=
  match files !! path with
  | Some _ => false
  | None => true
  end.

(** The ensembles [main] holds when every file is there. *)
Definition loaded (files : gmap string pyobject) : ensembles :=
  {| tract_cutedges_california_1 :=
       read files "../ensembles/demographic/cut_edges/cutedges_california_1.pkl";
     tract_cutedges_california_2 :=
       read files "../ensembles/demographic/cut_edges/cutedges_california_2.pkl";
     tract_cutedges_california_3 :=
       read files "../ensembles/demographic/cut_edges/cutedges_california_3.pkl";
     majmin_california_1 :=
       read files "../ensembles/demographic/majority-minority/majmin_california_1.pkl";
     tract_cutedges_cal3_1 :=
       read files "../ensembles/demographic/cut_edges/cutedges_cal3_1.pkl";
     tract_cutedges_cal3_2 :=
       read files "../ensembles/demographic/cut_edges/cutedges_cal3_2.pkl";
     majmin_cal3_1 :=
       read files "../ensembles/demographic/majority-minority/majmin_cal3_1.pkl";
     precinct_cutedges_california_1 :=
       read files "../ensembles/voting/cut_edges/cutedges_california_1.pkl";
     precinct_cutedges_california_2 :=
       read files "../ensembles/voting/cut_edges/cutedges_california_2.pkl";
     republican_seats_california_1 :=
       read files "../ensembles/voting/republican_seats/republican_seats_california_1.pkl";
     efficiency_gap_california_1 :=
       read files "../ensembles/voting/efficiency_gap/efficiency_gap_california_1.pkl";
     republican_seats_cal3_1 :=
       read files "../ensembles/voting/republican_seats/republican_seats_cal3_1.pkl";
     efficiency_gap_cal3_1 :=
       read files "../ensembles/voting/efficiency_gap/efficiency_gap_cal3_1.pkl" |}.

(** The ensembles that [main] plots are there and not empty. *)
Definition plottable (show_convergence : bool)
    (files : gmap string pyobject) : Prop :=
  Forall (fun path => is_Some (files !! path)) loaded_paths
  ∧ Forall (fun path => ∀ object, files !! path = Some object →
                                  numbers object ≠ [])
      (if show_convergence then loaded_paths else compared_paths).

(** *** More example data *)

(** A GerryChain whose tree partitioner finds no balanced cut when the
    generator is in an odd state. *)
Definition fussy : GerryChain :=
  {| RNG := nat;
     seed := Z.to_nat;
     recursive_tree_part := fun _ _ _ _ _ _ r =>
       if Nat.even r then Ok (∅, S r)
       else Raise (Exception "Could not find a possible cut");
     new_partition := fun _ _ _ => two_districts;
     recom := fun part _ _ _ _ r => Ok (part, S r) |}.

(** Four tracts of 10, 20, 30 and 40 people in Alameda, Los Angeles,
    San Diego and Kings county. *)
Definition four_tracts : Graph := graph_of [10; 20; 30; 40]%Z.

Definition four_counties : gmap nat string :=
  list_to_map [(0, "001"); (1, "037"); (2, "073"); (3, "031")]%nat.

(** Thirteen ensembles of two steps each, at the paths [main] loads. *)
Definition two_steps : gmap string pyobject :=
  dump (map (fun path => (path, IntList [13; 26])) loaded_paths) ∅.

(** In the words of IEEE 754: [y] is the double nearest to [x].  [y] is
    a multiple [m * 2 ^ e] of the last bit of the doubles around [x]
    (those of 53 bits whose leading bit is that of [x], or the subnormal
    ones), no further than half that bit from [x], with [m] even when it
    is exactly half a bit away, and within the range of the doubles. *)
Definition nearest_double (x y : Q) : Prop :=
  ∃ m e : Z,
    (y == inject_Z m * 2 ^ e)%Q
    ∧ (-1074 ≤ e)%Z
    ∧ (Qabs x < 2 ^ (e + 53))%Q
    ∧ (e = (-1074)%Z ∨ (2 ^ (e + 52) <= Qabs x)%Q)
    ∧ (Qabs (y - x) <= 2 ^ e / 2)%Q
    ∧ ((Qabs (y - x) == 2 ^ e / 2)%Q → Z.even m = true)
    ∧ (Qabs y < 2 ^ 1024)%Q.

(** Two tracts, and two precincts, of one district each; nobody lives and
    nobody voted in the second.  The partitions are the ones the reference
    GerryChain tracks for the updaters of either generator. *)
Definition ghost_town : Graph :=
  {| nodes := [0; 1]%nat;
     node_attr := fun node =>
       if decide (node = 0%nat)
       then {[ "total_pop" := 100%Z; "hispanic_latino_pop" := 51%Z;
               "total_votes" := 100%Z; "republican_votes" := 40%Z;
               "democrat_votes" := 60%Z ]}
       else {[ "total_pop" := 0%Z; "hispanic_latino_pop" := 0%Z;
               "total_votes" := 0%Z; "republican_votes" := 0%Z;
               "democrat_votes" := 0%Z ]};
     edges := ∅ |}.

Definition deserted_tract : Partition :=
  tracked ghost_town (list_to_map [(0, 0); (1, 1)]%nat)
    [("cut_edges", cut_edges_updater);
     ("district_totpop", Tally "total_pop" "district_totpop");
     ("district_hispanic_latino_pop",
      Tally "hispanic_latino_pop" "district_hispanic_latino_pop")].

Definition deserted_precinct : Partition :=
  tracked ghost_town (list_to_map [(0, 0); (1, 1)]%nat)
    [("cut_edges", cut_edges_updater);
     ("district_totvotes", Tally "total_votes" "district_totvotes");
     ("district_democrat_votes",
      Tally "democrat_votes" "district_democrat_votes");
     ("district_republican_votes",
      Tally "republican_votes" "district_republican_votes")].

(** A GerryChain whose tree partitioner raises [e] whenever it is
    called. *)
Definition failing (e : exn) : GerryChain :=
  {| RNG := unit;
     seed := fun _ => tt;
     recursive_tree_part := fun _ _ _ _ _ _ _ => Raise e;
     new_partition := fun _ _ _ => two_districts;
     recom := fun part _ _ _ _ r => Ok (part, r) |}.

(** A generator raises [e] before any partition is built and before any
    chain step: it raises [e] whatever GerryChain does and whatever state
    the random generator is in. *)
Definition raises_before_partitions
    (generator : ∀ H : GerryChain,
       nat → nat → Graph → Graph → Graph → Graph →
       M (list (string * pyobject)))
    (graph_california graph_norcal graph_cal graph_socal : Graph)
    (e : exn) : Prop :=
  ∀ (H : GerryChain) (fuel steps : nat) (r : RNG),
    generator H fuel steps graph_california graph_norcal graph_cal
      graph_socal r
    = Raise e.

(** ** Arithmetic of shares *)

Lemma gt_true (a b : Q) : gt a b = true ↔ (b < a)%Q.
Proof.
  unfold gt. rewrite negb_true_iff. split.
  - intros Hle. apply Qnot_le_lt. intros Hab.
    apply Qle_bool_iff in Hab. congruence.
  - intros Hlt. destruct (Qle_bool a b) eqn:E; [|reflexivity].
    apply Qle_bool_iff in E. exfalso. exact (Qlt_not_le _ _ Hlt E).
Qed.

Lemma gt_false (a b : Q) : gt a b = false ↔ (a <= b)%Q.
Proof. unfold gt. rewrite negb_false_iff. apply Qle_bool_iff. Qed.

Lemma exceeds_half_Z (votes total : Z) :
  exceeds_half votes total ↔ (total < 2 * votes)%Z.
Proof. unfold exceeds_half, Qlt. simpl. lia. Qed.

Lemma truediv_nonzero (a : Q) (b : Z) :
  b ≠ 0%Z →
  truediv a (inject_Z b) = Ok (a / inject_Z b)%Q.
Proof.
  intros Hb. unfold truediv.
  destruct (Qeq_bool (inject_Z b) 0) eqn:E; [|reflexivity].
  apply Qeq_bool_iff in E. unfold Qeq in E. simpl in E. lia.
Qed.

(** For a positive total, Python's [votes / total > 0.5] is "exceeds 50%". *)
Lemma share_gt_half (votes total : Z) :
  (0 < total)%Z →
  gt (inject_Z votes / inject_Z total) (1 # 2) = true
  ↔ exceeds_half votes total.
Proof.
  intros Hpos. rewrite gt_true, exceeds_half_Z.
  destruct total as [|p|p]; try lia.
  unfold Qlt, Qdiv, Qmult, Qinv. simpl. lia.
Qed.

Lemma share_gt_half_false (votes total : Z) :
  (0 < total)%Z →
  gt (inject_Z votes / inject_Z total) (1 # 2) = false
  ↔ ¬ exceeds_half votes total.
Proof.
  intros Hpos. rewrite <- share_gt_half by assumption.
  destruct (gt _ _); split; intros; congruence.
Qed.

Lemma getitem_Some `{Countable K} {V : Type} (d : gmap K V) k v :
  d !! k = Some v → getitem d k = Ok v.
Proof. unfold getitem. intros ->. reflexivity. Qed.

Lemma district_Some part key i v :
  tally part key !! i = Some v → district part key i = v.
Proof. unfold district. intros ->. reflexivity. Qed.

(** ** The subgroup-majority extractor *)

Section MajorityCount.
Variable part : Partition.

Let hispanic := district part "district_hispanic_latino_pop".
Let totpop := district part "district_totpop".

Lemma count_district_positive (count i : nat) :
  is_Some (tally part "district_hispanic_latino_pop" !! i) →
  is_Some (tally part "district_totpop" !! i) →
  (0 < totpop i)%Z →
  Demographic.count_district part count i =
    Ok (if decide (exceeds_half (hispanic i) (totpop i))
        then count + 1 else count).
Proof.
  intros [h Hh] [t Ht] Hpos. subst hispanic totpop.
  rewrite (district_Some _ _ _ _ Hh), (district_Some _ _ _ _ Ht) in *.
  unfold Demographic.count_district.
  rewrite (getitem_Some _ _ _ Hh), (getitem_Some _ _ _ Ht). simpl.
  rewrite truediv_nonzero by lia. simpl.
  destruct (decide (exceeds_half h t)) as [Hex|Hex].
  - apply share_gt_half in Hex; [|assumption]. rewrite Hex. reflexivity.
  - apply share_gt_half_false in Hex; [|assumption]. rewrite Hex. reflexivity.
Qed.

Lemma count_districts_positive (l : list nat) (count : nat) :
  Forall (fun i =>
    is_Some (tally part "district_hispanic_latino_pop" !! i)
    ∧ is_Some (tally part "district_totpop" !! i)
    ∧ (0 < totpop i)%Z) l →
  foldM (Demographic.count_district part) count l =
    Ok (count + length (filter
          (fun i => exceeds_half (hispanic i) (totpop i)) l)).
Proof.
  intros Hall. revert count.
  induction Hall as [|i l (Hh & Ht & Hpos) _ IH]; intros count; simpl.
  - f_equal. lia.
  - rewrite count_district_positive by assumption. simpl.
    rewrite filter_cons. destruct (decide _); rewrite IH; simpl; f_equal; lia.
Qed.

End MajorityCount.

Lemma range_lt (K i : nat) : i ∈ range K ↔ i < K.
Proof. unfold range. rewrite elem_of_seq. lia. Qed.

Lemma Forall_range (P : nat → Prop) (K : nat) :
  (∀ i, i < K → P i) → Forall P (range K).
Proof. intros HP. apply Forall_forall. intros i Hi. apply HP, range_lt, Hi. Qed.

(** C2.  On a partition with districts [0 .. K-1] whose total populations
    are all positive, the subgroup-majority extractor returns the number of
    districts whose Hispanic-or-Latino sum strictly exceeds 50% of the
    district's total population; each such district adds one to the count
    and every other district adds nothing.  51 out of 100 exceeds 50%,
    exactly 50 out of 100 does not. *)
Theorem majmin_counts_subgroup_majorities (part : Partition) (K : nat) :
  has_districts part "district_hispanic_latino_pop" K →
  has_districts part "district_totpop" K →
  (∀ i, i < K → (0 < district part "district_totpop" i)%Z) →
  Demographic.majmin part K = Ok (subgroup_majority_count part K)
  ∧ (∀ i count, i < K →
       Demographic.count_district part count i =
         Ok (if decide (exceeds_half
                          (district part "district_hispanic_latino_pop" i)
                          (district part "district_totpop" i))
             then count + 1 else count))
  ∧ exceeds_half 51 100 ∧ ¬ exceeds_half 50 100.
Proof.
  intros Hh Ht Hpos. split; [|split; [|split]].
  - unfold Demographic.majmin, subgroup_majority_count.
    rewrite count_districts_positive; [reflexivity|].
    apply Forall_range. intros i Hi. auto.
  - intros i count Hi. apply count_district_positive; auto.
  - apply exceeds_half_Z. lia.
  - intros Hex. apply exceeds_half_Z in Hex. lia.
Qed.

Lemma majmin_counts_subgroup_majorities_witness :
  has_districts two_districts "district_hispanic_latino_pop" 2
  ∧ has_districts two_districts "district_totpop" 2
  ∧ (∀ i, i < 2 → (0 < district two_districts "district_totpop" i)%Z)
  ∧ Demographic.majmin two_districts 2 = Ok 1.
Proof.
  assert (has_districts two_districts "district_hispanic_latino_pop" 2) as Hh.
  { intros i Hi. destruct i as [|[|i]]; [vm_compute; eauto..|lia]. }
  assert (has_districts two_districts "district_totpop" 2) as Ht.
  { intros i Hi. destruct i as [|[|i]]; [vm_compute; eauto..|lia]. }
  assert (∀ i, i < 2 → (0 < district two_districts "district_totpop" i)%Z)
    as Hpos.
  { intros i Hi. destruct i as [|[|i]]; [vm_compute; reflexivity..|lia]. }
  split; [exact Hh|]. split; [exact Ht|]. split; [exact Hpos|].
  destruct (majmin_counts_subgroup_majorities two_districts 2 Hh Ht Hpos)
    as [Hcount _].
  rewrite Hcount. vm_compute. reflexivity.
Defined.

(** ** The efficiency-gap extractor *)

Lemma bind_Ok {A B : Type} (f : A → result B) (a : A) : Ok a ≫= f = f a.
Proof. reflexivity. Qed.

Lemma truediv_two (a : Q) : truediv a 2 = Ok (a / 2)%Q.
Proof. reflexivity. Qed.

Lemma sum_Q_cons (x : Q) (xs : list Q) : sum_Q (x :: xs) = (x + sum_Q xs)%Q.
Proof. reflexivity. Qed.

Lemma sum_Z_cons (x : Z) (xs : list Z) : sum_Z (x :: xs) = (x + sum_Z xs)%Z.
Proof. reflexivity. Qed.

Lemma sum_Z_positive (f : nat → Z) (l : list nat) :
  l ≠ [] → Forall (fun i => (0 < f i)%Z) l → (0 < sum_Z (map f l))%Z.
Proof.
  intros Hne Hall. induction Hall as [|i l Hi Hall IH]; [congruence|].
  simpl. destruct l as [|j l].
  - simpl. lia.
  - assert (0 < sum_Z (map f (j :: l)))%Z by (apply IH; congruence). lia.
Qed.

Section VoteCount.
Variable part : Partition.

Lemma vote_district_positive (c : Voting.counters) (i : nat) :
  tallied part i → (0 < totvotes part i)%Z →
  Voting.count_district part c i =
    Ok (if decide (exceeds_half (republican part i) (totvotes part i)) then
          {| Voting.seats := Voting.seats c + 1;
             Voting.wasted_republican :=
               (Voting.wasted_republican c
                + (inject_Z (republican part i)
                   - votes_needed (totvotes part i)))%Q;
             Voting.wasted_democrat :=
               (Voting.wasted_democrat c + inject_Z (democrat part i))%Q;
             Voting.plan_totvotes :=
               (Voting.plan_totvotes c + totvotes part i)%Z |}
        else if decide (exceeds_half (democrat part i) (totvotes part i)) then
          {| Voting.seats := Voting.seats c;
             Voting.wasted_republican :=
               (Voting.wasted_republican c + inject_Z (republican part i))%Q;
             Voting.wasted_democrat :=
               (Voting.wasted_democrat c
                + (inject_Z (democrat part i)
                   - votes_needed (totvotes part i)))%Q;
             Voting.plan_totvotes :=
               (Voting.plan_totvotes c + totvotes part i)%Z |}
        else
          {| Voting.seats := Voting.seats c;
             Voting.wasted_republican := Voting.wasted_republican c;
             Voting.wasted_democrat := Voting.wasted_democrat c;
             Voting.plan_totvotes :=
               (Voting.plan_totvotes c + totvotes part i)%Z |}).
Proof.
  intros ([t Ht] & [r Hr] & [d Hd]). unfold totvotes, republican, democrat.
  rewrite (district_Some _ _ _ _ Ht), (district_Some _ _ _ _ Hr),
    (district_Some _ _ _ _ Hd).
  intros Hpos. unfold Voting.count_district, votes_needed.
  rewrite (getitem_Some _ _ _ Ht), bind_Ok, truediv_two, bind_Ok.
  rewrite (getitem_Some _ _ _ Hr), bind_Ok, (getitem_Some _ _ _ Hd), bind_Ok.
  rewrite (truediv_nonzero (inject_Z r) t), bind_Ok by lia.
  destruct (decide (exceeds_half r t)) as [Hr'|Hr'].
  - apply share_gt_half in Hr'; [|assumption]. rewrite Hr'. reflexivity.
  - apply share_gt_half_false in Hr'; [|assumption]. rewrite Hr'.
    rewrite (truediv_nonzero (inject_Z d) t), bind_Ok by lia.
    destruct (decide (exceeds_half d t)) as [Hd'|Hd'].
    + apply share_gt_half in Hd'; [|assumption]. rewrite Hd'. reflexivity.
    + apply share_gt_half_false in Hd'; [|assumption]. rewrite Hd'.
      reflexivity.
Qed.

Lemma vote_district_zero (c : Voting.counters) (i : nat) :
  tallied part i → totvotes part i = 0%Z →
  Voting.count_district part c i = Raise ZeroDivisionError.
Proof.
  intros ([t Ht] & [r Hr] & [d Hd]). unfold totvotes.
  rewrite (district_Some _ _ _ _ Ht). intros ->.
  unfold Voting.count_district.
  rewrite (getitem_Some _ _ _ Ht), bind_Ok, truediv_two, bind_Ok.
  rewrite (getitem_Some _ _ _ Hr), bind_Ok, (getitem_Some _ _ _ Hd), bind_Ok.
  reflexivity.
Qed.

(** The counters after a run of districts with positive totals. *)
Lemma vote_districts_positive (l : list nat) (c : Voting.counters) :
  Forall (fun i => tallied part i ∧ (0 < totvotes part i)%Z) l →
  ∃ c', foldM (Voting.count_district part) c l = Ok c'
    ∧ Voting.seats c' =
        Voting.seats c
        + length (filter (fun i => exceeds_half (republican part i)
                                                (totvotes part i)) l)
    ∧ (Voting.wasted_democrat c' ==
         Voting.wasted_democrat c
         + sum_Q (map (fun i => wasted_democrat_votes (republican part i)
                                  (democrat part i) (totvotes part i)) l))%Q
    ∧ (Voting.wasted_republican c' ==
         Voting.wasted_republican c
         + sum_Q (map (fun i => wasted_republican_votes (republican part i)
                                  (democrat part i) (totvotes part i)) l))%Q
    ∧ Voting.plan_totvotes c' =
        (Voting.plan_totvotes c + sum_Z (map (totvotes part) l))%Z.
Proof.
  intros Hall. revert c.
  induction Hall as [|i l [Hi Hpos] _ IH]; intros c.
  - exists c. cbn [foldM filter list_filter map sum_Q sum_Z foldr length].
    split; [reflexivity|]. split; [lia|].
    split; [ring|]. split; [ring|lia].
  - cbn [foldM]. rewrite (vote_district_positive c i Hi Hpos), bind_Ok.
    rewrite filter_cons. cbn [map]. rewrite !sum_Q_cons, sum_Z_cons.
    set (SD := sum_Q (map (fun j => wasted_democrat_votes _ _ _) l)) in *.
    set (SR := sum_Q (map (fun j => wasted_republican_votes _ _ _) l)) in *.
    unfold wasted_democrat_votes, wasted_republican_votes.
    destruct (decide (exceeds_half (republican part i) (totvotes part i)));
      [|destruct (decide (exceeds_half (democrat part i) (totvotes part i)))];
      match goal with
      | |- ∃ c', foldM _ ?c0 _ = _ ∧ _ =>
          destruct (IH c0) as (c' & Hrun & Hs & Hd & Hr & Ht)
      end;
      exists c'; cbn [Voting.seats Voting.wasted_democrat
                      Voting.wasted_republican Voting.plan_totvotes] in *;
      (split; [exact Hrun|]);
      (split; [cbn [length]; lia|]);
      (split; [rewrite Hd; ring|]);
      (split; [rewrite Hr; ring|]); lia.
Qed.

End VoteCount.

(** C1.  On a partition with districts [0 .. K-1] (at least one) whose vote
    totals are all positive, the efficiency-gap extractor reports the gap
    (sum of wasted Democrat votes - sum of wasted Republican votes) / (votes
    cast in all K districts).  Every district adds its wasted votes to the
    two running sums: a party with more than 50% of the district's total
    wastes its votes above half of the total and the other party wastes all
    of its votes.  With 60 votes against 40 out of 100 the winner wastes 10
    and the loser 40. *)
Theorem efficiency_gap_of_wasted_votes (part : Partition) (K : nat) :
  0 < K →
  (∀ i, i < K → tallied part i) →
  (∀ i, i < K → (0 < totvotes part i)%Z) →
  (∃ gap, Voting.plan_statistics part K = Ok (republican_seats part K, gap)
          ∧ (gap == efficiency_gap part K)%Q)
  ∧ (∀ i c, i < K →
       ∃ c', Voting.count_district part c i = Ok c'
         ∧ (Voting.wasted_republican c' ==
              Voting.wasted_republican c
              + wasted_republican_votes
                  (republican part i) (democrat part i) (totvotes part i))%Q
         ∧ (Voting.wasted_democrat c' ==
              Voting.wasted_democrat c
              + wasted_democrat_votes
                  (republican part i) (democrat part i) (totvotes part i))%Q)
  ∧ (∀ r d t, exceeds_half r t →
       wasted_republican_votes r d t = (inject_Z r - inject_Z t / 2)%Q
       ∧ wasted_democrat_votes r d t = inject_Z d)
  ∧ (∀ r d t, ¬ exceeds_half r t → exceeds_half d t →
       wasted_democrat_votes r d t = (inject_Z d - inject_Z t / 2)%Q
       ∧ wasted_republican_votes r d t = inject_Z r)
  ∧ (wasted_democrat_votes 40 60 100 == 10)%Q
  ∧ (wasted_republican_votes 40 60 100 == 40)%Q
  ∧ (wasted_republican_votes 60 40 100 == 10)%Q
  ∧ (wasted_democrat_votes 60 40 100 == 40)%Q.
Proof.
  intros HK Htal Hpos.
  split; [|split; [|split; [|split; [|repeat split]]]].
  - unfold Voting.plan_statistics, Voting.count_districts.
    destruct (vote_districts_positive part (range K) Voting.initial)
      as (c' & Hrun & Hs & Hd & Hr & Ht).
    { apply Forall_range. auto. }
    rewrite Hrun, bind_Ok.
    assert (0 < Voting.plan_totvotes c')%Z as Htot.
    { rewrite Ht. cbn [Voting.initial Voting.plan_totvotes].
      assert (0 < sum_Z (map (totvotes part) (range K)))%Z; [|lia].
      apply sum_Z_positive.
      - unfold range. destruct K; [lia|discriminate].
      - apply Forall_range. auto. }
    rewrite truediv_nonzero, bind_Ok by lia.
    eexists. split.
    + rewrite Hs. reflexivity.
    + unfold efficiency_gap. rewrite Hd, Hr, Ht.
      cbn [Voting.initial Voting.plan_totvotes Voting.wasted_democrat
           Voting.wasted_republican].
      rewrite !Qplus_0_l. reflexivity.
  - intros i c Hi.
    rewrite (vote_district_positive part c i (Htal i Hi) (Hpos i Hi)).
    unfold wasted_republican_votes, wasted_democrat_votes.
    destruct (decide (exceeds_half (republican part i) (totvotes part i)));
      [|destruct (decide (exceeds_half (democrat part i) (totvotes part i)))];
      eexists; (split; [reflexivity|]);
      cbn [Voting.wasted_democrat Voting.wasted_republican];
      split; ring.
  - intros r d t Hr. unfold wasted_republican_votes, wasted_democrat_votes.
    destruct (decide (exceeds_half r t)); [|contradiction]. split; reflexivity.
  - intros r d t Hr Hd. unfold wasted_republican_votes, wasted_democrat_votes.
    destruct (decide (exceeds_half r t)); [contradiction|].
    destruct (decide (exceeds_half d t)); [|contradiction]. split; reflexivity.
Qed.

Lemma two_races_tallied (i : nat) : i < 2 → tallied two_races i.
Proof.
  intros Hi. destruct i as [|[|i]]; [repeat split; vm_compute; eauto..|lia].
Qed.

Lemma efficiency_gap_of_wasted_votes_witness :
  ∃ gap, Voting.plan_statistics two_races 2 = Ok (0, gap)
         ∧ (gap == -3 # 20)%Q.
Proof.
  destruct (efficiency_gap_of_wasted_votes two_races 2)
    as [(gap & Hrun & Hgap) _].
  - lia.
  - exact two_races_tallied.
  - intros i Hi. destruct i as [|[|i]]; [vm_compute; reflexivity..|lia].
  - exists gap. split.
    + rewrite Hrun. reflexivity.
    + rewrite Hgap. vm_compute. reflexivity.
Defined.

(** ** Districts without a majority, and districts without votes *)

Lemma empty_district_tallied : tallied empty_district 0.
Proof.
  repeat split; vm_compute; eauto.
Qed.

(** C5, as stated, fails: in a district without votes neither party has
    more than 50% of the total, and the extractor raises
    [ZeroDivisionError] instead of going on to the next district. *)
Lemma tie_without_votes_raises :
  ¬ (∀ (part : Partition) (c : Voting.counters) (i : nat),
       tallied part i →
       ¬ exceeds_half (republican part i) (totvotes part i) →
       ¬ exceeds_half (democrat part i) (totvotes part i) →
       Voting.count_district part c i =
         Ok {| Voting.seats := Voting.seats c;
               Voting.wasted_democrat := Voting.wasted_democrat c;
               Voting.wasted_republican := Voting.wasted_republican c;
               Voting.plan_totvotes :=
                 (Voting.plan_totvotes c + totvotes part i)%Z |}).
Proof.
  intros Hclaim.
  specialize (Hclaim empty_district Voting.initial 0 empty_district_tallied).
  assert (Voting.count_district empty_district Voting.initial 0
          = Raise ZeroDivisionError) as Hraise by reflexivity.
  rewrite Hraise in Hclaim.
  assert (Raise ZeroDivisionError =
          Ok {| Voting.seats := 0; Voting.wasted_democrat := 0;
                Voting.wasted_republican := 0;
                Voting.plan_totvotes :=
                  (0 + totvotes empty_district 0)%Z |}) as Habs.
  { apply Hclaim; rewrite exceeds_half_Z; vm_compute; discriminate. }
  discriminate Habs.
Qed.

(** C5, amended.  In a district with a positive vote total in which neither
    party has more than 50% of the total, the extractor leaves the seat
    count and both wasted-vote sums as they were and adds the district's
    total to [plan_totvotes], the denominator of the gap. *)
Theorem tie_district_wastes_nothing
    (part : Partition) (c : Voting.counters) (i : nat) :
  tallied part i →
  (0 < totvotes part i)%Z →
  ¬ exceeds_half (republican part i) (totvotes part i) →
  ¬ exceeds_half (democrat part i) (totvotes part i) →
  Voting.count_district part c i =
    Ok {| Voting.seats := Voting.seats c;
          Voting.wasted_democrat := Voting.wasted_democrat c;
          Voting.wasted_republican := Voting.wasted_republican c;
          Voting.plan_totvotes :=
            (Voting.plan_totvotes c + totvotes part i)%Z |}.
Proof.
  intros Htal Hpos Hr Hd. rewrite vote_district_positive by assumption.
  destruct (decide (exceeds_half (republican part i) (totvotes part i)));
    [contradiction|].
  destruct (decide (exceeds_half (democrat part i) (totvotes part i)));
    [contradiction|].
  reflexivity.
Qed.

Lemma tie_district_wastes_nothing_witness :
  Voting.count_district two_races Voting.initial 1 =
    Ok {| Voting.seats := 0; Voting.wasted_democrat := 0;
          Voting.wasted_republican := 0;
          Voting.plan_totvotes := (0 + totvotes two_races 1)%Z |}.
Proof.
  apply (tie_district_wastes_nothing two_races Voting.initial 1).
  - apply two_races_tallied. lia.
  - vm_compute. reflexivity.
  - rewrite exceeds_half_Z. vm_compute. discriminate.
  - rewrite exceeds_half_Z. vm_compute. discriminate.
Defined.

(** ** Unguarded divisions *)

Lemma foldM_Ok {S A : Type} (f : S → A → result S) (l : list A) :
  Forall (fun x => ∀ s, ∃ s', f s x = Ok s') l →
  ∀ s, ∃ s', foldM f s l = Ok s'.
Proof.
  induction 1 as [|x l Hx _ IH]; intros s; cbn [foldM].
  - exists s. reflexivity.
  - destruct (Hx s) as [s' ->]. rewrite bind_Ok. apply IH.
Qed.

Lemma foldM_Raise {S A : Type} (f : S → A → result S) (e : exn) (l : list A) :
  Forall (fun x => ∀ s, (∃ s', f s x = Ok s') ∨ f s x = Raise e) l →
  Exists (fun x => ∀ s, f s x = Raise e) l →
  ∀ s, foldM f s l = Raise e.
Proof.
  induction 1 as [|x l Hx Hl IH]; intros Hex s.
  - inversion Hex.
  - cbn [foldM]. destruct (Hx s) as [[s' Hs']|Hs'].
    + rewrite Hs', bind_Ok. apply IH.
      apply Exists_cons in Hex as [Hhere|Hlater]; [|assumption].
      rewrite Hhere in Hs'. discriminate.
    + rewrite Hs'. reflexivity.
Qed.

Lemma Exists_range (P : nat → Prop) (K : nat) :
  (∃ i, i < K ∧ P i) → Exists P (range K).
Proof.
  intros (i & Hi & HP). apply Exists_exists. exists i.
  split; [apply range_lt, Hi|exact HP].
Qed.

Section Division.
Variable part : Partition.

Lemma count_district_cases (count i : nat) :
  is_Some (tally part "district_hispanic_latino_pop" !! i) →
  is_Some (tally part "district_totpop" !! i) →
  (district part "district_totpop" i ≠ 0%Z
   ∧ ∃ count', Demographic.count_district part count i = Ok count')
  ∨ (district part "district_totpop" i = 0%Z
     ∧ Demographic.count_district part count i = Raise ZeroDivisionError).
Proof.
  intros [h Hh] [t Ht]. rewrite (district_Some _ _ _ _ Ht).
  unfold Demographic.count_district.
  rewrite (getitem_Some _ _ _ Hh), bind_Ok, (getitem_Some _ _ _ Ht), bind_Ok.
  destruct (decide (t = 0%Z)) as [->|Hne].
  - right. split; reflexivity.
  - left. split; [exact Hne|].
    rewrite truediv_nonzero, bind_Ok by exact Hne. eauto.
Qed.

Lemma vote_district_cases (c : Voting.counters) (i : nat) :
  tallied part i →
  (totvotes part i ≠ 0%Z
   ∧ ∃ c', Voting.count_district part c i = Ok c')
  ∨ (totvotes part i = 0%Z
     ∧ Voting.count_district part c i = Raise ZeroDivisionError).
Proof.
  intros Htal. destruct (decide (totvotes part i = 0%Z)) as [Hz|Hne].
  { right. split; [exact Hz|]. apply vote_district_zero; assumption. }
  left. split; [exact Hne|].
  destruct Htal as ([t Ht] & [r Hr] & [d Hd]). unfold totvotes in Hne.
  rewrite (district_Some _ _ _ _ Ht) in Hne.
  unfold Voting.count_district.
  rewrite (getitem_Some _ _ _ Ht), bind_Ok, truediv_two, bind_Ok.
  rewrite (getitem_Some _ _ _ Hr), bind_Ok, (getitem_Some _ _ _ Hd), bind_Ok.
  rewrite (truediv_nonzero (inject_Z r) t), bind_Ok by exact Hne.
  destruct (gt _ _); [eauto|].
  rewrite (truediv_nonzero (inject_Z d) t), bind_Ok by exact Hne.
  destruct (gt _ _); eauto.
Qed.

End Division.

(** C8.  Both extractors divide by the district's primary tally without a
    guard.  On a partition with districts [0 .. K-1] that has the tallies
    an extractor reads (the two population tallies for the demographic
    one, the three vote tallies for the voting one): when every district's
    total population (total votes) is nonzero the loop over the districts
    finishes without an exception, and when some district's total is zero
    the extractor raises [ZeroDivisionError].  The partition
    [empty_district] is one on which both extractors fail. *)
Theorem division_needs_nonzero_totals (part : Partition) (K : nat) :
  (has_districts part "district_hispanic_latino_pop" K →
   has_districts part "district_totpop" K →
   ((∀ i, i < K → district part "district_totpop" i ≠ 0%Z) →
      ∃ count, Demographic.majmin part K = Ok count)
   ∧ ((∃ i, i < K ∧ district part "district_totpop" i = 0%Z) →
        Demographic.majmin part K = Raise ZeroDivisionError))
  ∧ ((∀ i, i < K → tallied part i) →
     ((∀ i, i < K → totvotes part i ≠ 0%Z) →
        ∃ c, Voting.count_districts part K = Ok c)
     ∧ ((∃ i, i < K ∧ totvotes part i = 0%Z) →
          Voting.count_districts part K = Raise ZeroDivisionError
          ∧ Voting.plan_statistics part K = Raise ZeroDivisionError))
  ∧ Demographic.majmin empty_district 1 = Raise ZeroDivisionError
  ∧ Voting.plan_statistics empty_district 1 = Raise ZeroDivisionError.
Proof.
  split; [|split; [|split; reflexivity]].
  - intros Hh Ht. split.
    + intros Hnz. apply foldM_Ok, Forall_range. intros i Hi count.
      destruct (count_district_cases part count i (Hh i Hi) (Ht i Hi))
        as [[_ Hok]|[Hz _]]; [exact Hok|].
      exfalso. exact (Hnz i Hi Hz).
    + intros (i & Hi & Hz). apply foldM_Raise.
      * apply Forall_range. intros j Hj count.
        destruct (count_district_cases part count j (Hh j Hj) (Ht j Hj))
          as [[_ Hok]|[_ Hraise]]; auto.
      * apply Exists_range. exists i. split; [exact Hi|]. intros count.
        destruct (count_district_cases part count i (Hh i Hi) (Ht i Hi))
          as [[Hne _]|[_ Hraise]]; [contradiction|exact Hraise].
  - intros Htal. split.
    + intros Hnz. apply foldM_Ok, Forall_range. intros i Hi c.
      destruct (vote_district_cases part c i (Htal i Hi))
        as [[_ Hok]|[Hz _]]; [exact Hok|].
      exfalso. exact (Hnz i Hi Hz).
    + intros (i & Hi & Hz).
      assert (Voting.count_districts part K = Raise ZeroDivisionError)
        as Hraise.
      { apply foldM_Raise.
        - apply Forall_range. intros j Hj c.
          destruct (vote_district_cases part c j (Htal j Hj))
            as [[_ Hok]|[_ Hraise]]; auto.
        - apply Exists_range. exists i. split; [exact Hi|]. intros c.
          apply vote_district_zero; auto. }
      split; [exact Hraise|].
      unfold Voting.plan_statistics. rewrite Hraise. reflexivity.
Qed.

Lemma division_needs_nonzero_totals_witness :
  (∃ count, Demographic.majmin two_districts 2 = Ok count)
  ∧ Demographic.majmin deserted_tract 2 = Raise ZeroDivisionError
  ∧ (∃ c, Voting.count_districts two_races 2 = Ok c)
  ∧ Voting.count_districts deserted_precinct 2 = Raise ZeroDivisionError
  ∧ Voting.plan_statistics deserted_precinct 2 = Raise ZeroDivisionError.
Proof.
  destruct (division_needs_nonzero_totals two_districts 2)
    as ([Hok _] & _).
  { intros i Hi. destruct i as [|[|i]]; [vm_compute; eauto..|lia]. }
  { intros i Hi. destruct i as [|[|i]]; [vm_compute; eauto..|lia]. }
  destruct (division_needs_nonzero_totals deserted_tract 2)
    as ([_ Hraise] & _).
  { intros i Hi. destruct i as [|[|i]]; [vm_compute; eauto..|lia]. }
  { intros i Hi. destruct i as [|[|i]]; [vm_compute; eauto..|lia]. }
  destruct (division_needs_nonzero_totals two_races 2)
    as (_ & [Hvok _] & _); [exact two_races_tallied|].
  destruct (division_needs_nonzero_totals deserted_precinct 2)
    as (_ & [_ Hvraise] & _).
  { intros i Hi.
    destruct i as [|[|i]]; [repeat split; vm_compute; eauto..|lia]. }
  split; [|split; [|split]].
  - apply Hok. intros i Hi.
    destruct i as [|[|i]]; [vm_compute; discriminate..|lia].
  - apply Hraise. exists 1. split; [lia|]. vm_compute. reflexivity.
  - apply Hvok. intros i Hi.
    destruct i as [|[|i]]; [vm_compute; discriminate..|lia].
  - apply Hvraise. exists 1. split; [lia|]. vm_compute. reflexivity.
Defined.

(** ** Cal 3 ensembles *)

Section Cal3.
Context {A : Type} (add : A → A → A).

Lemma cal3_cons x y z (norcal cal socal : list A) :
  cal3 add (x :: norcal) (y :: cal) (z :: socal)
  = add (add x y) z :: cal3 add norcal cal socal.
Proof. reflexivity. Qed.

Lemma cal3_length (norcal cal socal : list A) :
  length (cal3 add norcal cal socal)
  = Nat.min (length norcal) (Nat.min (length cal) (length socal)).
Proof.
  revert cal socal.
  induction norcal as [|x norcal IH]; intros [|y cal] [|z socal];
    try (rewrite cal3_cons; cbn [length]; rewrite IH); cbn; lia.
Qed.

Lemma cal3_lookup (norcal cal socal : list A) (i : nat) :
  cal3 add norcal cal socal !! i =
    match norcal !! i, cal !! i, socal !! i with
    | Some x, Some y, Some z => Some (add (add x y) z)
    | _, _, _ => None
    end.
Proof.
  revert cal socal i.
  induction norcal as [|x norcal IH]; intros cal socal i; [reflexivity|].
  destruct cal as [|y cal].
  { cbn. destruct ((x :: norcal) !! i); reflexivity. }
  destruct socal as [|z socal].
  { cbn. destruct ((x :: norcal) !! i), ((y :: cal) !! i); reflexivity. }
  rewrite cal3_cons. destruct i as [|i]; [reflexivity|].
  cbn [lookup list_lookup]. apply IH.
Qed.

End Cal3.

(** C6.  For three regional sequences of the same length [n], the Cal 3
    ensemble has length [n] and its [i]-th element is the sum
    [norcal + cal + socal] of the three [i]-th elements, for every index
    [i < n]. *)
Theorem cal3_sums_by_step {A : Type} (add : A → A → A)
    (norcal cal socal : list A) (n : nat) :
  length norcal = n → length cal = n → length socal = n →
  length (cal3 add norcal cal socal) = n
  ∧ ∀ i, i < n →
      ∃ x y z, norcal !! i = Some x ∧ cal !! i = Some y ∧ socal !! i = Some z
               ∧ cal3 add norcal cal socal !! i = Some (add (add x y) z).
Proof.
  intros Hn Hc Hs. split.
  - rewrite cal3_length. lia.
  - intros i Hi.
    destruct (lookup_lt_is_Some_2 norcal i) as [x Hx]; [lia|].
    destruct (lookup_lt_is_Some_2 cal i) as [y Hy]; [lia|].
    destruct (lookup_lt_is_Some_2 socal i) as [z Hz]; [lia|].
    exists x, y, z. rewrite cal3_lookup, Hx, Hy, Hz. auto.
Qed.

Lemma cal3_sums_by_step_witness :
  cal3 Nat.add [10; 20] [1; 2] [100; 200] = [111; 222]
  ∧ length (cal3 Nat.add [10; 20] [1; 2] [100; 200]) = 2.
Proof.
  split; [reflexivity|].
  apply (cal3_sums_by_step Nat.add [10; 20] [1; 2] [100; 200] 2);
    reflexivity.
Defined.

(** C9.  Whatever the three lengths, the Cal 3 ensemble has the length of
    the shortest regional sequence: it is the ensemble of the three
    sequences cut to that length, and no error is signalled. *)
Theorem cal3_truncates_to_shortest {A : Type} (add : A → A → A)
    (norcal cal socal : list A) :
  let n := Nat.min (length norcal) (Nat.min (length cal) (length socal)) in
  length (cal3 add norcal cal socal) = n
  ∧ cal3 add norcal cal socal
    = cal3 add (take n norcal) (take n cal) (take n socal).
Proof.
  cbv zeta. split; [apply cal3_length|].
  apply list_eq. intros i. rewrite !cal3_lookup.
  set (n := Nat.min (length norcal) (Nat.min (length cal) (length socal))).
  destruct (decide (i < n)) as [Hi|Hi].
  - rewrite !lookup_take_lt by exact Hi. reflexivity.
  - rewrite !lookup_take_ge by lia.
    destruct (norcal !! i) eqn:Hx, (cal !! i) eqn:Hy, (socal !! i) eqn:Hz;
      try reflexivity.
    apply lookup_lt_Some in Hx, Hy, Hz. subst n. lia.
Qed.

(** ** Seat allocation *)

(** [round] returns an integer nearest to its argument. *)
Lemma round_nearest (x : Q) :
  (inject_Z (round x) - (1 # 2) <= x)%Q
  ∧ (x <= inject_Z (round x) + (1 # 2))%Q.
Proof.
  pose proof (Qfloor_le x) as Hlo. pose proof (Qlt_floor x) as Hhi.
  rewrite inject_Z_plus in Hhi. change (inject_Z 1) with 1%Q in Hhi.
  unfold round. set (f := Qfloor x) in *.
  destruct (gt (1 # 2) (x - inject_Z f)) eqn:Hlt.
  { apply gt_true in Hlt. split; lra. }
  apply gt_false in Hlt.
  destruct (gt (x - inject_Z f) (1 # 2)) eqn:Hgt.
  { apply gt_true in Hgt. rewrite inject_Z_plus.
    change (inject_Z 1) with 1%Q. split; lra. }
  apply gt_false in Hgt.
  destruct (Z.even f); rewrite ?inject_Z_plus;
    change (inject_Z 1) with 1%Q; split; lra.
Qed.

(** Half-way between two integers [round] returns the even one. *)
Lemma round_half_even (x : Q) :
  (x - inject_Z (round x) == 1 # 2)%Q ∨ (inject_Z (round x) - x == 1 # 2)%Q →
  Z.even (round x) = true.
Proof.
  pose proof (Qfloor_le x) as Hlo. pose proof (Qlt_floor x) as Hhi.
  rewrite inject_Z_plus in Hhi. change (inject_Z 1) with 1%Q in Hhi.
  unfold round. set (f := Qfloor x) in *.
  destruct (gt (1 # 2) (x - inject_Z f)) eqn:Hlt.
  { apply gt_true in Hlt. intros [H|H]; lra. }
  apply gt_false in Hlt.
  destruct (gt (x - inject_Z f) (1 # 2)) eqn:Hgt.
  { apply gt_true in Hgt. rewrite inject_Z_plus.
    change (inject_Z 1) with 1%Q. intros [H|H]; lra. }
  intros _. destruct (Z.even f) eqn:Hf; [exact Hf|].
  rewrite Z.even_add, Hf. reflexivity.
Qed.

Lemma round_between (x : Q) (lo hi : Z) :
  (inject_Z lo <= x)%Q → (x <= inject_Z hi)%Q → (lo ≤ round x ≤ hi)%Z.
Proof.
  intros Hlo Hhi. destruct (round_nearest x) as [Hdown Hup].
  assert (inject_Z lo < inject_Z (round x) + 1)%Q as H1 by lra.
  assert (inject_Z (round x) < inject_Z hi + 1)%Q as H2 by lra.
  change 1%Q with (inject_Z 1) in H1, H2.
  rewrite <- inject_Z_plus, <- Zlt_Qlt in H1, H2. lia.
Qed.

Lemma round_nonneg (x : Q) : (0 <= x)%Q → (0 ≤ round x)%Z.
Proof.
  intros Hx. destruct (round_nearest x) as [_ Hup].
  assert (inject_Z (-1) < inject_Z (round x))%Q as Hlt.
  { change (inject_Z (-1)) with (-1)%Q. lra. }
  rewrite <- Zlt_Qlt in Hlt. lia.
Qed.

(** *** Doubles *)

Lemma pow2_pos (e : Z) : (0 < 2 ^ e)%Q.
Proof. apply Qpower_0_lt. reflexivity. Qed.

Lemma pow2_plus (a b : Z) : (2 ^ (a + b) == 2 ^ a * 2 ^ b)%Q.
Proof. apply Qpower_plus. discriminate. Qed.

Lemma pow2_le (a b : Z) : (a ≤ b)%Z → (2 ^ a <= 2 ^ b)%Q.
Proof. intros H. apply Qpower_le_compat_l; [exact H|]. discriminate. Qed.

Lemma pow2_lt_inv (a b : Z) : (2 ^ a < 2 ^ b)%Q → (a < b)%Z.
Proof. intros H. apply (Qpower_lt_compat_l_inv 2); [exact H|reflexivity]. Qed.

Lemma pow2_int (n : Z) : (0 ≤ n)%Z → (2 ^ n == inject_Z (2 ^ n))%Q.
Proof. intros H. rewrite (Zpower_Qpower 2 n H). reflexivity. Qed.

Lemma pow2_succ (a : Z) : (2 ^ (a + 1) == 2 * 2 ^ a)%Q.
Proof. rewrite pow2_plus. change (2 ^ 1)%Q with 2%Q. ring. Qed.

Lemma pow2_pred (a : Z) : (2 ^ (a - 1) == 2 ^ a / 2)%Q.
Proof.
  replace a with ((a - 1) + 1)%Z at 2 by lia. rewrite pow2_succ.
  field.
Qed.

Lemma pow2_minus (a b : Z) : (2 ^ (a - b) == 2 ^ a / 2 ^ b)%Q.
Proof. apply Qpower_minus. discriminate. Qed.

(** [ilog2 x] is the exponent of the power of two at or below [x]. *)
Lemma ilog2_spec (x : Q) :
  (0 < x)%Q → (2 ^ ilog2 x <= x)%Q ∧ (x < 2 ^ (ilog2 x + 1))%Q.
Proof.
  intros Hpos. unfold ilog2. destruct x as [n d].
  assert (0 < n)%Z as Hn by (unfold Qlt in Hpos; cbn in Hpos; lia).
  cbn [Qnum Qden].
  set (a := Z.log2 n). set (b := Z.log2 (Z.pos d)).
  destruct (Z.log2_spec n Hn) as [Ha1 Ha2]. fold a in Ha1, Ha2.
  destruct (Z.log2_spec (Z.pos d) eq_refl) as [Hb1 Hb2]. fold b in Hb1, Hb2.
  assert (0 ≤ a)%Z as Ha0 by apply Z.log2_nonneg.
  assert (0 ≤ b)%Z as Hb0 by apply Z.log2_nonneg.
  rewrite Zle_Qle, <- pow2_int in Ha1, Hb1 by assumption.
  rewrite Zlt_Qlt, <- pow2_int in Ha2, Hb2 by lia.
  unfold Z.succ in Ha2, Hb2. rewrite pow2_succ in Ha2, Hb2.
  pose proof (pow2_pos a) as HA. pose proof (pow2_pos b) as HB.
  assert (0 < inject_Z (Z.pos d))%Q as HD by reflexivity.
  assert (n # d == inject_Z n / inject_Z (Z.pos d))%Q as Hx
    by apply Qmake_Qdiv.
  set (N := inject_Z n) in *. set (D := inject_Z (Z.pos d)) in *.
  destruct (Qle_bool (2 ^ (a - b)) (n # d)) eqn:Hcmp.
  - apply Qle_bool_iff in Hcmp. split; [exact Hcmp|].
    rewrite Hx, pow2_succ, pow2_minus.
    apply Qlt_shift_div_r; [exact HD|].
    assert (2 * (2 ^ a / 2 ^ b) * D == (2 * 2 ^ a) * (D / 2 ^ b))%Q as ->
      by (field; lra).
    assert (1 <= D / 2 ^ b)%Q
      by (apply Qle_shift_div_l; [exact HB|lra]).
    nra.
  - assert (n # d < 2 ^ (a - b))%Q as Hlt.
    { apply Qnot_le_lt. intros Hle. apply Qle_bool_iff in Hle. congruence. }
    split.
    + rewrite Hx, pow2_pred, pow2_minus.
      apply Qle_shift_div_l; [exact HD|].
      assert (2 ^ a / 2 ^ b / 2 * D == 2 ^ a * (D / (2 * 2 ^ b)))%Q as ->
        by (field; lra).
      assert (D / (2 * 2 ^ b) <= 1)%Q
        by (apply Qle_shift_div_r; lra).
      nra.
    + replace (a - b - 1 + 1)%Z with (a - b)%Z by lia. exact Hlt.
Qed.

Lemma ulp_exponent_ge (x : Q) : (-1074 ≤ ulp_exponent x)%Z.
Proof. unfold ulp_exponent. lia. Qed.

Lemma ulp_exponent_le (x : Q) (E : Z) :
  ¬ (x == 0)%Q → (Qabs x < 2 ^ (E + 53))%Q → (-1074 ≤ E)%Z →
  (ulp_exponent x ≤ E)%Z.
Proof.
  intros Hnz Hlt HE. unfold ulp_exponent.
  assert (0 < Qabs x)%Q as Hpos.
  { destruct (Qlt_le_dec x 0) as [Hneg|Hnn].
    - rewrite Qabs_neg by lra. lra.
    - rewrite Qabs_pos by exact Hnn.
      apply Qle_lteq in Hnn as [Hnn|Hnn]; [exact Hnn|].
      exfalso. apply Hnz. symmetry. exact Hnn. }
  destruct (ilog2_spec (Qabs x) Hpos) as [Hlo _].
  assert (2 ^ ilog2 (Qabs x) < 2 ^ (E + 53))%Q as H by lra.
  apply pow2_lt_inv in H. lia.
Qed.

Lemma binary64_zero (x : Q) : (x == 0)%Q → binary64 x = Ok 0%Q.
Proof.
  intros Hx. unfold binary64. apply Qeq_bool_iff in Hx. rewrite Hx.
  reflexivity.
Qed.

(** Rounding a number between 0 and an integer [k] which the doubles with
    last bit [2 ^ E] reach: the double is in the same range and at most
    half a last bit away. *)
Lemma binary64_between (x : Q) (k E : Z) :
  (0 <= x)%Q → (x <= inject_Z k)%Q → (inject_Z k < 2 ^ (E + 53))%Q →
  (-1074 ≤ E ≤ 0)%Z →
  ∃ y, binary64 x = Ok y ∧ (0 <= y)%Q ∧ (y <= inject_Z k)%Q
       ∧ (x - 2 ^ (E - 1) <= y)%Q ∧ (y <= x + 2 ^ (E - 1))%Q.
Proof.
  intros H0 Hk HkE HE. pose proof (pow2_pos (E - 1)) as Hhalf.
  destruct (Qeq_bool x 0) eqn:Hz.
  { apply Qeq_bool_iff in Hz. exists 0%Q. rewrite (binary64_zero x Hz).
    repeat split; lra. }
  assert (¬ (x == 0)%Q) as Hnz.
  { intros Heq. apply Qeq_bool_iff in Heq. congruence. }
  unfold binary64. rewrite Hz. cbv zeta.
  assert (ulp_exponent x ≤ E)%Z as He.
  { apply ulp_exponent_le; [exact Hnz| |lia]. rewrite Qabs_pos by exact H0.
    lra. }
  pose proof (ulp_exponent_ge x) as He'.
  set (e := ulp_exponent x) in *.
  pose proof (pow2_pos e) as Hs.
  assert (2 ^ e * 2 ^ (- e) == 1)%Q as Hinv.
  { rewrite <- pow2_plus. replace (e + - e)%Z with 0%Z by lia. reflexivity. }
  assert (2 ^ (- e) == inject_Z (2 ^ (- e)))%Q as Hint
    by (apply pow2_int; lia).
  pose proof (pow2_pos (- e)) as Hs'.
  assert (x / 2 ^ e == x * 2 ^ (- e))%Q as Hdiv.
  { rewrite Qpower_opp. reflexivity. }
  destruct (round_between (x / 2 ^ e) 0 (k * 2 ^ (- e))) as [Hm0 Hmk].
  { change (inject_Z 0) with 0%Q. rewrite Hdiv. nra. }
  { rewrite inject_Z_mult, <- Hint, Hdiv. nra. }
  destruct (round_nearest (x / 2 ^ e)) as [Hdown Hup].
  set (m := round (x / 2 ^ e)) in *.
  rewrite Zle_Qle in Hm0, Hmk. rewrite inject_Z_mult, <- Hint in Hmk.
  change (inject_Z 0) with 0%Q in Hm0.
  assert (2 ^ (e - 1) <= 2 ^ (E - 1))%Q as Hulp by (apply pow2_le; lia).
  assert (2 ^ (e - 1) == 2 ^ e / 2)%Q as Hpred by apply pow2_pred.
  assert (x == x / 2 ^ e * 2 ^ e)%Q as Hx by (field; lra).
  set (q := (x / 2 ^ e)%Q) in *.
  assert (0 <= inject_Z m * 2 ^ e)%Q as Hy0 by nra.
  assert (inject_Z m * 2 ^ e <= inject_Z k)%Q as Hyk.
  { assert (inject_Z m * 2 ^ e <= inject_Z k * 2 ^ (- e) * 2 ^ e)%Q by nra.
    assert (inject_Z k * 2 ^ (- e) * 2 ^ e == inject_Z k)%Q as Heq
      by (rewrite <- Qmult_assoc, (Qmult_comm (2 ^ (- e))), Hinv; ring).
    rewrite Heq in H. exact H. }
  assert (Qle_bool (2 ^ 1024) (Qabs (inject_Z m * 2 ^ e)) = false) as ->.
  { destruct (Qle_bool _ _) eqn:Hov; [|reflexivity].
    apply Qle_bool_iff in Hov. rewrite Qabs_pos in Hov by exact Hy0.
    assert (2 ^ (E + 53) <= 2 ^ 1024)%Q by (apply pow2_le; lia). lra. }
  eexists. split; [reflexivity|].
  split; [exact Hy0|]. split; [exact Hyk|].
  unfold Qdiv in Hpred. change (/ 2)%Q with (1 # 2)%Q in Hpred.
  split; nra.
Qed.

Lemma binary64_nonneg (x y : Q) :
  (0 <= x)%Q → binary64 x = Ok y → (0 <= y)%Q.
Proof.
  intros H0. unfold binary64. destruct (Qeq_bool x 0); [intros [= <-]; lra|].
  cbv zeta. destruct (Qle_bool _ _); [discriminate|]. intros [= <-].
  pose proof (pow2_pos (ulp_exponent x)) as Hs.
  assert (0 <= x / 2 ^ ulp_exponent x)%Q as Hq
    by (apply Qle_shift_div_l; [exact Hs|lra]).
  apply round_nonneg in Hq. rewrite Zle_Qle in Hq.
  change (inject_Z 0) with 0%Q in Hq. nra.
Qed.

Lemma Qabs_zero (x : Q) : (x == 0)%Q → (Qabs x == 0)%Q.
Proof. intros ->. reflexivity. Qed.

(** [binary64] rounds to the nearest double, ties to the even
    significand. *)
Lemma binary64_nearest (x y : Q) :
  binary64 x = Ok y → nearest_double x y.
Proof.
  unfold binary64. destruct (Qeq_bool x 0) eqn:Hz.
  { apply Qeq_bool_iff in Hz. intros [= <-]. exists 0%Z, (-1074)%Z.
    pose proof (pow2_pos (-1074)) as Hs.
    pose proof (pow2_pos (-1074 + 53)) as Hs'.
    pose proof (pow2_pos 1024) as Ht.
    assert (0 - x == 0)%Q as Hd by (rewrite Hz; reflexivity).
    rewrite (Qabs_zero _ Hz), (Qabs_zero _ Hd).
    split; [ring|]. split; [lia|]. split; [exact Hs'|].
    split; [left; reflexivity|].
    unfold Qdiv. change (/ 2)%Q with (1 # 2)%Q.
    split; [lra|]. split; [intros Htie; lra|exact Ht]. }
  assert (¬ (x == 0)%Q) as Hnz.
  { intros Heq. apply Qeq_bool_iff in Heq. congruence. }
  cbv zeta. destruct (Qle_bool (2 ^ 1024) _) eqn:Hov; [discriminate|].
  intros [= <-].
  assert (0 < Qabs x)%Q as Hpos.
  { destruct (Qlt_le_dec x 0) as [Hneg|Hnn].
    - rewrite Qabs_neg by lra. lra.
    - rewrite Qabs_pos by exact Hnn.
      apply Qle_lteq in Hnn as [Hnn|Hnn]; [exact Hnn|].
      exfalso. apply Hnz. symmetry. exact Hnn. }
  destruct (ilog2_spec (Qabs x) Hpos) as [Hlo Hhi].
  pose proof (ulp_exponent_ge x) as Hge.
  assert (ilog2 (Qabs x) - 52 ≤ ulp_exponent x)%Z as Hle
    by (unfold ulp_exponent; lia).
  assert (ulp_exponent x = (-1074)%Z
          ∨ ulp_exponent x = (ilog2 (Qabs x) - 52)%Z) as Hcase
    by (unfold ulp_exponent; lia).
  set (e := ulp_exponent x) in *.
  pose proof (pow2_pos e) as Hs.
  destruct (round_nearest (x / 2 ^ e)) as [Hdown Hup].
  pose proof (round_half_even (x / 2 ^ e)) as Heven.
  set (m := round (x / 2 ^ e)) in *.
  assert (x == x / 2 ^ e * 2 ^ e)%Q as Hx by (field; lra).
  set (q := (x / 2 ^ e)%Q) in *.
  assert (inject_Z m * 2 ^ e - x == (inject_Z m - q) * 2 ^ e)%Q as Hdiff
    by (rewrite Hx at 1; ring).
  exists m, e. split; [reflexivity|]. split; [exact Hge|].
  split; [|split; [|split; [|split]]].
  - assert (2 ^ (ilog2 (Qabs x) + 1) <= 2 ^ (e + 53))%Q
      by (apply pow2_le; lia).
    lra.
  - destruct Hcase as [Hc|Hc]; [left; exact Hc|right].
    replace (e + 52)%Z with (ilog2 (Qabs x)) by lia. exact Hlo.
  - rewrite Hdiff. apply Qabs_Qle_condition.
    unfold Qdiv. change (/ 2)%Q with (1 # 2)%Q. split; nra.
  - intros Htie. apply Heven. rewrite Hdiff in Htie.
    unfold Qdiv in Htie. change (/ 2)%Q with (1 # 2)%Q in Htie.
    destruct (Qlt_le_dec ((inject_Z m - q) * 2 ^ e) 0) as [Hneg|Hnn].
    + rewrite Qabs_neg in Htie by lra. left.
      assert ((q - inject_Z m) * 2 ^ e == (1 # 2) * 2 ^ e)%Q as Heq by lra.
      apply Qmult_inj_r in Heq; [exact Heq|lra].
    + rewrite Qabs_pos in Htie by exact Hnn. right.
      assert ((inject_Z m - q) * 2 ^ e == (1 # 2) * 2 ^ e)%Q as Heq by lra.
      apply Qmult_inj_r in Heq; [exact Heq|lra].
  - apply Qnot_le_lt. intros Hle'. apply Qle_bool_iff in Hle'. congruence.
Qed.

(** *** The seats of a region *)

(** What [regional_seats] computed when it returned. *)
Lemma regional_seats_Ok (totpop totpop_california seats : Z) :
  regional_seats totpop totpop_california = Ok seats →
  totpop_california ≠ 0%Z
  ∧ ∃ share product,
      binary64 (inject_Z totpop / inject_Z totpop_california) = Ok share
      ∧ binary64 (inject_Z 52 * share) = Ok product
      ∧ seats = round product.
Proof.
  unfold regional_seats, int_truediv, float_mul.
  destruct (decide (totpop_california = 0%Z)) as [|Hnz]; [discriminate|].
  destruct (binary64 (inject_Z totpop / inject_Z totpop_california))
    as [share| |] eqn:Hshare; [|discriminate..].
  rewrite bind_Ok.
  destruct (binary64 (inject_Z num_districts_california * share))
    as [product| |] eqn:Hproduct; [|discriminate..].
  rewrite bind_Ok. intros [= <-]. split; [exact Hnz|]. eauto.
Qed.

Lemma share_in_unit (totpop totpop_california : Z) :
  (0 ≤ totpop ≤ totpop_california)%Z → (0 < totpop_california)%Z →
  (0 <= inject_Z totpop / inject_Z totpop_california)%Q
  ∧ (inject_Z totpop / inject_Z totpop_california <= 1)%Q.
Proof.
  intros [H0 Hle] Hpos.
  rewrite Zle_Qle in H0, Hle. rewrite Zlt_Qlt in Hpos.
  change (inject_Z 0) with 0%Q in *. split.
  - apply Qle_shift_div_l; [exact Hpos|]. lra.
  - apply Qle_shift_div_r; [exact Hpos|]. lra.
Qed.

(** The seats of a region that has part of California's total: the float
    product is between 0 and 52 and differs from the exact
    [52 * totpop / totpop_california] by less than a millionth. *)
Lemma regional_seats_product (totpop totpop_california : Z) :
  (0 ≤ totpop ≤ totpop_california)%Z → (0 < totpop_california)%Z →
  ∃ product,
    regional_seats totpop totpop_california = Ok (round product)
    ∧ (0 <= product)%Q ∧ (product <= 52)%Q
    ∧ (inject_Z 52 * (inject_Z totpop / inject_Z totpop_california)
       - (1 # 1000000) <= product)%Q
    ∧ (product
       <= inject_Z 52 * (inject_Z totpop / inject_Z totpop_california)
          + (1 # 1000000))%Q.
Proof.
  intros Hrange Hpos.
  destruct (share_in_unit totpop totpop_california Hrange Hpos) as [Hs0 Hs1].
  set (exact := (inject_Z totpop / inject_Z totpop_california)%Q) in *.
  destruct (binary64_between exact 1 (-52)) as (share & Hshare & Hq0 & Hq1
                                                & Hqlo & Hqhi);
    [exact Hs0|exact Hs1|reflexivity|lia|].
  change (inject_Z 1) with 1%Q in Hq1.
  destruct (binary64_between (inject_Z 52 * share) 52 (-47))
    as (product & Hproduct & Hp0 & Hp52 & Hplo & Hphi);
    [change (inject_Z 52) with 52%Q; lra
    |change (inject_Z 52) with 52%Q; lra|reflexivity|lia|].
  exists product. split.
  - unfold regional_seats, int_truediv, float_mul.
    destruct (decide (totpop_california = 0%Z)) as [|_]; [lia|].
    fold exact. rewrite Hshare, bind_Ok.
    unfold num_districts_california. rewrite Hproduct. reflexivity.
  - assert (2 ^ (-52 - 1) <= 1 # 1000000000)%Q as He1 by (vm_compute; discriminate).
    assert (2 ^ (-47 - 1) <= 1 # 1000000000)%Q as He2 by (vm_compute; discriminate).
    change (inject_Z 52) with 52%Q in *.
    repeat split; lra.
Qed.

Lemma regional_seats_nonnegative (totpop totpop_california seats : Z) :
  (0 ≤ totpop)%Z → (0 ≤ totpop_california)%Z →
  regional_seats totpop totpop_california = Ok seats → (0 ≤ seats)%Z.
Proof.
  intros Hpop Hcal Hrun.
  apply regional_seats_Ok in Hrun
    as (Hnz & share & product & Hshare & Hproduct & ->).
  assert (0 <= inject_Z totpop / inject_Z totpop_california)%Q as Hexact.
  { rewrite Zle_Qle in Hpop.
    assert (0 < totpop_california)%Z as Hpos by lia.
    rewrite Zlt_Qlt in Hpos. change (inject_Z 0) with 0%Q in *.
    apply Qle_shift_div_l; [exact Hpos|]. lra. }
  apply binary64_nonneg in Hshare; [|exact Hexact].
  apply binary64_nonneg in Hproduct;
    [|change (inject_Z 52) with 52%Q; lra].
  apply round_nonneg, Hproduct.
Qed.

(** The seat check once the three numbers are there. *)
Lemma demographic_seats_checked (totpop_california totpop_norcal totpop_cal
    totpop_socal norcal cal socal : Z) :
  regional_seats totpop_norcal totpop_california = Ok norcal →
  regional_seats totpop_cal totpop_california = Ok cal →
  regional_seats totpop_socal totpop_california = Ok socal →
  demographic_seats totpop_california totpop_norcal totpop_cal totpop_socal
  = if decide ((norcal + cal + socal)%Z ≠ 52%Z)
    then Raise (Exception seats_message)
    else Ok (norcal, cal, socal).
Proof.
  intros Hn Hc Hs. unfold demographic_seats.
  rewrite Hn, Hc, Hs, !bind_Ok. reflexivity.
Qed.

(** The message of the voting generator's seat check, lines 557-560. *)
Lemma voting_seats_checked (totpop_california totpop_norcal totpop_cal
    totpop_socal norcal cal socal : Z) :
  regional_seats totpop_norcal totpop_california = Ok norcal →
  regional_seats totpop_cal totpop_california = Ok cal →
  regional_seats totpop_socal totpop_california = Ok socal →
  voting_seats totpop_california totpop_norcal totpop_cal totpop_socal
  = if decide ((norcal + (cal + 1) + socal)%Z ≠ 52%Z)
    then Raise (Exception
      (seats_message ++ nl ++ tab
       ++ "            NorCal: " ++ pretty norcal ++ nl ++ tab
       ++ "                Cal: " ++ pretty (cal + 1)%Z ++ nl ++ tab
       ++ "                    SoCal: " ++ pretty socal))
    else Ok (norcal, (cal + 1)%Z, socal).
Proof.
  intros Hn Hc Hs. unfold voting_seats.
  rewrite Hn, Hc, Hs, !bind_Ok. reflexivity.
Qed.

Section Lifted.
Context `{GerryChain}.

Lemma bind_lift_Ok {A B : Type} (a : A) (f : A → M B) (r : RNG) :
  (lift (Ok a) ≫= f) r = f a r.
Proof. reflexivity. Qed.

Lemma bind_lift_Raise {A B : Type} (e : exn) (f : A → M B) (r : RNG) :
  (lift (Raise e : result A) ≫= f) r = Raise e.
Proof. reflexivity. Qed.

(** An exception of the seat check is the generator's outcome: nothing
    that draws from the generator or builds a partition runs before it. *)
Lemma demographic_seats_first (fuel steps : nat)
    (graph_california graph_norcal graph_cal graph_socal : Graph)
    (totpop_california totpop_norcal totpop_cal totpop_socal : Z)
    (e : exn) (r : RNG) :
  total graph_california "total_pop" = Ok totpop_california →
  total graph_norcal "total_pop" = Ok totpop_norcal →
  total graph_cal "total_pop" = Ok totpop_cal →
  total graph_socal "total_pop" = Ok totpop_socal →
  demographic_seats totpop_california totpop_norcal totpop_cal totpop_socal
    = Raise e →
  make_demographic_ensembles fuel steps
    graph_california graph_norcal graph_cal graph_socal r = Raise e.
Proof.
  intros H1 H2 H3 H4 Hseats. unfold make_demographic_ensembles.
  rewrite H1, bind_lift_Ok, H2, bind_lift_Ok, H3, bind_lift_Ok,
    H4, bind_lift_Ok.
  rewrite truediv_nonzero, bind_lift_Ok by discriminate.
  rewrite Hseats. apply bind_lift_Raise.
Qed.

Lemma voting_seats_first (fuel steps : nat)
    (graph_california graph_norcal graph_cal graph_socal : Graph)
    (totpop_california totpop_norcal totpop_cal totpop_socal : Z)
    (e : exn) (r : RNG) :
  total graph_california "total_votes" = Ok totpop_california →
  total graph_norcal "total_votes" = Ok totpop_norcal →
  total graph_cal "total_votes" = Ok totpop_cal →
  total graph_socal "total_votes" = Ok totpop_socal →
  voting_seats totpop_california totpop_norcal totpop_cal totpop_socal
    = Raise e →
  make_voting_ensembles fuel steps
    graph_california graph_norcal graph_cal graph_socal r = Raise e.
Proof.
  intros H1 H2 H3 H4 Hseats. unfold make_voting_ensembles.
  rewrite H1, bind_lift_Ok, H2, bind_lift_Ok, H3, bind_lift_Ok,
    H4, bind_lift_Ok.
  rewrite truediv_nonzero, bind_lift_Ok by discriminate.
  rewrite Hseats. apply bind_lift_Raise.
Qed.

(** The ideal population of a region without seats. *)
Lemma idealpop_fails (totpop_n totpop_c totpop_s n c s : Z)
    {A : Type} (k : Q → Q → Q → M A) (r : RNG) :
  n = 0%Z ∨ c = 0%Z ∨ s = 0%Z →
  (idealpop_norcal ← lift (truediv (inject_Z totpop_n) (inject_Z n));
   idealpop_cal ← lift (truediv (inject_Z totpop_c) (inject_Z c));
   idealpop_socal ← lift (truediv (inject_Z totpop_s) (inject_Z s));
   k idealpop_norcal idealpop_cal idealpop_socal) r
  = Raise ZeroDivisionError.
Proof.
  intros Hzero.
  destruct (decide (n = 0%Z)) as [->|Hn]; [reflexivity|].
  rewrite (truediv_nonzero _ n Hn), bind_lift_Ok.
  destruct (decide (c = 0%Z)) as [->|Hc]; [reflexivity|].
  rewrite (truediv_nonzero _ c Hc), bind_lift_Ok.
  destruct (decide (s = 0%Z)) as [->|Hs]; [reflexivity|].
  lia.
Qed.

Lemma demographic_without_seats (fuel steps : nat)
    (graph_california graph_norcal graph_cal graph_socal : Graph)
    (totpop_california totpop_norcal totpop_cal totpop_socal n c s : Z)
    (r : RNG) :
  total graph_california "total_pop" = Ok totpop_california →
  total graph_norcal "total_pop" = Ok totpop_norcal →
  total graph_cal "total_pop" = Ok totpop_cal →
  total graph_socal "total_pop" = Ok totpop_socal →
  demographic_seats totpop_california totpop_norcal totpop_cal totpop_socal
    = Ok (n, c, s) →
  n = 0%Z ∨ c = 0%Z ∨ s = 0%Z →
  make_demographic_ensembles fuel steps
    graph_california graph_norcal graph_cal graph_socal r
  = Raise ZeroDivisionError.
Proof.
  intros H1 H2 H3 H4 Hseats Hzero. unfold make_demographic_ensembles.
  rewrite H1, bind_lift_Ok, H2, bind_lift_Ok, H3, bind_lift_Ok,
    H4, bind_lift_Ok.
  rewrite truediv_nonzero, bind_lift_Ok by discriminate.
  rewrite Hseats, bind_lift_Ok. cbv beta iota.
  apply (idealpop_fails totpop_norcal totpop_cal totpop_socal n c s).
  exact Hzero.
Qed.

Lemma voting_without_seats (fuel steps : nat)
    (graph_california graph_norcal graph_cal graph_socal : Graph)
    (totpop_california totpop_norcal totpop_cal totpop_socal n c s : Z)
    (r : RNG) :
  total graph_california "total_votes" = Ok totpop_california →
  total graph_norcal "total_votes" = Ok totpop_norcal →
  total graph_cal "total_votes" = Ok totpop_cal →
  total graph_socal "total_votes" = Ok totpop_socal →
  voting_seats totpop_california totpop_norcal totpop_cal totpop_socal
    = Ok (n, c, s) →
  n = 0%Z ∨ c = 0%Z ∨ s = 0%Z →
  make_voting_ensembles fuel steps
    graph_california graph_norcal graph_cal graph_socal r
  = Raise ZeroDivisionError.
Proof.
  intros H1 H2 H3 H4 Hseats Hzero. unfold make_voting_ensembles.
  rewrite H1, bind_lift_Ok, H2, bind_lift_Ok, H3, bind_lift_Ok,
    H4, bind_lift_Ok.
  rewrite truediv_nonzero, bind_lift_Ok by discriminate.
  rewrite Hseats, bind_lift_Ok. cbv beta iota.
  apply (idealpop_fails totpop_norcal totpop_cal totpop_socal n c s).
  exact Hzero.
Qed.

End Lifted.

(** With all three regions seated the first thing that can fail is the
    tree partitioner. *)
Lemma demographic_reaches_partitions (e : exn) (fuel steps : nat)
    (graph_california graph_norcal graph_cal graph_socal : Graph)
    (totpop_california totpop_norcal totpop_cal totpop_socal n c s : Z)
    (r : RNG (GerryChain := failing e)) :
  total graph_california "total_pop" = Ok totpop_california →
  total graph_norcal "total_pop" = Ok totpop_norcal →
  total graph_cal "total_pop" = Ok totpop_cal →
  total graph_socal "total_pop" = Ok totpop_socal →
  demographic_seats totpop_california totpop_norcal totpop_cal totpop_socal
    = Ok (n, c, s) →
  n ≠ 0%Z → c ≠ 0%Z → s ≠ 0%Z →
  make_demographic_ensembles (H := failing e) fuel steps
    graph_california graph_norcal graph_cal graph_socal r
  = Raise e.
Proof.
  intros H1 H2 H3 H4 Hseats Hn Hc Hs. unfold make_demographic_ensembles.
  rewrite H1, bind_lift_Ok, H2, bind_lift_Ok, H3, bind_lift_Ok,
    H4, bind_lift_Ok.
  rewrite truediv_nonzero, bind_lift_Ok by discriminate.
  rewrite Hseats, bind_lift_Ok. cbv beta iota.
  rewrite (truediv_nonzero _ n Hn), bind_lift_Ok.
  rewrite (truediv_nonzero _ c Hc), bind_lift_Ok.
  rewrite (truediv_nonzero _ s Hs), bind_lift_Ok.
  reflexivity.
Qed.

Lemma voting_reaches_partitions (e : exn) (fuel steps : nat)
    (graph_california graph_norcal graph_cal graph_socal : Graph)
    (totpop_california totpop_norcal totpop_cal totpop_socal n c s : Z)
    (r : RNG (GerryChain := failing e)) :
  total graph_california "total_votes" = Ok totpop_california →
  total graph_norcal "total_votes" = Ok totpop_norcal →
  total graph_cal "total_votes" = Ok totpop_cal →
  total graph_socal "total_votes" = Ok totpop_socal →
  voting_seats totpop_california totpop_norcal totpop_cal totpop_socal
    = Ok (n, c, s) →
  n ≠ 0%Z → c ≠ 0%Z → s ≠ 0%Z →
  make_voting_ensembles (H := failing e) fuel steps
    graph_california graph_norcal graph_cal graph_socal r
  = Raise e.
Proof.
  intros H1 H2 H3 H4 Hseats Hn Hc Hs. unfold make_voting_ensembles.
  rewrite H1, bind_lift_Ok, H2, bind_lift_Ok, H3, bind_lift_Ok,
    H4, bind_lift_Ok.
  rewrite truediv_nonzero, bind_lift_Ok by discriminate.
  rewrite Hseats, bind_lift_Ok. cbv beta iota.
  rewrite (truediv_nonzero _ n Hn), bind_lift_Ok.
  rewrite (truediv_nonzero _ c Hc), bind_lift_Ok.
  rewrite (truediv_nonzero _ s Hs), bind_lift_Ok.
  reflexivity.
Qed.

(** The seat numbers follow the floats, not the exact quotients: of 104
    people, 15 are [52 * (15 / 104) = 7.499999999999999] seats and not
    7.5, so three regions of 15, 44 and 45 get 7, 22 and 22 seats and the
    check raises, and three regions of 2, 15 and 87 get 1, 7 and 44 seats
    and the check passes. *)
Example seats_follow_the_floats :
  demographic_seats 104 15 44 45 = Raise (Exception seats_message)
  ∧ demographic_seats 104 2 15 87 = Ok (1, 7, 44)%Z.
Proof. split; vm_compute; reflexivity. Qed.

(** C10, as stated, fails: the seats of three regions of 5, 495 and 500
    people out of 1000 are 0, 26 and 26 and sum to 52, and still the
    generator raises before any partition is built, because the ideal
    population of the region without seats divides by zero. *)
Lemma seats_sum_but_generator_raises :
  ¬ (∀ (g_california g_norcal g_cal g_socal : Graph)
       (totpop_california totpop_norcal totpop_cal totpop_socal : Z)
       (norcal cal socal : Z),
       total g_california "total_pop" = Ok totpop_california →
       total g_norcal "total_pop" = Ok totpop_norcal →
       total g_cal "total_pop" = Ok totpop_cal →
       total g_socal "total_pop" = Ok totpop_socal →
       regional_seats totpop_norcal totpop_california = Ok norcal →
       regional_seats totpop_cal totpop_california = Ok cal →
       regional_seats totpop_socal totpop_california = Ok socal →
       ((∃ e, raises_before_partitions (@make_demographic_ensembles)
                g_california g_norcal g_cal g_socal e)
        ↔ (norcal + cal + socal)%Z ≠ 52%Z)).
Proof.
  intros Hclaim.
  destruct (Hclaim (graph_of [1000%Z]) (graph_of [5%Z]) (graph_of [495%Z])
              (graph_of [500%Z]) 1000%Z 5%Z 495%Z 500%Z 0%Z 26%Z 26%Z)
    as [Hraises _]; [vm_compute; reflexivity..|].
  apply Hraises; [|reflexivity].
  exists ZeroDivisionError. intros H fuel steps r.
  apply (demographic_without_seats fuel steps _ _ _ _ 1000 5 495 500 0 26 26);
    [vm_compute; reflexivity..|].
  left. reflexivity.
Qed.

(** C10, amended.  Let the three seat numbers be computed: each is
    [round(52 * (totpop / totpop_california))], that is the integer nearest
    to the double nearest to 52 times the double nearest to the region's
    share, ties going to the even integer (to the even significand), and
    for a region that is part of California it differs from
    [52 * totpop / totpop_california] by at most 1/2 and a millionth.  In
    the voting generator Cal gets one seat more.  Then a generator raises
    before any partition is built and before any chain step in exactly two
    cases: the seats do not sum to 52, and it raises the [Exception] of the
    seat check; or they do and a region has no seat, and it raises
    [ZeroDivisionError]. *)
Theorem seats_checked_before_partitions
    (totpop_california totpop_norcal totpop_cal totpop_socal : Z)
    (norcal cal socal : Z) :
  regional_seats totpop_norcal totpop_california = Ok norcal →
  regional_seats totpop_cal totpop_california = Ok cal →
  regional_seats totpop_socal totpop_california = Ok socal →
  (∀ g_california g_norcal g_cal g_socal e,
     total g_california "total_pop" = Ok totpop_california →
     total g_norcal "total_pop" = Ok totpop_norcal →
     total g_cal "total_pop" = Ok totpop_cal →
     total g_socal "total_pop" = Ok totpop_socal →
     (raises_before_partitions (@make_demographic_ensembles)
        g_california g_norcal g_cal g_socal e
      ↔ ((norcal + cal + socal)%Z ≠ 52%Z ∧ e = Exception seats_message)
        ∨ ((norcal + cal + socal)%Z = 52%Z
           ∧ (norcal = 0%Z ∨ cal = 0%Z ∨ socal = 0%Z)
           ∧ e = ZeroDivisionError)))
  ∧ (∀ g_california g_norcal g_cal g_socal e,
       total g_california "total_votes" = Ok totpop_california →
       total g_norcal "total_votes" = Ok totpop_norcal →
       total g_cal "total_votes" = Ok totpop_cal →
       total g_socal "total_votes" = Ok totpop_socal →
       (raises_before_partitions (@make_voting_ensembles)
          g_california g_norcal g_cal g_socal e
        ↔ ((norcal + (cal + 1) + socal)%Z ≠ 52%Z
           ∧ e = Exception
                   (seats_message ++ nl ++ tab
                    ++ "            NorCal: " ++ pretty norcal ++ nl ++ tab
                    ++ "                Cal: " ++ pretty (cal + 1)%Z
                    ++ nl ++ tab
                    ++ "                    SoCal: " ++ pretty socal))
          ∨ ((norcal + (cal + 1) + socal)%Z = 52%Z
             ∧ (norcal = 0%Z ∨ (cal + 1)%Z = 0%Z ∨ socal = 0%Z)
             ∧ e = ZeroDivisionError)))
  ∧ (∀ totpop seats,
       regional_seats totpop totpop_california = Ok seats →
       ∃ share product,
         nearest_double (inject_Z totpop / inject_Z totpop_california) share
         ∧ nearest_double (52 * share) product
         ∧ (inject_Z seats - (1 # 2) <= product)%Q
         ∧ (product <= inject_Z seats + (1 # 2))%Q
         ∧ ((product - inject_Z seats == 1 # 2)%Q
            ∨ (inject_Z seats - product == 1 # 2)%Q →
            Z.even seats = true))
  ∧ (∀ totpop,
       (0 ≤ totpop ≤ totpop_california)%Z →
       ∃ seats,
         regional_seats totpop totpop_california = Ok seats
         ∧ (Qabs (inject_Z seats
                  - 52 * (inject_Z totpop / inject_Z totpop_california))
            <= (1 # 2) + (1 # 1000000))%Q).
Proof.
  intros Hn Hc Hs.
  pose proof (demographic_seats_checked _ _ _ _ _ _ _ Hn Hc Hs) as Hdemo.
  pose proof (voting_seats_checked _ _ _ _ _ _ _ Hn Hc Hs) as Hvote.
  split; [|split; [|split]].
  - clear Hvote. intros g1 g2 g3 g4 e H1 H2 H3 H4. split.
    + intros Hraises.
      destruct (decide ((norcal + cal + socal)%Z ≠ 52%Z)) as [Hsum|Hsum].
      { left. split; [exact Hsum|].
        pose proof (Hraises (failing KeyError) 0%nat 0%nat tt) as Hrun.
        rewrite (demographic_seats_first (H := failing KeyError) 0 0 g1 g2 g3 g4 _ _ _ _ _ tt
                   H1 H2 H3 H4 Hdemo) in Hrun.
        congruence. }
      right. split; [lia|].
      destruct (decide (norcal = 0%Z)) as [Hz1|Hnz1];
        [|destruct (decide (cal = 0%Z)) as [Hz2|Hnz2];
          [|destruct (decide (socal = 0%Z)) as [Hz3|Hnz3]]].
      1-3: split; [tauto|];
        pose proof (Hraises (failing KeyError) 0%nat 0%nat tt) as Hrun;
        rewrite (demographic_without_seats (H := failing KeyError) 0 0 g1 g2 g3 g4 _ _ _ _ _ _ _ tt
                   H1 H2 H3 H4 Hdemo) in Hrun by tauto;
        congruence.
      exfalso.
      pose proof (Hraises (failing KeyError) 0%nat 0%nat tt) as Hk.
      pose proof (Hraises (failing ValueError) 0%nat 0%nat tt) as Hv.
      rewrite (demographic_reaches_partitions KeyError 0 0 g1 g2 g3 g4
                 _ _ _ _ _ _ _ tt H1 H2 H3 H4 Hdemo Hnz1 Hnz2 Hnz3) in Hk.
      rewrite (demographic_reaches_partitions ValueError 0 0 g1 g2 g3 g4
                 _ _ _ _ _ _ _ tt H1 H2 H3 H4 Hdemo Hnz1 Hnz2 Hnz3) in Hv.
      congruence.
    + intros [[Hsum ->]|(Hsum & Hzero & ->)] H fuel steps r.
      * apply (demographic_seats_first fuel steps g1 g2 g3 g4 _ _ _ _ _ r
                 H1 H2 H3 H4).
        rewrite Hdemo.
        destruct (decide ((norcal + cal + socal)%Z ≠ 52%Z));
          [reflexivity|contradiction].
      * apply (demographic_without_seats fuel steps g1 g2 g3 g4
                 _ _ _ _ norcal cal socal r H1 H2 H3 H4); [|exact Hzero].
        rewrite Hdemo.
        destruct (decide ((norcal + cal + socal)%Z ≠ 52%Z));
          [contradiction|reflexivity].
  - clear Hdemo. intros g1 g2 g3 g4 e H1 H2 H3 H4. split.
    + intros Hraises.
      destruct (decide ((norcal + (cal + 1) + socal)%Z ≠ 52%Z))
        as [Hsum|Hsum].
      { left. split; [exact Hsum|].
        pose proof (Hraises (failing KeyError) 0%nat 0%nat tt) as Hrun.
        rewrite (voting_seats_first (H := failing KeyError) 0 0 g1 g2 g3 g4 _ _ _ _ _ tt
                   H1 H2 H3 H4 Hvote) in Hrun.
        congruence. }
      right. split; [lia|].
      destruct (decide (norcal = 0%Z)) as [Hz1|Hnz1];
        [|destruct (decide ((cal + 1)%Z = 0%Z)) as [Hz2|Hnz2];
          [|destruct (decide (socal = 0%Z)) as [Hz3|Hnz3]]].
      1-3: split; [tauto|];
        pose proof (Hraises (failing KeyError) 0%nat 0%nat tt) as Hrun;
        rewrite (voting_without_seats (H := failing KeyError) 0 0 g1 g2 g3 g4 _ _ _ _ _ _ _ tt
                   H1 H2 H3 H4 Hvote) in Hrun by tauto;
        congruence.
      exfalso.
      pose proof (Hraises (failing KeyError) 0%nat 0%nat tt) as Hk.
      pose proof (Hraises (failing ValueError) 0%nat 0%nat tt) as Hv.
      rewrite (voting_reaches_partitions KeyError 0 0 g1 g2 g3 g4
                 _ _ _ _ _ _ _ tt H1 H2 H3 H4 Hvote Hnz1 Hnz2 Hnz3) in Hk.
      rewrite (voting_reaches_partitions ValueError 0 0 g1 g2 g3 g4
                 _ _ _ _ _ _ _ tt H1 H2 H3 H4 Hvote Hnz1 Hnz2 Hnz3) in Hv.
      congruence.
    + intros [[Hsum ->]|(Hsum & Hzero & ->)] H fuel steps r.
      * apply (voting_seats_first fuel steps g1 g2 g3 g4 _ _ _ _ _ r
                 H1 H2 H3 H4).
        rewrite Hvote.
        destruct (decide ((norcal + (cal + 1) + socal)%Z ≠ 52%Z));
          [reflexivity|contradiction].
      * apply (voting_without_seats fuel steps g1 g2 g3 g4
                 _ _ _ _ norcal (cal + 1)%Z socal r H1 H2 H3 H4);
          [|exact Hzero].
        rewrite Hvote.
        destruct (decide ((norcal + (cal + 1) + socal)%Z ≠ 52%Z));
          [contradiction|reflexivity].
  - intros totpop seats Hrun.
    apply regional_seats_Ok in Hrun
      as (_ & share & product & Hshare & Hproduct & ->).
    exists share, product.
    split; [apply binary64_nearest, Hshare|].
    split; [apply binary64_nearest, Hproduct|].
    destruct (round_nearest product) as [Hdown Hup].
    split; [exact Hdown|]. split; [exact Hup|]. apply round_half_even.
  - intros totpop Hrange.
    apply regional_seats_Ok in Hn as (Hnz & _).
    destruct (regional_seats_product totpop totpop_california Hrange)
      as (product & Hrun & _ & _ & Hlo & Hhi); [lia|].
    exists (round product). split; [exact Hrun|].
    destruct (round_nearest product) as [Hdown Hup].
    change (inject_Z 52) with 52%Q in Hlo, Hhi.
    apply Qabs_Qle_condition. split; lra.
Qed.

Lemma seats_checked_before_partitions_witness :
  raises_before_partitions (@make_demographic_ensembles)
    (graph_of [100%Z]) (graph_of [35%Z]) (graph_of [29%Z]) (graph_of [35%Z])
    (Exception seats_message)
  ∧ ¬ (∃ e, raises_before_partitions (@make_voting_ensembles)
              (graph_of [100%Z]) (graph_of [35%Z]) (graph_of [29%Z])
              (graph_of [35%Z]) e).
Proof.
  destruct (seats_checked_before_partitions 100 35 29 35 18 15 18)
    as (Hdemo & Hvote & _); [vm_compute; reflexivity..|].
  split.
  - apply Hdemo; [vm_compute; reflexivity..|].
    left. split; [lia|reflexivity].
  - intros [e Hraises].
    apply Hvote in Hraises; [|vm_compute; reflexivity..].
    destruct Hraises as [[Hsum _]|(_ & Hzero & _)]; lia.
Defined.

(** ** The Markov chain *)

Section Chain.
Context `{GerryChain}.

Lemma M_bind_Ok_inv {A B : Type} (m : M A) (f : A → M B) r b r' :
  (m ≫= f) r = Ok (b, r') →
  ∃ a r1, m r = Ok (a, r1) ∧ f a r1 = Ok (b, r').
Proof.
  unfold mbind, M_bind. destruct (m r) as [[a r1]| |]; [|discriminate..].
  intros Hf. exists a, r1. auto.
Qed.

Lemma M_bind_state {A B : Type} (m : M A) (f : A → M B) r1 r2 :
  m r1 = m r2 → (m ≫= f) r1 = (m ≫= f) r2.
Proof. unfold mbind, M_bind. intros ->. reflexivity. Qed.

Lemma chain_from_step (fuel : nat) (chain : MarkovChain)
    (remaining : nat) (state : Partition) :
  chain_from (S fuel) chain (S remaining) state =
    proposed ← proposal chain state;
    if is_valid chain proposed then
      let state' := if accept chain proposed then proposed else state in
      rest ← chain_from fuel chain remaining state';
      mret (state' :: rest)
    else chain_from fuel chain (S remaining) state.
Proof. reflexivity. Qed.

(** A completed run yields as many partitions as steps were left. *)
Lemma chain_from_length (fuel : nat) (chain : MarkovChain) :
  ∀ remaining state r parts r',
    chain_from fuel chain remaining state r = Ok (parts, r') →
    length parts = remaining.
Proof.
  induction fuel as [|fuel IH]; intros [|remaining] state r parts r' Hrun;
    try (injection Hrun as <- <-; reflexivity); try discriminate.
  rewrite chain_from_step in Hrun.
  apply M_bind_Ok_inv in Hrun as (proposed & r1 & _ & Hrun).
  destruct (is_valid chain proposed).
  - cbv zeta in Hrun.
    apply M_bind_Ok_inv in Hrun as (rest & r2 & Hrest & Hret).
    injection Hret as <- <-. apply IH in Hrest. cbn [length]. congruence.
  - apply IH in Hrun. exact Hrun.
Qed.

(** When the chain accepts every valid candidate, each partition it yields
    after the initial state is a valid candidate. *)
Lemma chain_from_valid (fuel : nat) (chain : MarkovChain) :
  (∀ part, accept chain part = true) →
  ∀ remaining state r parts r',
    chain_from fuel chain remaining state r = Ok (parts, r') →
    Forall (fun part => is_valid chain part = true) parts.
Proof.
  intros Haccept.
  induction fuel as [|fuel IH]; intros [|remaining] state r parts r' Hrun;
    try (injection Hrun as <- <-; constructor); try discriminate.
  rewrite chain_from_step in Hrun.
  apply M_bind_Ok_inv in Hrun as (proposed & r1 & _ & Hrun).
  destruct (is_valid chain proposed) eqn:Hvalid.
  - rewrite Haccept in Hrun. cbv zeta in Hrun.
    apply M_bind_Ok_inv in Hrun as (rest & r2 & Hrest & Hret).
    injection Hret as <- <-. apply IH in Hrest.
    constructor; assumption.
  - apply IH in Hrun. exact Hrun.
Qed.


(** A chain whose proposal always returns a valid candidate completes with
    one unit of fuel per step. *)
Lemma chain_from_completes (chain : MarkovChain) :
  (∀ part r, ∃ proposed r1,
      proposal chain part r = Ok (proposed, r1)
      ∧ is_valid chain proposed = true) →
  ∀ (fuel remaining : nat) state r,
    (remaining ≤ fuel)%nat →
    ∃ parts r', chain_from fuel chain remaining state r = Ok (parts, r').
Proof.
  intros Hvalid.
  induction fuel as [|fuel IH]; intros [|remaining] state r Hle;
    try (eexists _, _; reflexivity); try lia.
  rewrite chain_from_step. unfold mbind, M_bind.
  destruct (Hvalid state r) as (proposed & r1 & -> & ->). cbv zeta.
  destruct (IH remaining (if accept chain proposed then proposed else state)
              r1 ltac:(lia)) as (rest & r2 & ->).
  eexists _, _. reflexivity.
Qed.

Lemma iterate_length (fuel : nat) (chain : MarkovChain) r parts r' :
  iterate fuel chain r = Ok (parts, r') → length parts = total_steps chain.
Proof.
  unfold iterate. destruct (total_steps chain) as [|remaining]; intros Hrun.
  - injection Hrun as <- <-. reflexivity.
  - apply M_bind_Ok_inv in Hrun as (rest & r1 & Hrest & Hret).
    injection Hret as <- <-. apply chain_from_length in Hrest.
    cbn [length]. congruence.
Qed.


Lemma iterate_completes (fuel : nat) (chain : MarkovChain) r :
  (∀ part r, ∃ proposed r1,
      proposal chain part r = Ok (proposed, r1)
      ∧ is_valid chain proposed = true) →
  (total_steps chain ≤ S fuel)%nat →
  ∃ parts r', iterate fuel chain r = Ok (parts, r').
Proof.
  intros Hvalid Hle. unfold iterate.
  destruct (total_steps chain) as [|remaining]; [eexists _, _; reflexivity|].
  destruct (chain_from_completes chain Hvalid fuel remaining
              (initial_state chain) r ltac:(lia)) as (rest & r1 & Hrest).
  unfold mbind, M_bind. rewrite Hrest. eexists _, _. reflexivity.
Qed.

Lemma iterate_valid (fuel : nat) (chain : MarkovChain) r parts r' :
  (∀ part, accept chain part = true) →
  iterate fuel chain r = Ok (parts, r') →
  ∀ i part, 0 < i → parts !! i = Some part → is_valid chain part = true.
Proof.
  intros Haccept. unfold iterate.
  destruct (total_steps chain) as [|remaining]; intros Hrun.
  - injection Hrun as <- <-. intros i part _ Hi. discriminate.
  - apply M_bind_Ok_inv in Hrun as (rest & r1 & Hrest & Hret).
    injection Hret as <- <-.
    apply (chain_from_valid _ _ Haccept) in Hrest.
    intros [|i] part Hi Hpart; [lia|]. cbn in Hpart.
    rewrite Forall_lookup in Hrest. exact (Hrest i part Hpart).
Qed.

End Chain.

Lemma within_bounds (percent ideal : Q) (pop : Z) :
  within percent ideal pop = true →
  ((1 - percent) * ideal <= inject_Z pop)%Q
  ∧ (inject_Z pop <= (1 + percent) * ideal)%Q.
Proof.
  unfold within. rewrite andb_true_iff, !Qle_bool_iff. auto.
Qed.

Lemma constraint_bounds (reference : Partition) (percent : Q)
    (pop_key : string) (constraint : Partition → bool) :
  within_percent_of_ideal_population reference percent pop_key
    = Ok constraint →
  ∃ ideal, ideal_population reference pop_key = Ok ideal
    ∧ ∀ part, constraint part = true →
        ∀ d pop, tally part pop_key !! d = Some pop →
          ((1 - percent) * ideal <= inject_Z pop)%Q
          ∧ (inject_Z pop <= (1 + percent) * ideal)%Q.
Proof.
  unfold within_percent_of_ideal_population.
  destruct (ideal_population reference pop_key) as [ideal| |];
    [|discriminate..].
  rewrite bind_Ok. intros Hc. injection Hc as <-.
  exists ideal. split; [reflexivity|]. intros part Hall d pop Hpop.
  apply within_bounds.
  rewrite forallb_forall in Hall. apply Hall.
  apply list_elem_of_In, list_elem_of_fmap. exists (d, pop).
  split; [reflexivity|]. apply elem_of_map_to_list, Hpop.
Qed.

(** C3.  Let a chain be built by [__markov_chain] with the constraint
    [within_percent_of_ideal_population(reference, pop_tolerance, pop_key)],
    [pop_tolerance = 0.02].  In every partition the chain yields after the
    initial state, every district's tally of the primary attribute lies
    between [(1 - 0.02) * ideal] and [(1 + 0.02) * ideal], where [ideal] is
    the ideal population of the reference partition. *)
Theorem accepted_states_within_tolerance `{GerryChain}
    (fuel steps : nat) (proposal : Partition → M Partition)
    (reference initial : Partition) (pop_key : string)
    (constraint : Partition → bool) (r r' : RNG) (parts : list Partition) :
  within_percent_of_ideal_population reference pop_tolerance pop_key
    = Ok constraint →
  iterate fuel (__markov_chain proposal constraint initial steps) r
    = Ok (parts, r') →
  ∃ ideal, ideal_population reference pop_key = Ok ideal
    ∧ ∀ i part, 0 < i → parts !! i = Some part →
        ∀ d pop, tally part pop_key !! d = Some pop →
          ((1 - (2 # 100)) * ideal <= inject_Z pop)%Q
          ∧ (inject_Z pop <= (1 + (2 # 100)) * ideal)%Q.
Proof.
  intros Hconstraint Hrun.
  destruct (constraint_bounds _ _ _ _ Hconstraint) as (ideal & Hideal & Hin).
  exists ideal. split; [exact Hideal|].
  intros i part Hi Hpart d pop Hpop.
  assert (is_valid (__markov_chain proposal constraint initial steps) part
          = true) as Hvalid.
  { eapply iterate_valid; [|exact Hrun|exact Hi|exact Hpart].
    intros p. reflexivity. }
  unfold is_valid, __markov_chain in Hvalid. cbn in Hvalid.
  rewrite andb_true_r in Hvalid.
  exact (Hin part Hvalid d pop Hpop).
Qed.

Lemma accepted_states_within_tolerance_witness :
  ∃ ideal, ideal_population two_districts "district_totpop" = Ok ideal
    ∧ ∀ i part, 0 < i →
        [two_districts; balanced; balanced] !! i = Some part →
        ∀ d pop, tally part "district_totpop" !! d = Some pop →
          ((1 - (2 # 100)) * ideal <= inject_Z pop)%Q
          ∧ (inject_Z pop <= (1 + (2 # 100)) * ideal)%Q.
Proof.
  apply (accepted_states_within_tolerance (H := toy) 10 3
           (fun part => recom part "total_pop" 100%Q pop_tolerance 1)
           two_districts two_districts "district_totpop" toy_constraint
           0 4).
  - vm_compute. reflexivity.
  - vm_compute. reflexivity.
Defined.

(** ** Accumulating the ensembles *)

Lemma Forall_exists_Forall2 {A B : Type} (R : A → B → Prop) (l : list A) :
  Forall (fun x => ∃ y, R x y) l → ∃ l', Forall2 R l l'.
Proof.
  induction 1 as [|x l [y Hy] _ [l' IH]].
  - exists []. constructor.
  - exists (y :: l'). constructor; assumption.
Qed.

Lemma demographic_walk_part (K : nat) (cutedges_ens majmin_ens : list nat)
    (part : Partition) (count : nat) :
  Demographic.majmin part K = Ok count →
  Demographic.walk_part K (cutedges_ens, majmin_ens) part =
    Ok (cutedges_ens ++ [size (cut_edges part)], majmin_ens ++ [count]).
Proof. unfold Demographic.walk_part. intros ->. reflexivity. Qed.

Lemma voting_walk_part (K : nat)
    (cutedges_ens republican_seats_ens : list nat)
    (efficiency_gap_ens : list Q) (part : Partition) (seats : nat) (gap : Q) :
  Voting.plan_statistics part K = Ok (seats, gap) →
  Voting.walk_part K
    (cutedges_ens, republican_seats_ens, efficiency_gap_ens) part =
    Ok (cutedges_ens ++ [size (cut_edges part)],
        republican_seats_ens ++ [seats], efficiency_gap_ens ++ [gap]).
Proof. unfold Voting.walk_part. intros ->. reflexivity. Qed.

Lemma demographic_walk_appends (K : nat) (parts : list Partition)
    (counts : list nat) :
  Forall2 (fun part count => Demographic.majmin part K = Ok count)
          parts counts →
  ∀ cutedges_ens majmin_ens,
    foldM (Demographic.walk_part K) (cutedges_ens, majmin_ens) parts =
      Ok (cutedges_ens ++ map (fun part => size (cut_edges part)) parts,
          majmin_ens ++ counts).
Proof.
  induction 1 as [|part count parts counts Hcount _ IH];
    intros cutedges_ens majmin_ens.
  - cbn [foldM map]. rewrite !app_nil_r. reflexivity.
  - cbn [foldM map].
    rewrite (demographic_walk_part K _ _ part count Hcount), bind_Ok, IH,
      <- !app_assoc.
    reflexivity.
Qed.

Lemma voting_walk_appends (K : nat) (parts : list Partition)
    (stats : list (nat * Q)) :
  Forall2 (fun part stat => Voting.plan_statistics part K = Ok stat)
          parts stats →
  ∀ cutedges_ens republican_seats_ens efficiency_gap_ens,
    foldM (Voting.walk_part K)
      (cutedges_ens, republican_seats_ens, efficiency_gap_ens) parts =
      Ok (cutedges_ens ++ map (fun part => size (cut_edges part)) parts,
          republican_seats_ens ++ map fst stats,
          efficiency_gap_ens ++ map snd stats).
Proof.
  induction 1 as [|part [seats gap] parts stats Hstat _ IH];
    intros cutedges_ens republican_seats_ens efficiency_gap_ens.
  - cbn [foldM map]. rewrite !app_nil_r. reflexivity.
  - cbn [foldM map fst snd].
    rewrite (voting_walk_part K _ _ _ part seats gap Hstat), bind_Ok, IH,
      <- !app_assoc.
    reflexivity.
Qed.



(** ** Seeds and determinism *)

Section Seeds.
Context `{GerryChain}.

Variables (graph : Graph) (num_districts : nat) (idealpop : Q)
  (totpop_key : string) (tolerance : Q) (updaters : list (string * updater)).

Let draw := draw_plan graph num_districts idealpop totpop_key tolerance.
Let seeded :=
  plan_of_seed graph num_districts idealpop totpop_key tolerance.

(** The generator is reseeded before a plan is drawn, so the plan depends on
    nothing but the seed and the arguments. *)
Lemma draw_plan_Ok plans s r plans' r' :
  draw plans s r = Ok (plans', r') →
  ∃ plan, seeded s = Ok (plan, r') ∧ plans' = plans ++ [plan].
Proof.
  subst draw seeded.
  unfold draw_plan, plan_of_seed, mbind, M_bind, random_seed.
  destruct (recursive_tree_part _ _ _ _ _ _ _) as [[plan r1]| |];
    [|discriminate..].
  intros Hret. injection Hret as <- <-. eauto.
Qed.

Lemma draw_plans_Ok seeds : ∀ plans r plans' r',
  foldM draw plans seeds r = Ok (plans', r') →
  ∃ drawn, plans' = plans ++ drawn
    ∧ Forall2 (fun s plan => ∃ r1, seeded s = Ok (plan, r1))
              seeds drawn.
Proof.
  induction seeds as [|s seeds IH]; intros plans r plans' r' Hrun.
  - injection Hrun as <- <-. exists []. rewrite app_nil_r.
    split; [reflexivity|constructor].
  - cbn [foldM] in Hrun.
    apply M_bind_Ok_inv in Hrun as (plans1 & r1 & Hdraw & Hrest).
    apply draw_plan_Ok in Hdraw as (plan & Hplan & ->).
    apply IH in Hrest as (drawn & -> & Hdrawn).
    exists (plan :: drawn). rewrite <- app_assoc.
    split; [reflexivity|]. constructor; eauto.
Qed.

Lemma random_partitions_reseeds s seeds r1 r2 :
  __random_partitions graph num_districts idealpop totpop_key tolerance
    updaters (s :: seeds) r1
  = __random_partitions graph num_districts idealpop totpop_key tolerance
      updaters (s :: seeds) r2.
Proof. reflexivity. Qed.

Lemma random_partitions_by_seed seeds r parts r' :
  __random_partitions graph num_districts idealpop totpop_key tolerance
    updaters seeds r = Ok (parts, r') →
  Forall2 (fun s part =>
             ∃ plan r1, seeded s = Ok (plan, r1)
                        ∧ part = new_partition graph plan updaters)
          seeds parts.
Proof.
  unfold __random_partitions. intros Hrun.
  apply M_bind_Ok_inv in Hrun as (plans & r1 & Hplans & Hret).
  injection Hret as <- <-.
  apply (draw_plans_Ok seeds [] r plans r1) in Hplans as (drawn & -> & Hdrawn).
  cbn [app]. induction Hdrawn as [|s plan seeds drawn [r2 Hplan] _ IH];
    cbn [map]; constructor; eauto.
Qed.

End Seeds.

Section Determinism.
Context `{GerryChain}.

(** A lifted pure computation does not look at the generator: either it
    fails the same way from both states or both runs go on with its value. *)
Ltac same_pure_step :=
  match goal with
  | |- (lift ?m ≫= _) _ = (lift ?m ≫= _) _ =>
      destruct m as [?| |]; [rewrite !bind_lift_Ok; cbv beta|reflexivity..]
  | |- (let '(_, _) := ?p in _) _ = (let '(_, _) := ?p in _) _ =>
      destruct p
  end.

Lemma demographic_ensembles_reseeded (fuel steps : nat)
    (graph_california graph_norcal graph_cal graph_socal : Graph)
    (r1 r2 : RNG) :
  make_demographic_ensembles fuel steps
    graph_california graph_norcal graph_cal graph_socal r1
  = make_demographic_ensembles fuel steps
      graph_california graph_norcal graph_cal graph_socal r2.
Proof.
  unfold make_demographic_ensembles.
  repeat same_pure_step. cbv zeta.
  apply M_bind_state, random_partitions_reseeds.
Qed.

Lemma voting_ensembles_reseeded (fuel steps : nat)
    (graph_california graph_norcal graph_cal graph_socal : Graph)
    (r1 r2 : RNG) :
  make_voting_ensembles fuel steps
    graph_california graph_norcal graph_cal graph_socal r1
  = make_voting_ensembles fuel steps
      graph_california graph_norcal graph_cal graph_socal r2.
Proof.
  unfold make_voting_ensembles.
  repeat same_pure_step. cbv zeta.
  apply M_bind_state, random_partitions_reseeds.
Qed.

End Determinism.

(** C4.  A run of either generator does not depend on the state the random
    generator is in when the run starts: for the same graphs, step count
    and configuration, two runs return the same pickled ensembles, element
    for element.  In particular [__random_partitions] returns the same
    partitions whatever the generator's state was, and each partition is
    the one [recursive_tree_part] builds right after [random.seed(s)] for
    its own seed [s]: the same seed and graph give the same partition. *)
Theorem ensembles_determined_by_seeds `{GerryChain} (fuel steps : nat)
    (graph_california graph_norcal graph_cal graph_socal : Graph)
    (r1 r2 : RNG) :
  make_demographic_ensembles fuel steps
    graph_california graph_norcal graph_cal graph_socal r1
  = make_demographic_ensembles fuel steps
      graph_california graph_norcal graph_cal graph_socal r2
  ∧ make_voting_ensembles fuel steps
      graph_california graph_norcal graph_cal graph_socal r1
    = make_voting_ensembles fuel steps
        graph_california graph_norcal graph_cal graph_socal r2
  ∧ (∀ graph num_districts idealpop totpop_key tolerance updaters s seeds,
       __random_partitions graph num_districts idealpop totpop_key tolerance
         updaters (s :: seeds) r1
       = __random_partitions graph num_districts idealpop totpop_key
           tolerance updaters (s :: seeds) r2)
  ∧ (∀ graph num_districts idealpop totpop_key tolerance updaters seeds
       parts r',
       __random_partitions graph num_districts idealpop totpop_key tolerance
         updaters seeds r1 = Ok (parts, r') →
       Forall2 (fun s part =>
                  ∃ plan r, plan_of_seed graph num_districts idealpop
                              totpop_key tolerance s = Ok (plan, r)
                            ∧ part = new_partition graph plan updaters)
               seeds parts).
Proof.
  split; [apply demographic_ensembles_reseeded|].
  split; [apply voting_ensembles_reseeded|].
  split.
  - intros. apply random_partitions_reseeds.
  - intros graph num_districts idealpop totpop_key tolerance updaters seeds
      parts r'. apply random_partitions_by_seed.
Qed.

(** Both generators run to completion on the reference GerryChain, from
    graphs whose regions get 18, 16 and 18 seats. *)
Example demographic_ensembles_run :
  match make_demographic_ensembles (H := one_node_each) 5 2
          (graph_of (replicate 52 100%Z)) (graph_of (replicate 18 100%Z))
          (graph_of (replicate 16 100%Z)) (graph_of (replicate 18 100%Z)) 7
  with
  | Ok (files, _) =>
      map snd files =
        replicate 5 (IntList [0; 0]) ++ replicate 5 (IntList [52; 52])
  | _ => False
  end.
Proof. vm_compute. reflexivity. Qed.

Example voting_ensembles_run :
  match make_voting_ensembles (H := one_node_each) 5 2
          (graph_of (replicate 52 100%Z)) (graph_of (replicate 18 100%Z))
          (graph_of (replicate 12 94%Z ++ replicate 4 93%Z))
          (graph_of (replicate 18 100%Z)) 7
  with
  | Ok (files, _) =>
      map fst files =
        map (fun name => "../ensembles/voting/" ++ name ++ ".pkl")%string
          ["cut_edges/cutedges_california_1";
           "cut_edges/cutedges_california_2";
           "cut_edges/cutedges_california_3";
           "cut_edges/cutedges_cal3_1";
           "cut_edges/cutedges_cal3_2";
           "republican_seats/republican_seats_california_1";
           "republican_seats/republican_seats_california_2";
           "republican_seats/republican_seats_california_3";
           "republican_seats/republican_seats_cal3_1";
           "republican_seats/republican_seats_cal3_2";
           "efficiency_gap/efficiency_gap_california_1";
           "efficiency_gap/efficiency_gap_california_2";
           "efficiency_gap/efficiency_gap_california_3";
           "efficiency_gap/efficiency_gap_cal3_1";
           "efficiency_gap/efficiency_gap_cal3_2"]
  | _ => False
  end.
Proof. vm_compute. reflexivity. Qed.

(** ** The code around the walks

    Bounds on what the walks record, their failures, the seats of the
    three regions, the regions themselves, the files written, and the
    plotting script. *)

Lemma foldM_app {S A : Type} (f : S → A → result S) (s : S) (xs ys : list A) :
  foldM f s (xs ++ ys) = foldM f s xs ≫= fun s' => foldM f s' ys.
Proof.
  revert s. induction xs as [|x xs IH]; intros s; cbn [foldM app].
  - reflexivity.
  - destruct (f s x) as [s'| |]; [|reflexivity..]. rewrite !bind_Ok. apply IH.
Qed.

Lemma bind_Ok_inv {A B : Type} (m : result A) (f : A → result B) (b : B) :
  m ≫= f = Ok b → ∃ a, m = Ok a ∧ f a = Ok b.
Proof. destruct m as [a| |]; [|discriminate..]. eauto. Qed.

Lemma count_district_step (part : Partition) (count i count' : nat) :
  Demographic.count_district part count i = Ok count' →
  count' = count ∨ count' = count + 1.
Proof.
  unfold Demographic.count_district. intros Hrun.
  apply bind_Ok_inv in Hrun as (h & _ & Hrun).
  apply bind_Ok_inv in Hrun as (t & _ & Hrun).
  apply bind_Ok_inv in Hrun as (share & _ & Hrun).
  injection Hrun as <-. destruct (gt share (1 # 2)); auto.
Qed.

Lemma count_districts_bound (part : Partition) (l : list nat) :
  ∀ count count' : nat,
    foldM (Demographic.count_district part) count l = Ok count' →
    (count ≤ count' ∧ count' ≤ count + length l)%nat.
Proof.
  induction l as [|i l IH]; intros count count' Hrun; cbn [foldM] in Hrun.
  - injection Hrun as <-. cbn [length]. lia.
  - apply bind_Ok_inv in Hrun as (c1 & Hstep & Hrest).
    apply count_district_step in Hstep. apply IH in Hrest.
    cbn [length]. lia.
Qed.

(** X1.  The count that the demographic walk records for a partition
    is at most the number of districts it was asked to look at. *)
Theorem majmin_at_most_districts (part : Partition) (K count : nat) :
  Demographic.majmin part K = Ok count → (count ≤ K)%nat.
Proof.
  unfold Demographic.majmin. intros Hrun.
  apply count_districts_bound in Hrun. unfold range in Hrun.
  rewrite length_seq in Hrun. lia.
Qed.

Lemma majmin_at_most_districts_witness :
  Demographic.majmin two_districts 2 = Ok 1 ∧ (1 ≤ 2)%nat.
Proof.
  split; [vm_compute; reflexivity|].
  apply (majmin_at_most_districts two_districts 2 1). vm_compute. reflexivity.
Defined.

Lemma vote_district_step (part : Partition) (c c' : Voting.counters) (i : nat) :
  Voting.count_district part c i = Ok c' →
  Voting.seats c' = Voting.seats c ∨ Voting.seats c' = Voting.seats c + 1.
Proof.
  unfold Voting.count_district. intros Hrun.
  apply bind_Ok_inv in Hrun as (t & _ & Hrun).
  apply bind_Ok_inv in Hrun as (needed & _ & Hrun).
  apply bind_Ok_inv in Hrun as (r & _ & Hrun).
  apply bind_Ok_inv in Hrun as (d & _ & Hrun).
  apply bind_Ok_inv in Hrun as (rshare & _ & Hrun).
  destruct (gt rshare (1 # 2)).
  - injection Hrun as <-. auto.
  - apply bind_Ok_inv in Hrun as (dshare & _ & Hrun).
    destruct (gt dshare (1 # 2)); injection Hrun as <-; auto.
Qed.

Lemma vote_districts_seats (part : Partition) (l : list nat) :
  ∀ c c' : Voting.counters,
    foldM (Voting.count_district part) c l = Ok c' →
    (Voting.seats c ≤ Voting.seats c'
     ∧ Voting.seats c' ≤ Voting.seats c + length l)%nat.
Proof.
  induction l as [|i l IH]; intros c c' Hrun; cbn [foldM] in Hrun.
  - injection Hrun as <-. cbn [length]. lia.
  - apply bind_Ok_inv in Hrun as (c1 & Hstep & Hrest).
    apply vote_district_step in Hstep. apply IH in Hrest.
    cbn [length]. lia.
Qed.

(** X2.  The number of Republican seats that the voting walk records
    for a partition is at most the number of districts. *)
Theorem seats_at_most_districts (part : Partition) (K seats : nat) (gap : Q) :
  Voting.plan_statistics part K = Ok (seats, gap) → (seats ≤ K)%nat.
Proof.
  unfold Voting.plan_statistics, Voting.count_districts. intros Hrun.
  apply bind_Ok_inv in Hrun as (c & Hc & Hrun).
  apply bind_Ok_inv in Hrun as (g & _ & Hrun).
  injection Hrun as <- <-.
  apply vote_districts_seats in Hc. unfold range in Hc.
  rewrite length_seq in Hc. cbn in Hc. lia.
Qed.

Lemma seats_at_most_districts_witness :
  ∃ gap, Voting.plan_statistics (swap_parties two_races) 2 = Ok (1, gap)
         ∧ (1 ≤ 2)%nat.
Proof.
  eexists. split; [vm_compute; reflexivity|].
  eapply (seats_at_most_districts (swap_parties two_races) 2 1).
  vm_compute. reflexivity.
Defined.

Ltac halves := unfold Qdiv in *; change (/ 2)%Q with (1 # 2)%Q in *.

Lemma wasted_difference_bound (r d t : Z) :
  (0 ≤ r)%Z → (0 ≤ d)%Z → (r + d ≤ t)%Z →
  (- (inject_Z t / 2)
   <= wasted_democrat_votes r d t - wasted_republican_votes r d t)%Q
  ∧ (wasted_democrat_votes r d t - wasted_republican_votes r d t
     <= inject_Z t / 2)%Q.
Proof.
  intros Hr Hd Hsum.
  rewrite Zle_Qle in Hr, Hd, Hsum. rewrite inject_Z_plus in Hsum.
  change (inject_Z 0) with 0%Q in *.
  unfold wasted_democrat_votes, wasted_republican_votes, votes_needed.
  destruct (decide (exceeds_half r t)) as [Hr'|Hr'];
    [|destruct (decide (exceeds_half d t)) as [Hd'|Hd']];
    unfold exceeds_half in *;
    try apply Qnot_lt_le in Hr'; try apply Qnot_lt_le in Hd';
    halves; split; lra.
Qed.

(** Swapping the parties swaps their wasted votes, when the votes of the
    two do not exceed the total. *)
Lemma wasted_votes_swap (r d t : Z) :
  (0 ≤ r)%Z → (0 ≤ d)%Z → (r + d ≤ t)%Z →
  wasted_democrat_votes d r t = wasted_republican_votes r d t
  ∧ wasted_republican_votes d r t = wasted_democrat_votes r d t.
Proof.
  intros Hr Hd Hsum.
  unfold wasted_democrat_votes, wasted_republican_votes.
  destruct (decide (exceeds_half r t)) as [Hr'|Hr'];
    destruct (decide (exceeds_half d t)) as [Hd'|Hd']; auto.
  apply exceeds_half_Z in Hr', Hd'. lia.
Qed.

Section GapBounds.
Variable part : Partition.

Lemma gap_sums_bound (l : list nat) :
  Forall (consistent_votes part) l →
  let wasted_d := sum_Q (map (fun i => wasted_democrat_votes
                    (republican part i) (democrat part i) (totvotes part i)) l) in
  let wasted_r := sum_Q (map (fun i => wasted_republican_votes
                    (republican part i) (democrat part i) (totvotes part i)) l) in
  let cast := inject_Z (sum_Z (map (totvotes part) l)) in
  (- (cast / 2) <= wasted_d - wasted_r)%Q ∧ (wasted_d - wasted_r <= cast / 2)%Q.
Proof.
  cbv zeta. induction 1 as [|i l (Ht & Hr & Hd & Hsum) _ IH].
  - cbn. split; discriminate.
  - cbn [map]. rewrite !sum_Q_cons, sum_Z_cons, inject_Z_plus.
    destruct (wasted_difference_bound _ _ _ Hr Hd Hsum) as [Hlo Hhi].
    destruct IH as [IHlo IHhi]. halves. split; lra.
Qed.

End GapBounds.

Lemma truediv_Ok_inv (a b q : Q) :
  truediv a b = Ok q → ¬ (b == 0)%Q ∧ q = (a / b)%Q.
Proof.
  unfold truediv. destruct (Qeq_bool b 0) eqn:Hb; [discriminate|].
  intros Hq. injection Hq as <-. split; [|reflexivity].
  intros Hz. apply Qeq_bool_iff in Hz. congruence.
Qed.

Lemma half_bounds (x cast : Q) :
  (0 < cast)%Q → (- (cast / 2) <= x)%Q → (x <= cast / 2)%Q →
  (- (1 # 2) <= x / cast)%Q ∧ (x / cast <= 1 # 2)%Q.
Proof.
  intros Hpos Hlo Hhi. halves. split.
  - apply Qle_shift_div_l; [exact Hpos|]. lra.
  - apply Qle_shift_div_r; [exact Hpos|]. lra.
Qed.

(** X3.  When every district has votes and its two parties
    together have no more votes than were cast, the efficiency gap recorded
    for a partition lies between -1/2 and 1/2. *)
Theorem efficiency_gap_within_half (part : Partition) (K seats : nat) (gap : Q) :
  (∀ i, i < K → tallied part i) →
  (∀ i, i < K → consistent_votes part i) →
  Voting.plan_statistics part K = Ok (seats, gap) →
  (- (1 # 2) <= gap)%Q ∧ (gap <= 1 # 2)%Q.
Proof.
  intros Htal Hcons Hrun.
  destruct (vote_districts_positive part (range K) Voting.initial)
    as (c & Hc & _ & Hd & Hr & Ht).
  { apply Forall_range. intros i Hi. split; [auto|]. apply (Hcons i Hi). }
  unfold Voting.plan_statistics, Voting.count_districts in Hrun.
  rewrite Hc, bind_Ok in Hrun.
  apply bind_Ok_inv in Hrun as (g & Hg & Hret). injection Hret as _ <-.
  apply truediv_Ok_inv in Hg as [Hnz ->].
  cbn [Voting.initial Voting.wasted_democrat Voting.wasted_republican
       Voting.plan_totvotes] in Hd, Hr, Ht.
  rewrite Z.add_0_l in Ht. rewrite Qplus_0_l in Hd, Hr.
  destruct (gap_sums_bound part (range K)) as [Hlo Hhi].
  { apply Forall_range. exact Hcons. }
  cbv zeta in Hlo, Hhi. rewrite <- Ht, <- Hd, <- Hr in Hlo, Hhi.
  assert (0 <= sum_Z (map (totvotes part) (range K)))%Z as Hnn.
  { clear -Hcons. assert (Forall (fun i => (0 ≤ totvotes part i)%Z) (range K)) as Hall.
    { apply Forall_range. intros i Hi. destruct (Hcons i Hi). lia. }
    induction Hall; cbn; [lia|]. unfold sum_Z in *. lia. }
  rewrite <- Ht in Hnn.
  apply half_bounds; [|exact Hlo|exact Hhi].
  rewrite Zle_Qle in Hnn. change (inject_Z 0) with 0%Q in Hnn.
  apply Qle_lteq in Hnn as [Hlt|Heq]; [exact Hlt|].
  exfalso. apply Hnz. symmetry. exact Heq.
Qed.

Lemma efficiency_gap_within_half_witness :
  ∃ gap, Voting.plan_statistics two_races 2 = Ok (0, gap)
         ∧ (- (1 # 2) <= gap)%Q ∧ (gap <= 1 # 2)%Q.
Proof.
  eexists. split; [vm_compute; reflexivity|].
  apply (efficiency_gap_within_half two_races 2 0).
  - exact two_races_tallied.
  - intros i Hi. destruct i as [|[|i]];
      [repeat split; vm_compute; congruence..|lia].
  - vm_compute. reflexivity.
Defined.

Lemma plan_statistics_positive (part : Partition) (K : nat) :
  0 < K →
  (∀ i, i < K → tallied part i) →
  (∀ i, i < K → (0 < totvotes part i)%Z) →
  ∃ gap, Voting.plan_statistics part K = Ok (republican_seats part K, gap)
         ∧ (gap == efficiency_gap part K)%Q.
Proof.
  intros HK Htal Hpos.
  destruct (vote_districts_positive part (range K) Voting.initial)
    as (c & Hc & Hs & Hd & Hr & Ht).
  { apply Forall_range. auto. }
  unfold Voting.plan_statistics, Voting.count_districts.
  rewrite Hc, bind_Ok.
  cbn [Voting.initial Voting.wasted_democrat Voting.wasted_republican
       Voting.plan_totvotes Voting.seats] in Hs, Hd, Hr, Ht.
  assert (0 < Voting.plan_totvotes c)%Z as Htot.
  { rewrite Ht, Z.add_0_l. apply sum_Z_positive.
    - unfold range. destruct K; [lia|discriminate].
    - apply Forall_range. auto. }
  rewrite truediv_nonzero, bind_Ok by lia. eexists. split.
  - rewrite Hs. reflexivity.
  - unfold efficiency_gap. rewrite Hd, Hr, Ht, !Qplus_0_l, Z.add_0_l.
    reflexivity.
Qed.

Lemma sum_Q_ext (f g : nat → Q) (l : list nat) :
  Forall (fun i => f i = g i) l → sum_Q (map f l) = sum_Q (map g l).
Proof.
  induction 1 as [|i l Hi _ IH]; [reflexivity|].
  cbn [map]. rewrite !sum_Q_cons, Hi, IH. reflexivity.
Qed.

(** X4.  The efficiency gap is signed: exchanging the Republican
    and the Democrat tallies of a partition whose districts all have votes
    (and whose parties have no more votes than were cast) negates the gap
    the walk records. *)
Theorem efficiency_gap_antisymmetric (part : Partition) (K : nat) :
  0 < K →
  (∀ i, i < K → tallied part i) →
  (∀ i, i < K → consistent_votes part i) →
  ∃ seats gap seats' gap',
    Voting.plan_statistics part K = Ok (seats, gap)
    ∧ Voting.plan_statistics (swap_parties part) K = Ok (seats', gap')
    ∧ (gap' == - gap)%Q.
Proof.
  intros HK Htal Hcons.
  destruct (plan_statistics_positive part K HK Htal) as (gap & Hrun & Hgap).
  { intros i Hi. apply (Hcons i Hi). }
  destruct (plan_statistics_positive (swap_parties part) K HK)
    as (gap' & Hrun' & Hgap').
  { intros i Hi. destruct (Htal i Hi) as (Ht & Hr & Hd).
    repeat split; assumption. }
  { intros i Hi. apply (Hcons i Hi). }
  exists (republican_seats part K), gap,
    (republican_seats (swap_parties part) K), gap'.
  split; [exact Hrun|]. split; [exact Hrun'|].
  rewrite Hgap, Hgap'. unfold efficiency_gap.
  change (republican (swap_parties part)) with (democrat part).
  change (democrat (swap_parties part)) with (republican part).
  change (totvotes (swap_parties part)) with (totvotes part).
  rewrite (sum_Q_ext
    (fun i => wasted_democrat_votes (democrat part i) (republican part i)
                (totvotes part i))
    (fun i => wasted_republican_votes (republican part i) (democrat part i)
                (totvotes part i))).
  2:{ apply Forall_range. intros i Hi. destruct (Hcons i Hi) as (_ & Hr & Hd & Hs).
      apply wasted_votes_swap; assumption. }
  rewrite (sum_Q_ext
    (fun i => wasted_republican_votes (democrat part i) (republican part i)
                (totvotes part i))
    (fun i => wasted_democrat_votes (republican part i) (democrat part i)
                (totvotes part i))).
  2:{ apply Forall_range. intros i Hi. destruct (Hcons i Hi) as (_ & Hr & Hd & Hs).
      apply wasted_votes_swap; assumption. }
  unfold Qdiv. ring.
Qed.

Lemma efficiency_gap_antisymmetric_witness :
  ∃ seats gap seats' gap',
    Voting.plan_statistics two_races 2 = Ok (seats, gap)
    ∧ Voting.plan_statistics (swap_parties two_races) 2 = Ok (seats', gap')
    ∧ (gap' == - gap)%Q.
Proof.
  apply (efficiency_gap_antisymmetric two_races 2).
  - lia.
  - exact two_races_tallied.
  - intros i Hi. destruct i as [|[|i]];
      [repeat split; vm_compute; congruence..|lia].
Defined.

Lemma range_split (K i : nat) :
  i < K → range K = seq 0 i ++ i :: seq (S i) (K - S i).
Proof.
  intros Hi. unfold range.
  replace K with (i + S (K - S i)) at 1 by lia.
  rewrite seq_app. reflexivity.
Qed.

Lemma foldM_raise_at {S A : Type} (f : S → A → result S) (e : exn)
    (before after : list A) (x : A) (s : S) :
  Forall (fun y => ∀ s, ∃ s', f s y = Ok s') before →
  (∀ s, f s x = Raise e) →
  foldM f s (before ++ x :: after) = Raise e.
Proof.
  intros Hbefore Hx. rewrite foldM_app.
  destruct (foldM_Ok f before Hbefore s) as [s' ->].
  rewrite bind_Ok. cbn [foldM]. rewrite Hx. reflexivity.
Qed.

(** X5.  If the districts before [i] have both population tallies
    and a nonzero total, and district [i < K] lacks one of the two, counting
    the majority-Hispanic or -Latino districts of the partition raises
    [KeyError]. *)
Theorem majmin_missing_district (part : Partition) (K i : nat) :
  i < K →
  (∀ j, j < i →
     is_Some (tally part "district_hispanic_latino_pop" !! j)
     ∧ is_Some (tally part "district_totpop" !! j)
     ∧ district part "district_totpop" j ≠ 0%Z) →
  tally part "district_hispanic_latino_pop" !! i = None
  ∨ tally part "district_totpop" !! i = None →
  Demographic.majmin part K = Raise KeyError.
Proof.
  intros Hi Hbefore Hmissing. unfold Demographic.majmin.
  rewrite (range_split K i Hi). apply foldM_raise_at.
  - apply Forall_forall. intros j Hj count.
    apply elem_of_seq in Hj.
    destruct (Hbefore j ltac:(lia)) as (Hh & Ht & Hnz).
    destruct (count_district_cases part count j Hh Ht)
      as [[_ Hok]|[Hz _]]; [exact Hok|contradiction].
  - intros count. unfold Demographic.count_district, getitem.
    destruct (tally part "district_hispanic_latino_pop" !! i) as [h|];
      [|reflexivity].
    destruct Hmissing as [Hh|Ht]; [discriminate|].
    rewrite bind_Ok, Ht. reflexivity.
Qed.

Lemma majmin_missing_district_witness :
  Demographic.majmin two_districts 3 = Raise KeyError.
Proof.
  apply (majmin_missing_district two_districts 3 2).
  - lia.
  - intros j Hj. destruct j as [|[|j]]; [| |lia];
      (split; [vm_compute; eauto|split; [vm_compute; eauto|]]);
      vm_compute; discriminate.
  - left. vm_compute. reflexivity.
Defined.

(** X6.  If the districts before [i] have their three vote tallies
    and a nonzero total, and district [i < K] lacks one of the three, the
    statistics of the partition raise [KeyError]; the total is looked up
    before it is divided by, so this also holds when it would be zero. *)
Theorem plan_statistics_missing_district (part : Partition) (K i : nat) :
  i < K →
  (∀ j, j < i → tallied part j ∧ totvotes part j ≠ 0%Z) →
  ¬ tallied part i →
  Voting.plan_statistics part K = Raise KeyError.
Proof.
  intros Hi Hbefore Hmissing.
  unfold Voting.plan_statistics, Voting.count_districts.
  rewrite (range_split K i Hi), foldM_raise_at with (e := KeyError);
    [reflexivity| |].
  - apply Forall_forall. intros j Hj c.
    apply elem_of_seq in Hj.
    destruct (Hbefore j ltac:(lia)) as (Htal & Hnz).
    destruct (vote_district_cases part c j Htal)
      as [[_ Hok]|[Hz _]]; [exact Hok|contradiction].
  - intros c. unfold Voting.count_district, getitem.
    destruct (tally part "district_totvotes" !! i) as [t|] eqn:Ht;
      [|reflexivity].
    rewrite bind_Ok, truediv_two, bind_Ok.
    destruct (tally part "district_republican_votes" !! i) as [r|] eqn:Hr;
      [|reflexivity].
    rewrite bind_Ok.
    destruct (tally part "district_democrat_votes" !! i) as [d|] eqn:Hd;
      [|reflexivity].
    exfalso. apply Hmissing. unfold tallied. rewrite Ht, Hr, Hd. eauto.
Qed.

Lemma plan_statistics_missing_district_witness :
  Voting.plan_statistics two_races 3 = Raise KeyError.
Proof.
  apply (plan_statistics_missing_district two_races 3 2).
  - lia.
  - intros j Hj. split; [apply two_races_tallied; lia|].
    destruct j as [|[|j]]; [vm_compute; discriminate..|lia].
  - intros [[t Ht] _]. vm_compute in Ht. discriminate.
Defined.

Lemma demographic_walk_part_Raise (K : nat) (ens : list nat * list nat)
    (part : Partition) (e : exn) :
  Demographic.majmin part K = Raise e →
  Demographic.walk_part K ens part = Raise e.
Proof. destruct ens. unfold Demographic.walk_part. intros ->. reflexivity. Qed.

Lemma voting_walk_part_Raise (K : nat) (ens : list nat * list nat * list Q)
    (part : Partition) (e : exn) :
  Voting.plan_statistics part K = Raise e →
  Voting.walk_part K ens part = Raise e.
Proof.
  destruct ens as [[? ?] ?]. unfold Voting.walk_part. intros ->. reflexivity.
Qed.

(** X7.  A walk records nothing once a partition fails: if the
    partitions before [part] all have a count (statistics) and [part]
    raises [e], then [__walk] over the whole chain raises [e], whatever
    comes after [part].  This holds of the demographic and of the voting
    walk. *)
Theorem walk_stops_at_first_failure (K : nat)
    (before after : list Partition) (part : Partition) (e : exn) :
  (Forall (fun part => ∃ count, Demographic.majmin part K = Ok count) before →
   Demographic.majmin part K = Raise e →
   Demographic.__walk (before ++ part :: after) K = Raise e)
  ∧ (Forall (fun part => ∃ stat, Voting.plan_statistics part K = Ok stat)
            before →
     Voting.plan_statistics part K = Raise e →
     Voting.__walk (before ++ part :: after) K = Raise e).
Proof.
  split; intros Hbefore Hpart.
  - unfold Demographic.__walk.
    apply Forall_exists_Forall2 in Hbefore as [counts Hcounts].
    rewrite foldM_app, (demographic_walk_appends K before counts Hcounts),
      bind_Ok.
    cbn [foldM app]. rewrite (demographic_walk_part_Raise K _ part e Hpart).
    reflexivity.
  - unfold Voting.__walk.
    apply Forall_exists_Forall2 in Hbefore as [stats Hstats].
    rewrite foldM_app, (voting_walk_appends K before stats Hstats), bind_Ok.
    cbn [foldM app]. rewrite (voting_walk_part_Raise K _ part e Hpart).
    reflexivity.
Qed.

Lemma walk_stops_at_first_failure_witness :
  Demographic.__walk [two_districts; empty_district; balanced] 1
  = Raise ZeroDivisionError
  ∧ Voting.__walk [two_races; empty_district; two_races] 1
    = Raise ZeroDivisionError.
Proof.
  split.
  - apply (walk_stops_at_first_failure 1 [two_districts] [balanced]
             empty_district ZeroDivisionError).
    + repeat constructor. eexists. vm_compute. reflexivity.
    + vm_compute. reflexivity.
  - apply (walk_stops_at_first_failure 1 [two_races] [two_races]
             empty_district ZeroDivisionError).
    + repeat constructor. eexists. vm_compute. reflexivity.
    + vm_compute. reflexivity.
Defined.

(** X8.  A region whose population is between 0 and that of
    California gets between 0 and 52 seats. *)
Theorem regional_seats_range (totpop totpop_california : Z) :
  (0 ≤ totpop ≤ totpop_california)%Z → (0 < totpop_california)%Z →
  ∃ seats, regional_seats totpop totpop_california = Ok seats
           ∧ (0 ≤ seats ≤ 52)%Z.
Proof.
  intros Hpop Hpos.
  destruct (regional_seats_product totpop totpop_california Hpop Hpos)
    as (product & Hrun & H0 & H52 & _).
  exists (round product). split; [exact Hrun|].
  apply round_between; assumption.
Qed.

Lemma regional_seats_range_witness :
  ∃ seats, regional_seats 35 100 = Ok seats ∧ (0 ≤ seats ≤ 52)%Z.
Proof. apply (regional_seats_range 35 100); lia. Defined.

Lemma shares_sum (tn tc ts tcal : Z) :
  (tn + tc + ts = tcal)%Z → tcal ≠ 0%Z →
  (inject_Z 52 * (inject_Z tn / inject_Z tcal)
   + inject_Z 52 * (inject_Z tc / inject_Z tcal)
   + inject_Z 52 * (inject_Z ts / inject_Z tcal) == 52)%Q.
Proof.
  intros <- Hne. rewrite !inject_Z_plus. change (inject_Z 52) with 52%Q.
  field. rewrite <- !inject_Z_plus. intros Hz.
  unfold Qeq in Hz. cbn in Hz. lia.
Qed.

(** The seats are rounded floats, and a float keeps 53 bits: a region of
    2^70 + 1 people is one of 2^70 people to the division, so with regions
    of 2^70 + 1, -2^70 and 0 that add up to 1 the seats add up to 0. *)
Example seats_of_huge_regions :
  regional_seats (2 ^ 70 + 1) 1 = Ok (52 * 2 ^ 70)%Z
  ∧ regional_seats (- 2 ^ 70) 1 = Ok (- (52 * 2 ^ 70))%Z
  ∧ regional_seats 0 1 = Ok 0%Z.
Proof. repeat split; vm_compute; reflexivity. Qed.

(** X9.  When the populations of the three regions, none of them
    negative, add up to the nonzero population of California, the three
    rounded seat numbers add up to 51, 52 or 53: rounding loses or gains at
    most one seat. *)
Theorem seats_off_by_at_most_one (tn tc ts tcal : Z) :
  (0 ≤ tn)%Z → (0 ≤ tc)%Z → (0 ≤ ts)%Z →
  (tn + tc + ts = tcal)%Z → tcal ≠ 0%Z →
  ∃ n c s,
    regional_seats tn tcal = Ok n ∧ regional_seats tc tcal = Ok c
    ∧ regional_seats ts tcal = Ok s
    ∧ (51 ≤ n + c + s ≤ 53)%Z.
Proof.
  intros Hn0 Hc0 Hs0 Hsum Hne.
  destruct (regional_seats_product tn tcal) as (xn & Hn & _ & _ & Hnl & Hnh);
    [lia..|].
  destruct (regional_seats_product tc tcal) as (xc & Hc & _ & _ & Hcl & Hch);
    [lia..|].
  destruct (regional_seats_product ts tcal) as (xs & Hs & _ & _ & Hsl & Hsh);
    [lia..|].
  exists (round xn), (round xc), (round xs).
  split; [exact Hn|]. split; [exact Hc|]. split; [exact Hs|].
  pose proof (shares_sum tn tc ts tcal Hsum Hne) as Hshares.
  destruct (round_nearest xn) as [Hn1 Hn2].
  destruct (round_nearest xc) as [Hc1 Hc2].
  destruct (round_nearest xs) as [Hs1 Hs2].
  assert (inject_Z 50 < inject_Z (round xn + round xc + round xs))%Q as Hlo.
  { rewrite !inject_Z_plus. change (inject_Z 50) with 50%Q. lra. }
  assert (inject_Z (round xn + round xc + round xs) < inject_Z 54)%Q as Hhi.
  { rewrite !inject_Z_plus. change (inject_Z 54) with 54%Q. lra. }
  rewrite <- Zlt_Qlt in Hlo, Hhi. lia.
Qed.

Lemma seats_off_by_at_most_one_witness :
  ∃ n c s,
    regional_seats 35 100 = Ok n ∧ regional_seats 29 100 = Ok c
    ∧ regional_seats 36 100 = Ok s ∧ (51 ≤ n + c + s ≤ 53)%Z.
Proof. apply (seats_off_by_at_most_one 35 29 36 100); lia. Defined.

Section NoSeat.
Context `{GerryChain}.

(** X10.  If the seats of the three regions add up to 52 but one
    region is left without a seat, [make_demographic_ensembles] raises
    [ZeroDivisionError] when it computes the ideal populations, before any
    partition is drawn. *)
Theorem region_without_seats_fails (fuel steps : nat)
    (graph_california graph_norcal graph_cal graph_socal : Graph)
    (totpop_california totpop_norcal totpop_cal totpop_socal n c s : Z)
    (r : RNG) :
  total graph_california "total_pop" = Ok totpop_california →
  total graph_norcal "total_pop" = Ok totpop_norcal →
  total graph_cal "total_pop" = Ok totpop_cal →
  total graph_socal "total_pop" = Ok totpop_socal →
  demographic_seats totpop_california totpop_norcal totpop_cal totpop_socal
    = Ok (n, c, s) →
  n = 0%Z ∨ c = 0%Z ∨ s = 0%Z →
  make_demographic_ensembles fuel steps
    graph_california graph_norcal graph_cal graph_socal r
  = Raise ZeroDivisionError.
Proof.
  intros H1 H2 H3 H4 Hseats Hzero. unfold make_demographic_ensembles.
  rewrite H1, bind_lift_Ok, H2, bind_lift_Ok, H3, bind_lift_Ok,
    H4, bind_lift_Ok.
  rewrite truediv_nonzero, bind_lift_Ok by discriminate.
  rewrite Hseats, bind_lift_Ok. cbv beta iota.
  apply (idealpop_fails totpop_norcal totpop_cal totpop_socal n c s).
  exact Hzero.
Qed.

End NoSeat.

Lemma region_without_seats_fails_witness :
  demographic_seats 1000 5 495 500 = Ok (0, 26, 26)%Z
  ∧ make_demographic_ensembles (H := one_node_each) 5 2
      (graph_of [1000%Z]) (graph_of [5%Z]) (graph_of [495%Z])
      (graph_of [500%Z]) 7
    = Raise ZeroDivisionError.
Proof.
  split; [vm_compute; reflexivity|].
  apply (region_without_seats_fails (H := one_node_each) 5 2
           (graph_of [1000%Z]) (graph_of [5%Z]) (graph_of [495%Z])
           (graph_of [500%Z]) 1000 5 495 500 0 26 26 7);
    try (vm_compute; reflexivity).
  left. reflexivity.
Defined.

Section Plans.
Context `{GerryChain}.
Variables (graph : Graph) (num_districts : nat) (idealpop : Q)
  (totpop_key : string) (tolerance : Q) (updaters : list (string * updater)).

Let draw := draw_plan graph num_districts idealpop totpop_key tolerance.
Let seeded := plan_of_seed graph num_districts idealpop totpop_key tolerance.
Let partitions :=
  __random_partitions graph num_districts idealpop totpop_key tolerance updaters.

Lemma M_bind_run_Ok {A B : Type} (m : M A) (f : A → M B) r a r1 :
  m r = Ok (a, r1) → (m ≫= f) r = f a r1.
Proof. unfold mbind, M_bind. intros ->. reflexivity. Qed.

Lemma M_bind_run_Raise {A B : Type} (m : M A) (f : A → M B) r e :
  m r = Raise e → (m ≫= f) r = Raise e.
Proof. unfold mbind, M_bind. intros ->. reflexivity. Qed.

Lemma foldM_M_app {S A : Type} (f : S → A → M S) (s : S) (xs ys : list A) r :
  foldM f s (xs ++ ys) r = (foldM f s xs ≫= fun s' => foldM f s' ys) r.
Proof.
  revert s r. induction xs as [|x xs IH]; intros s r; cbn [foldM app].
  - reflexivity.
  - destruct (f s x r) as [[s' r1]| |] eqn:Hstep.
    + rewrite (M_bind_run_Ok _ _ _ _ _ Hstep), IH.
      symmetry. unfold mbind at 1, M_bind.
      rewrite (M_bind_run_Ok _ _ _ _ _ Hstep). reflexivity.
    + rewrite (M_bind_run_Raise _ _ _ _ Hstep).
      unfold mbind at 1, M_bind.
      rewrite (M_bind_run_Raise _ _ _ _ Hstep). reflexivity.
    + unfold mbind, M_bind. rewrite Hstep. reflexivity.
Qed.

Lemma draw_plan_seeded plans s r :
  draw plans s r =
    match seeded s with
    | Ok (plan, r') => Ok (plans ++ [plan], r')
    | Raise e => Raise e
    | OutOfFuel => OutOfFuel
    end.
Proof.
  subst draw seeded. unfold draw_plan, plan_of_seed, mbind, M_bind, random_seed.
  destruct (recursive_tree_part _ _ _ _ _ _ _) as [[plan r1]| |]; reflexivity.
Qed.

Lemma draw_plans_all plans seeds drawn r :
  Forall2 (fun s plan => ∃ r1, seeded s = Ok (plan, r1)) seeds drawn →
  ∃ r', foldM draw plans seeds r = Ok (plans ++ drawn, r')
        ∧ (seeds = [] → r' = r).
Proof.
  intros Hall. revert plans r.
  induction Hall as [|s plan seeds drawn [r1 Hplan] _ IH]; intros plans r.
  - exists r. rewrite app_nil_r. split; reflexivity.
  - cbn [foldM].
    destruct (IH (plans ++ [plan]) r1) as (r' & Hrest & _).
    exists r'. split; [|discriminate].
    rewrite (M_bind_run_Ok _ _ r (plans ++ [plan]) r1).
    + rewrite Hrest, <- app_assoc. reflexivity.
    + rewrite draw_plan_seeded, Hplan. reflexivity.
Qed.

(** X11.  If the tree partitioner finds a plan for each of the
    seeds before [s] and raises [e] right after [random.seed(s)],
    [__random_partitions] raises [e], whatever state the generator was in
    and whatever seeds come after [s]. *)
Theorem random_partitions_fails (before after : list Z) (s : Z) (e : exn)
    (r : RNG) :
  Forall (fun s => ∃ plan r1, seeded s = Ok (plan, r1)) before →
  seeded s = Raise e →
  partitions (before ++ s :: after) r = Raise e.
Proof.
  intros Hbefore Hs. subst partitions. unfold __random_partitions.
  assert (∃ drawn, Forall2 (fun s plan => ∃ r1, seeded s = Ok (plan, r1))
                     before drawn) as [drawn Hdrawn].
  { apply Forall_exists_Forall2.
    eapply Forall_impl; [exact Hbefore|]. intros s' (plan & r1 & Hp). eauto. }
  destruct (draw_plans_all [] before drawn r Hdrawn) as (r1 & Hrun & _).
  apply M_bind_run_Raise. rewrite foldM_M_app.
  fold draw. rewrite (M_bind_run_Ok _ _ _ _ _ Hrun).
  cbn [foldM]. apply M_bind_run_Raise.
  rewrite draw_plan_seeded, Hs. reflexivity.
Qed.

End Plans.

Lemma random_partitions_fails_witness :
  __random_partitions (H := fussy) no_graph 2 100 "total_pop" pop_tolerance []
    [0; 2; 1; 4]%Z 7
  = Raise (Exception "Could not find a possible cut").
Proof.
  apply (random_partitions_fails (H := fussy) no_graph 2 100 "total_pop"
           pop_tolerance [] [0; 2]%Z [4%Z] 1%Z).
  - repeat constructor; eexists _, _; vm_compute; reflexivity.
  - vm_compute. reflexivity.
Defined.

Lemma fips_disjoint : fips_cal ## fips_socal.
Proof.
  apply elem_of_disjoint. intros fp Hcal Hsocal.
  unfold fips_cal, fips_socal in *.
  rewrite elem_of_list_to_set in Hcal, Hsocal.
  repeat (apply elem_of_cons in Hcal as [->|Hcal];
          [repeat (apply elem_of_cons in Hsocal as [Hs|Hsocal];
                   [discriminate|]);
           inversion Hsocal|]).
  inversion Hcal.
Qed.

Lemma in_region_Some (COUNTYFP : gmap nat string) (fips : gset string)
    (node : nat) (fp : string) :
  COUNTYFP !! node = Some fp → in_region COUNTYFP fips node ↔ fp ∈ fips.
Proof. unfold in_region. intros ->. reflexivity. Qed.

Lemma nodes_in_from (COUNTYFP : gmap nat string) (fips : gset string)
    (l : list nat) :
  ∀ acc kept,
    foldM (fun kept node =>
             fp ← getitem COUNTYFP node;
             Ok (if decide (fp ∈ fips) then kept ++ [node] else kept))
          acc l = Ok kept →
    Forall (fun node => is_Some (COUNTYFP !! node)) l
    ∧ kept = acc ++ filter (in_region COUNTYFP fips) l.
Proof.
  induction l as [|node l IH]; intros acc kept Hrun; cbn [foldM] in Hrun.
  - injection Hrun as <-. rewrite app_nil_r. split; [constructor|reflexivity].
  - apply bind_Ok_inv in Hrun as (kept1 & Hstep & Hrest).
    apply bind_Ok_inv in Hstep as (fp & Hfp & Hkept). injection Hkept as <-.
    unfold getitem in Hfp.
    destruct (COUNTYFP !! node) as [fp'|] eqn:Hnode; [|discriminate].
    injection Hfp as ->. apply IH in Hrest as [Hall ->].
    split; [constructor; eauto|].
    rewrite filter_cons.
    pose proof (in_region_Some COUNTYFP fips node fp Hnode) as Hiff.
    destruct (decide (fp ∈ fips)), (decide (in_region COUNTYFP fips node));
      try (exfalso; tauto); [rewrite <- app_assoc|]; reflexivity.
Qed.

Lemma filter_ext_in {A : Type} (P1 P2 : A → Prop)
    `{∀ x, Decision (P1 x)} `{∀ x, Decision (P2 x)} (l : list A) :
  Forall (fun x => P1 x ↔ P2 x) l → filter P1 l = filter P2 l.
Proof.
  induction 1 as [|x l Hx _ IH]; [reflexivity|].
  rewrite !filter_cons, IH.
  destruct (decide (P1 x)), (decide (P2 x)); try (exfalso; tauto); reflexivity.
Qed.

Lemma filter_filter_in {A : Type} `{EqDecision A} (P : A → Prop)
    `{∀ x, Decision (P x)} (l : list A) :
  filter (fun x => x ∈ filter P l) l = filter P l.
Proof.
  apply filter_ext_in. apply Forall_forall. intros x Hx.
  rewrite list_elem_of_filter. tauto.
Qed.

Lemma nodes_in_subgraph (graph : Graph) (COUNTYFP : gmap nat string)
    (fips : gset string) (kept : list nat) :
  nodes_in graph COUNTYFP fips = Ok kept →
  Forall (fun node => is_Some (COUNTYFP !! node)) (nodes graph)
  ∧ nodes (subgraph graph kept)
    = filter (in_region COUNTYFP fips) (nodes graph).
Proof.
  intros Hrun. apply nodes_in_from in Hrun as [Hall ->]. split; [exact Hall|].
  cbn [subgraph nodes app]. apply filter_filter_in.
Qed.

Lemma regions_Ok (graph : Graph) (COUNTYFP : gmap nat string)
    (norcal : gset string) (gn gc gs : Graph) :
  regions graph COUNTYFP norcal = Ok (gn, gc, gs) →
  Forall (fun node => is_Some (COUNTYFP !! node)) (nodes graph)
  ∧ nodes gn = filter (in_region COUNTYFP norcal) (nodes graph)
  ∧ nodes gc = filter (in_region COUNTYFP fips_cal) (nodes graph)
  ∧ nodes gs = filter (in_region COUNTYFP fips_socal) (nodes graph)
  ∧ node_attr gn = node_attr graph ∧ node_attr gc = node_attr graph
  ∧ node_attr gs = node_attr graph.
Proof.
  unfold regions. cbn [foldM]. intros Hrun.
  apply bind_Ok_inv in Hrun as (subgraphs & Hsub & Hunpack).
  apply bind_Ok_inv in Hsub as (l1 & H1 & Hsub).
  apply bind_Ok_inv in H1 as (kn & Hkn & Hl1). injection Hl1 as <-.
  apply bind_Ok_inv in Hsub as (l2 & H2 & Hsub).
  apply bind_Ok_inv in H2 as (kc & Hkc & Hl2). injection Hl2 as <-.
  apply bind_Ok_inv in Hsub as (l3 & H3 & Hsub).
  apply bind_Ok_inv in H3 as (ks & Hks & Hl3). injection Hl3 as <-.
  injection Hsub as <-. cbn in Hunpack. injection Hunpack as <- <- <-.
  apply nodes_in_subgraph in Hkn as [Hall Hn].
  apply nodes_in_subgraph in Hkc as [_ Hc].
  apply nodes_in_subgraph in Hks as [_ Hs].
  repeat split; assumption.
Qed.

Lemma elem_of_fips_norcal (column : list string) (fp : string) :
  fp ∈ fips_norcal column
  ↔ fp ∈ column ∧ (fp ∉ fips_cal) ∧ (fp ∉ fips_socal).
Proof.
  unfold fips_norcal. rewrite elem_of_list_to_set, list_elem_of_filter. tauto.
Qed.

(** Every node whose county code occurs in the column is in exactly one
    region. *)
Lemma one_region (COUNTYFP : gmap nat string) (column : list string)
    (node : nat) (fp : string) :
  COUNTYFP !! node = Some fp → fp ∈ column →
  let N := in_region COUNTYFP (fips_norcal column) node in
  let C := in_region COUNTYFP fips_cal node in
  let S := in_region COUNTYFP fips_socal node in
  (N ∧ ¬ C ∧ ¬ S) ∨ (¬ N ∧ C ∧ ¬ S) ∨ (¬ N ∧ ¬ C ∧ S).
Proof.
  intros Hfp Hcol. cbv zeta.
  rewrite !(in_region_Some _ _ _ _ Hfp), elem_of_fips_norcal.
  pose proof fips_disjoint as Hdisj. rewrite elem_of_disjoint in Hdisj.
  specialize (Hdisj fp).
  destruct (decide (fp ∈ fips_cal)), (decide (fp ∈ fips_socal)); tauto.
Qed.

(** X12.  The three regions partition California: when the
    subgraphs are built and every node's county code occurs in the column
    that NorCal's codes were collected from, every node of a region is a
    node of California and every node of California is in exactly one of
    NorCal, Cal and SoCal. *)
Theorem regions_partition_nodes (graph : Graph) (COUNTYFP : gmap nat string)
    (column : list string) (gn gc gs : Graph) :
  regions graph COUNTYFP (fips_norcal column) = Ok (gn, gc, gs) →
  (∀ node fp, node ∈ nodes graph → COUNTYFP !! node = Some fp →
              fp ∈ column) →
  (∀ node, node ∈ nodes gn ∨ node ∈ nodes gc ∨ node ∈ nodes gs →
           node ∈ nodes graph)
  ∧ ∀ node, node ∈ nodes graph →
      (node ∈ nodes gn ∧ (node ∉ nodes gc) ∧ (node ∉ nodes gs))
      ∨ ((node ∉ nodes gn) ∧ node ∈ nodes gc ∧ (node ∉ nodes gs))
      ∨ ((node ∉ nodes gn) ∧ (node ∉ nodes gc) ∧ node ∈ nodes gs).
Proof.
  intros Hrun Hcolumn.
  apply regions_Ok in Hrun as (Hall & -> & -> & -> & _).
  split.
  - intros node. rewrite !list_elem_of_filter. tauto.
  - intros node Hnode. rewrite !list_elem_of_filter.
    rewrite Forall_forall in Hall. destruct (Hall node Hnode) as [fp Hfp].
    pose proof (one_region COUNTYFP column node fp Hfp
                  (Hcolumn node fp Hnode Hfp)) as Hone.
    cbv zeta in Hone. tauto.
Qed.

Lemma four_tracts_column (node : nat) (fp : string) :
  node ∈ nodes four_tracts → four_counties !! node = Some fp →
  fp ∈ ["001"; "037"; "073"; "031"].
Proof.
  intros Hin Hfp.
  destruct node as [|[|[|[|node]]]];
    [vm_compute in Hfp; injection Hfp as <-; repeat constructor..|].
  apply elem_of_seq in Hin. cbn in Hin. lia.
Qed.

Lemma four_tracts_regions :
  regions four_tracts four_counties (fips_norcal ["001"; "037"; "073"; "031"])
  = Ok (subgraph four_tracts [0; 3]%nat, subgraph four_tracts [1]%nat,
        subgraph four_tracts [2]%nat).
Proof. vm_compute. reflexivity. Qed.

Lemma regions_partition_nodes_witness :
  let gn := subgraph four_tracts [0; 3]%nat in
  let gc := subgraph four_tracts [1]%nat in
  let gs := subgraph four_tracts [2]%nat in
  (∀ node, node ∈ nodes gn ∨ node ∈ nodes gc ∨ node ∈ nodes gs →
           node ∈ nodes four_tracts)
  ∧ ∀ node, node ∈ nodes four_tracts →
      (node ∈ nodes gn ∧ (node ∉ nodes gc) ∧ (node ∉ nodes gs))
      ∨ ((node ∉ nodes gn) ∧ node ∈ nodes gc ∧ (node ∉ nodes gs))
      ∨ ((node ∉ nodes gn) ∧ (node ∉ nodes gc) ∧ node ∈ nodes gs).
Proof.
  intros gn gc gs.
  apply (regions_partition_nodes four_tracts four_counties
           ["001"; "037"; "073"; "031"] gn gc gs).
  - exact four_tracts_regions.
  - exact four_tracts_column.
Defined.

Lemma total_from (graph : Graph) (key : string) (l : list nat) :
  ∀ acc T,
    foldM (fun acc node =>
             value ← getitem (node_attr graph node) key;
             Ok (acc + value)%Z) acc l = Ok T
    ↔ Forall (fun node => is_Some (node_attr graph node !! key)) l
      ∧ T = (acc + sum_Z (map (attribute graph key) l))%Z.
Proof.
  induction l as [|node l IH]; intros acc T; cbn [foldM map].
  - split.
    + intros Hrun. injection Hrun as <-.
      split; [constructor|unfold sum_Z; cbn [foldr]; lia].
    + intros [_ ->]. unfold sum_Z. cbn [foldr]. rewrite Z.add_0_r.
      reflexivity.
  - rewrite sum_Z_cons. unfold getitem.
    destruct (node_attr graph node !! key) as [v|] eqn:Hv.
    + assert (attribute graph key node = v) as ->
        by (unfold attribute; rewrite Hv; reflexivity).
      rewrite bind_Ok, bind_Ok, IH. split.
      * intros [Hall ->]. split; [constructor; eauto|lia].
      * intros [Hall ->]. inversion Hall; subst. split; [assumption|lia].
    + split; [discriminate|]. intros [Hall _]. inversion Hall as [|? ? [? ?] ?].
      congruence.
Qed.

Lemma total_Ok (graph : Graph) (key : string) (T : Z) :
  total graph key = Ok T
  ↔ Forall (fun node => is_Some (node_attr graph node !! key)) (nodes graph)
    ∧ T = sum_Z (map (attribute graph key) (nodes graph)).
Proof. unfold total. rewrite total_from. rewrite Z.add_0_l. reflexivity. Qed.

Lemma sum_three_filters (f : nat → Z) (P1 P2 P3 : nat → Prop)
    `{∀ x, Decision (P1 x)} `{∀ x, Decision (P2 x)} `{∀ x, Decision (P3 x)}
    (l : list nat) :
  Forall (fun x => (P1 x ∧ ¬ P2 x ∧ ¬ P3 x) ∨ (¬ P1 x ∧ P2 x ∧ ¬ P3 x)
                   ∨ (¬ P1 x ∧ ¬ P2 x ∧ P3 x)) l →
  (sum_Z (map f (filter P1 l)) + sum_Z (map f (filter P2 l))
   + sum_Z (map f (filter P3 l)) = sum_Z (map f l))%Z.
Proof.
  induction 1 as [|x l Hx _ IH]; [reflexivity|].
  rewrite !filter_cons. cbn [map]. rewrite sum_Z_cons.
  destruct (decide (P1 x)), (decide (P2 x)), (decide (P3 x));
    try (exfalso; tauto); cbn [map]; rewrite ?sum_Z_cons; lia.
Qed.

(** X13.  The regions lose and add nothing: when the subgraphs
    are built and every node's county code occurs in the column that
    NorCal's codes were collected from, the totals of an attribute over the
    three regions are defined whenever the total over California is, and
    add up to it. *)
Theorem regional_totals_add_up (graph : Graph) (COUNTYFP : gmap nat string)
    (column : list string) (gn gc gs : Graph) (key : string) (T : Z) :
  regions graph COUNTYFP (fips_norcal column) = Ok (gn, gc, gs) →
  (∀ node fp, node ∈ nodes graph → COUNTYFP !! node = Some fp →
              fp ∈ column) →
  total graph key = Ok T →
  ∃ tn tc ts,
    total gn key = Ok tn ∧ total gc key = Ok tc ∧ total gs key = Ok ts
    ∧ (tn + tc + ts = T)%Z.
Proof.
  intros Hrun Hcolumn Htotal.
  apply regions_Ok in Hrun as (Hall & Hn & Hc & Hs & Han & Hac & Has).
  apply total_Ok in Htotal as [Hpresent ->].
  assert (∀ (g : Graph) (P : nat → Prop) `{∀ x, Decision (P x)},
            nodes g = filter P (nodes graph) → node_attr g = node_attr graph →
            total g key = Ok (sum_Z (map (attribute graph key)
                                         (filter P (nodes graph)))))
    as Hregion.
  { intros g P HP Hnodes Hattr. apply total_Ok. rewrite Hnodes, Hattr. split.
    - apply Forall_forall. intros node Hnode.
      apply list_elem_of_filter in Hnode as [_ Hnode].
      rewrite Forall_forall in Hpresent. auto.
    - unfold attribute. rewrite Hattr. reflexivity. }
  eexists _, _, _.
  split; [exact (Hregion gn _ _ Hn Han)|].
  split; [exact (Hregion gc _ _ Hc Hac)|].
  split; [exact (Hregion gs _ _ Hs Has)|].
  apply sum_three_filters. apply Forall_forall. intros node Hnode.
  rewrite Forall_forall in Hall. destruct (Hall node Hnode) as [fp Hfp].
  exact (one_region COUNTYFP column node fp Hfp (Hcolumn node fp Hnode Hfp)).
Qed.

Lemma regional_totals_add_up_witness :
  ∃ tn tc ts,
    total (subgraph four_tracts [0; 3]%nat) "total_pop" = Ok tn
    ∧ total (subgraph four_tracts [1]%nat) "total_pop" = Ok tc
    ∧ total (subgraph four_tracts [2]%nat) "total_pop" = Ok ts
    ∧ (tn + tc + ts = 100)%Z.
Proof.
  apply (regional_totals_add_up four_tracts four_counties
           ["001"; "037"; "073"; "031"]).
  - exact four_tracts_regions.
  - exact four_tracts_column.
  - vm_compute. reflexivity.
Defined.

Lemma demographic_walk_Ok (K : nat) (parts : list Partition) :
  ∀ ce0 mm0 ce mm,
    foldM (Demographic.walk_part K) (ce0, mm0) parts = Ok (ce, mm) →
    ∃ counts,
      Forall2 (fun part count => Demographic.majmin part K = Ok count)
              parts counts
      ∧ ce = ce0 ++ map (fun part => size (cut_edges part)) parts
      ∧ mm = mm0 ++ counts.
Proof.
  induction parts as [|part parts IH]; intros ce0 mm0 ce mm Hrun;
    cbn [foldM] in Hrun.
  - injection Hrun as <- <-. exists []. rewrite !app_nil_r.
    split; [constructor|split; reflexivity].
  - apply bind_Ok_inv in Hrun as ([ce1 mm1] & Hstep & Hrest).
    unfold Demographic.walk_part in Hstep.
    apply bind_Ok_inv in Hstep as (count & Hcount & Hret).
    injection Hret as <- <-.
    apply IH in Hrest as (counts & Hcounts & -> & ->).
    exists (count :: counts). rewrite <- !app_assoc.
    split; [constructor; assumption|split; reflexivity].
Qed.

Lemma voting_walk_Ok (K : nat) (parts : list Partition) :
  ∀ ce0 se0 ge0 ce se ge,
    foldM (Voting.walk_part K) (ce0, se0, ge0) parts = Ok (ce, se, ge) →
    ∃ stats,
      Forall2 (fun part stat => Voting.plan_statistics part K = Ok stat)
              parts stats
      ∧ ce = ce0 ++ map (fun part => size (cut_edges part)) parts
      ∧ se = se0 ++ map fst stats
      ∧ ge = ge0 ++ map snd stats.
Proof.
  induction parts as [|part parts IH]; intros ce0 se0 ge0 ce se ge Hrun;
    cbn [foldM] in Hrun.
  - injection Hrun as <- <- <-. exists []. cbn [map]. rewrite !app_nil_r.
    split; [constructor|repeat split; reflexivity].
  - apply bind_Ok_inv in Hrun as ([[ce1 se1] ge1] & Hstep & Hrest).
    unfold Voting.walk_part in Hstep.
    apply bind_Ok_inv in Hstep as ([seats gap] & Hstat & Hret).
    injection Hret as <- <- <-.
    apply IH in Hrest as (stats & Hstats & -> & -> & ->).
    exists ((seats, gap) :: stats). cbn [map fst snd]. rewrite <- !app_assoc.
    split; [constructor; assumption|repeat split; reflexivity].
Qed.

Section Walks.
Context `{GerryChain}.

Lemma lift_Ok_inv {A : Type} (m : result A) (r : RNG) (a : A) (r' : RNG) :
  lift m r = Ok (a, r') → m = Ok a ∧ r' = r.
Proof.
  unfold lift. destruct m as [a'| |]; [|discriminate..].
  intros Hret. injection Hret as <- <-. auto.
Qed.

(** What a completed demographic walk returns. *)
Lemma walk_demographic_Ok (fuel : nat) (rw : MarkovChain) (K : nat)
    (r r' : RNG) (cutedges_ens majmin_ens : list nat) :
  walk_demographic fuel rw K r = Ok (cutedges_ens, majmin_ens, r') →
  length cutedges_ens = total_steps rw
  ∧ length majmin_ens = total_steps rw
  ∧ Forall (fun count => (count ≤ K)%nat) majmin_ens.
Proof.
  unfold walk_demographic. intros Hrun.
  apply M_bind_Ok_inv in Hrun as (parts & r1 & Hparts & Hwalk).
  apply lift_Ok_inv in Hwalk as [Hwalk ->].
  apply iterate_length in Hparts.
  apply demographic_walk_Ok in Hwalk as (counts & Hcounts & -> & ->).
  cbn [app]. rewrite length_map.
  split; [exact Hparts|]. split.
  - rewrite <- (Forall2_length _ _ _ Hcounts). exact Hparts.
  - clear Hparts. induction Hcounts as [|part count parts counts Hc _ IH];
      constructor; [|exact IH].
    unfold Demographic.majmin in Hc. apply count_districts_bound in Hc.
    unfold range in Hc. rewrite length_seq in Hc. lia.
Qed.

Lemma walk_voting_Ok (fuel : nat) (rw : MarkovChain) (K : nat)
    (r r' : RNG) (cutedges_ens seats_ens : list nat) (gap_ens : list Q) :
  walk_voting fuel rw K r = Ok (cutedges_ens, seats_ens, gap_ens, r') →
  length cutedges_ens = total_steps rw
  ∧ length seats_ens = total_steps rw
  ∧ length gap_ens = total_steps rw
  ∧ Forall (fun seats => (seats ≤ K)%nat) seats_ens.
Proof.
  unfold walk_voting. intros Hrun.
  apply M_bind_Ok_inv in Hrun as (parts & r1 & Hparts & Hwalk).
  apply lift_Ok_inv in Hwalk as [Hwalk ->].
  apply iterate_length in Hparts.
  apply voting_walk_Ok in Hwalk as (stats & Hstats & -> & -> & ->).
  cbn [app]. rewrite !length_map.
  pose proof (Forall2_length _ _ _ Hstats) as Hlen.
  split; [exact Hparts|]. split; [congruence|]. split; [congruence|].
  clear Hparts Hlen.
  induction Hstats as [|part [seats gap] parts stats Hs _ IH];
    cbn [map fst]; constructor; [|exact IH].
  unfold Voting.plan_statistics, Voting.count_districts in Hs.
  apply bind_Ok_inv in Hs as (c & Hc & Hs).
  apply bind_Ok_inv in Hs as (g & _ & Hs). injection Hs as <- <-.
  apply vote_districts_seats in Hc. unfold range in Hc.
  rewrite length_seq in Hc. cbn in Hc. lia.
Qed.

End Walks.

Lemma total_nonnegative (graph : Graph) (key : string) (T : Z) :
  nonnegative graph key → total graph key = Ok T → (0 ≤ T)%Z.
Proof.
  intros Hnn Htotal. apply total_Ok in Htotal as [_ ->].
  unfold nonnegative in Hnn. induction (nodes graph) as [|node l IH];
    [cbn; lia|].
  cbn [map]. rewrite sum_Z_cons.
  assert (0 ≤ attribute graph key node)%Z by (apply Hnn; left).
  assert (0 ≤ sum_Z (map (attribute graph key) l))%Z; [|lia].
  apply IH. intros n Hn. apply Hnn. right. exact Hn.
Qed.

Lemma cal3_bounded (kn kc ks : nat) (norcal cal socal : list nat) :
  Forall (fun x => (x ≤ kn)%nat) norcal →
  Forall (fun x => (x ≤ kc)%nat) cal →
  Forall (fun x => (x ≤ ks)%nat) socal →
  Forall (fun x => (x ≤ kn + kc + ks)%nat) (cal3 Nat.add norcal cal socal).
Proof.
  intros Hn. revert cal socal.
  induction Hn as [|x norcal Hx _ IH]; intros cal socal Hc Hs;
    [constructor|].
  destruct Hc as [|y cal Hy Hc]; [constructor|].
  destruct Hs as [|z socal Hz Hs]; [constructor|].
  rewrite cal3_cons. constructor; [lia|]. apply IH; assumption.
Qed.

Section Files.
Context `{GerryChain}.

Ltac invert_step H :=
  match type of H with
  | (lift ?m ≫= _) _ = Ok _ =>
      let Hm := fresh "Hpure" in
      apply M_bind_Ok_inv in H as (? & ? & Hm & H);
      apply lift_Ok_inv in Hm as [Hm ->]; cbv beta in H
  | (_ ≫= _) _ = Ok _ =>
      let Hm := fresh "Hrun" in
      apply M_bind_Ok_inv in H as (? & ? & Hm & H); cbv beta in H
  | (let '(_, _) := ?p in _) _ = Ok _ => destruct p
  | match ?p with (_, _) => _ end _ = Ok _ => destruct p
  end.

Ltac walk_facts :=
  repeat match goal with
  | Hw : walk_demographic _ _ _ _ = Ok _ |- _ =>
      apply walk_demographic_Ok in Hw as (? & ? & ?)
  | Hw : walk_voting _ _ _ _ = Ok _ |- _ =>
      apply walk_voting_Ok in Hw as (? & ? & ? & ?)
  end.

Lemma demographic_run_Ok (fuel steps : nat)
    (graph_california graph_norcal graph_cal graph_socal : Graph)
    (r r' : RNG) (files : list (string * pyobject)) :
  make_demographic_ensembles fuel steps
    graph_california graph_norcal graph_cal graph_socal r = Ok (files, r') →
  ∃ cutedges majmin majmin_cal3,
    files = zip demographic_paths
              (map IntList (cutedges ++ majmin ++ majmin_cal3))
    ∧ length cutedges = 5 ∧ length majmin = 3 ∧ length majmin_cal3 = 2
    ∧ Forall (fun ens => length ens = steps)
             (cutedges ++ majmin ++ majmin_cal3)
    ∧ Forall (Forall (fun count => (count ≤ 52)%nat)) majmin
    ∧ (nonnegative graph_california "total_pop" →
       nonnegative graph_norcal "total_pop" →
       nonnegative graph_cal "total_pop" →
       nonnegative graph_socal "total_pop" →
       Forall (Forall (fun count => (count ≤ 52)%nat)) majmin_cal3).
Proof.
  unfold make_demographic_ensembles. intros Hrun.
  repeat invert_step Hrun. injection Hrun as <- <-.
  match goal with
  | Hs : demographic_seats ?tc ?tn ?tl ?ts = Ok (?n, ?c, ?s) |- _ =>
      assert (nonnegative graph_california "total_pop" →
              nonnegative graph_norcal "total_pop" →
              nonnegative graph_cal "total_pop" →
              nonnegative graph_socal "total_pop" →
              (Z.to_nat n + Z.to_nat c + Z.to_nat s)%nat = 52%nat) as Hseats
  end.
  { intros Hc Hn Hl Hs.
    repeat match goal with
    | Ht : total ?g "total_pop" = Ok ?t |- _ =>
        let Hnn := fresh "Hnn" in
        assert (0 ≤ t)%Z as Hnn
          by (eapply total_nonnegative; [|exact Ht]; assumption);
        clear Ht
    end.
    match goal with
    | Hs : demographic_seats _ _ _ _ = Ok _ |- _ =>
        unfold demographic_seats in Hs;
        apply bind_Ok_inv in Hs as (n' & Hn' & Hs);
        apply bind_Ok_inv in Hs as (c' & Hc' & Hs);
        apply bind_Ok_inv in Hs as (s' & Hs' & Hs);
        destruct (decide _) as [|Hsum] in Hs; [discriminate|];
        injection Hs as <- <- <-
    end.
    apply regional_seats_nonnegative in Hn', Hc', Hs'; try assumption.
    unfold num_districts_california in Hsum. lia. }
  walk_facts.
  unfold __markov_chain in *. cbn [total_steps] in *.
  eexists [_; _; _; _; _], [_; _; _], [_; _].
  split; [reflexivity|].
  split; [reflexivity|]. split; [reflexivity|]. split; [reflexivity|].
  split; [|split].
  - cbn [app]. repeat constructor; try assumption;
      rewrite cal3_length; lia.
  - repeat constructor; assumption.
  - intros Hc Hn Hl Hs. specialize (Hseats Hc Hn Hl Hs).
    repeat constructor; rewrite <- Hseats; apply cal3_bounded; assumption.
Qed.

Lemma voting_run_Ok (fuel steps : nat)
    (graph_california graph_norcal graph_cal graph_socal : Graph)
    (r r' : RNG) (files : list (string * pyobject)) :
  make_voting_ensembles fuel steps
    graph_california graph_norcal graph_cal graph_socal r = Ok (files, r') →
  ∃ cutedges seats seats_cal3 gaps,
    files = zip voting_paths
              (map IntList (cutedges ++ seats ++ seats_cal3)
               ++ map FloatList gaps)
    ∧ length cutedges = 5 ∧ length seats = 3 ∧ length seats_cal3 = 2
    ∧ length gaps = 5
    ∧ Forall (fun ens => length ens = steps)
             (cutedges ++ seats ++ seats_cal3)
    ∧ Forall (fun ens => length ens = steps) gaps
    ∧ Forall (Forall (fun count => (count ≤ 52)%nat)) seats
    ∧ (nonnegative graph_california "total_votes" →
       nonnegative graph_norcal "total_votes" →
       nonnegative graph_cal "total_votes" →
       nonnegative graph_socal "total_votes" →
       Forall (Forall (fun count => (count ≤ 52)%nat)) seats_cal3).
Proof.
  unfold make_voting_ensembles. intros Hrun.
  repeat invert_step Hrun. injection Hrun as <- <-.
  match goal with
  | Hs : voting_seats ?tc ?tn ?tl ?ts = Ok (?n, ?c, ?s) |- _ =>
      assert (nonnegative graph_california "total_votes" →
              nonnegative graph_norcal "total_votes" →
              nonnegative graph_cal "total_votes" →
              nonnegative graph_socal "total_votes" →
              (Z.to_nat n + Z.to_nat c + Z.to_nat s)%nat = 52%nat) as Hseats
  end.
  { intros Hc Hn Hl Hs.
    repeat match goal with
    | Ht : total ?g "total_votes" = Ok ?t |- _ =>
        let Hnn := fresh "Hnn" in
        assert (0 ≤ t)%Z as Hnn
          by (eapply total_nonnegative; [|exact Ht]; assumption);
        clear Ht
    end.
    match goal with
    | Hs : voting_seats _ _ _ _ = Ok _ |- _ =>
        unfold voting_seats in Hs;
        apply bind_Ok_inv in Hs as (n' & Hn' & Hs);
        apply bind_Ok_inv in Hs as (c' & Hc' & Hs);
        apply bind_Ok_inv in Hs as (s' & Hs' & Hs);
        cbv zeta in Hs;
        destruct (decide _) as [|Hsum] in Hs; [discriminate|];
        injection Hs as <- <- <-
    end.
    apply regional_seats_nonnegative in Hn', Hc', Hs'; try assumption.
    unfold num_districts_california in Hsum. lia. }
  walk_facts.
  unfold __markov_chain in *. cbn [total_steps] in *.
  eexists [_; _; _; _; _], [_; _; _], [_; _], [_; _; _; _; _].
  split; [reflexivity|].
  split; [reflexivity|]. split; [reflexivity|]. split; [reflexivity|].
  split; [reflexivity|].
  split; [|split; [|split]].
  - cbn [app]. repeat constructor; try assumption;
      rewrite cal3_length; lia.
  - repeat constructor; try assumption; rewrite cal3_length; lia.
  - repeat constructor; assumption.
  - intros Hc Hn Hl Hs. specialize (Hseats Hc Hn Hl Hs).
    repeat constructor; rewrite <- Hseats; apply cal3_bounded; assumption.
Qed.



End Files.



Lemma mean_Ok (data : list Q) :
  data ≠ [] → ∃ m, mean data = inr m.
Proof. destruct data; [congruence|]. intros _. eexists. reflexivity. Qed.

Lemma mean_lines_Ok (series : list (list Q * string)) :
  Forall (fun s => s.1 ≠ []) series →
  ∃ lines, mean_lines series = inr lines ∧ length lines = length series.
Proof.
  induction 1 as [|[data c] series Hd _ [lines [IH Hlen]]]; cbn [mean_lines].
  - exists []. split; reflexivity.
  - destruct (mean_Ok data Hd) as [m ->]. cbn. rewrite IH. cbn.
    eexists. split; [reflexivity|]. cbn. congruence.
Qed.

Lemma mean_lines_fails (series : list (list Q * string)) :
  Exists (fun s => s.1 = []) series →
  mean_lines series = inl StatisticsError.
Proof.
  induction 1 as [[data c] series Hd|[data c] series _ IH]; cbn [mean_lines].
  - cbn in Hd. subst data. reflexivity.
  - destruct data as [|x data]; [reflexivity|]. cbn. rewrite IH. reflexivity.
Qed.

Lemma plot_Ok (t : string) (bins : nat) (series : list (list Q * string))
    (marks : list vline) (lg : list patch) (xl : string) :
  Forall (fun s => s.1 ≠ []) series →
  ∃ f, plot t bins series marks lg xl = inr f.
Proof.
  intros H. destruct (mean_lines_Ok series H) as [lines [Hl _]].
  unfold plot. rewrite Hl. cbn. eexists. reflexivity.
Qed.

Lemma plot_fails (t : string) (bins : nat) (series : list (list Q * string))
    (marks : list vline) (lg : list patch) (xl : string) :
  Exists (fun s => s.1 = []) series →
  plot t bins series marks lg xl = inl StatisticsError.
Proof.
  intros H. unfold plot. rewrite (mean_lines_fails series H). reflexivity.
Qed.

Lemma plot_Ok_iff (t : string) (bins : nat)
    (series : list (list Q * string)) (marks : list vline)
    (lg : list patch) (xl : string) :
  (∃ f, plot t bins series marks lg xl = inr f)
  ↔ Forall (fun s => s.1 ≠ []) series.
Proof.
  split; [|apply plot_Ok].
  intros [f Hf].
  destruct (decide (Forall (fun s : list Q * string => s.1 ≠ []) series))
    as [H|H]; [exact H|].
  apply not_Forall_Exists in H; [|intros x; apply _].
  rewrite (plot_fails t bins series marks lg xl) in Hf; [discriminate|].
  eapply Exists_impl; [exact H|]. intros [data c] Hd. cbn in *.
  destruct data; [reflexivity|]. exfalso. apply Hd. discriminate.
Qed.

Lemma show_figures_all (drawn : list (attempt figure)) :
  Forall (fun a => ∃ f, a = inr f) drawn →
  ∃ figs, show_figures drawn = (figs, None) ∧ length figs = length drawn.
Proof.
  induction 1 as [|a drawn [f ->] _ [figs [IH Hlen]]]; cbn [show_figures].
  - exists []. split; reflexivity.
  - rewrite IH. exists (f :: figs). split; [reflexivity|]. cbn. congruence.
Qed.

Lemma show_figures_length (drawn : list (attempt figure))
    (figs : list figure) (e : option failure) :
  show_figures drawn = (figs, e) →
  (length figs ≤ length drawn)%nat
  ∧ (e = None ↔ length figs = length drawn).
Proof.
  revert figs e. induction drawn as [|[err|f] drawn IH]; intros figs e;
    cbn [show_figures].
  - intros [= <- <-]. split; [reflexivity|]. split; reflexivity.
  - intros [= <- <-]. cbn. split; [lia|]. split; [discriminate|lia].
  - destruct (show_figures drawn) as [shown e'] eqn:Hs.
    intros [= <- <-]. destruct (IH shown e' eq_refl) as [Hle Hiff].
    cbn. split; [lia|]. rewrite Hiff. split; lia.
Qed.

Lemma show_figures_None (drawn : list (attempt figure))
    (figs : list figure) :
  show_figures drawn = (figs, None) →
  Forall (fun a => ∃ f, a = inr f) drawn.
Proof.
  revert figs. induction drawn as [|[err|f] drawn IH]; intros figs;
    cbn [show_figures].
  - constructor.
  - discriminate.
  - destruct (show_figures drawn) as [shown e'] eqn:Hs.
    intros [= <- ->]. constructor; [eexists; reflexivity|].
    eapply IH. reflexivity.
Qed.

Lemma take_nonempty {A : Type} (steps : Z) (l : list A) :
  (0 < steps)%Z → take (Z.to_nat steps) l ≠ [] ↔ l ≠ [].
Proof.
  intros Hn. destruct (Z.to_nat steps) eqn:E; [lia|].
  destruct l; cbn; split; congruence.
Qed.

Lemma shares_nonempty (l : list Q) : shares l ≠ [] ↔ l ≠ [].
Proof. destruct l; cbn; split; congruence. Qed.

Lemma convergence_intervals_positive :
  Forall (fun steps => 0 < steps)%Z convergence_intervals.
Proof. unfold convergence_intervals. repeat constructor. Qed.

Lemma convergence_drawn (draw : Z → attempt figure) (P : Prop) :
  (∀ steps, (0 < steps)%Z → (∃ f, draw steps = inr f) ↔ P) →
  Forall (fun a => ∃ f, a = inr f) (map draw convergence_intervals) ↔ P.
Proof.
  intros H. pose proof convergence_intervals_positive as Hpos.
  destruct convergence_intervals as [|s l] eqn:E; [discriminate|].
  rewrite Forall_map. split.
  - intros HF. apply Forall_cons in HF as [H1 _].
    apply Forall_cons in Hpos as [Hs _]. apply (H s Hs), H1.
  - intros HP. eapply Forall_impl; [exact Hpos|].
    intros x Hx. apply (H x Hx), HP.
Qed.

Lemma tract_california_drawn (e : ensembles) :
  Forall (fun a => ∃ f, a = inr f)
    (map (tract_california e) convergence_intervals)
  ↔ tract_cutedges_california_3 e ≠ []
    ∧ tract_cutedges_california_2 e ≠ []
    ∧ tract_cutedges_california_1 e ≠ [].
Proof.
  apply convergence_drawn. intros steps Hs.
  unfold tract_california. rewrite plot_Ok_iff.
  repeat rewrite Forall_cons. rewrite Forall_nil. cbn [fst].
  repeat rewrite (take_nonempty steps) by exact Hs. tauto.
Qed.

Lemma tract_cal3_drawn (e : ensembles) :
  Forall (fun a => ∃ f, a = inr f) (map (tract_cal3 e) convergence_intervals)
  ↔ tract_cutedges_cal3_2 e ≠ [] ∧ tract_cutedges_cal3_1 e ≠ [].
Proof.
  apply convergence_drawn. intros steps Hs.
  unfold tract_cal3. rewrite plot_Ok_iff.
  repeat rewrite Forall_cons. rewrite Forall_nil. cbn [fst].
  repeat rewrite (take_nonempty steps) by exact Hs. tauto.
Qed.

Lemma precinct_california_drawn (e : ensembles) :
  Forall (fun a => ∃ f, a = inr f)
    (map (precinct_california e) convergence_intervals)
  ↔ precinct_cutedges_california_2 e ≠ []
    ∧ precinct_cutedges_california_1 e ≠ [].
Proof.
  apply convergence_drawn. intros steps Hs.
  unfold precinct_california. rewrite plot_Ok_iff.
  repeat rewrite Forall_cons. rewrite Forall_nil. cbn [fst].
  repeat rewrite (take_nonempty steps) by exact Hs. tauto.
Qed.

Lemma figures_drawn (show_convergence : bool) (e : ensembles) :
  Forall (fun a => ∃ f, a = inr f) (figures show_convergence e)
  ↔ Forall (fun l => l ≠ []) (compared e)
    ∧ (show_convergence = true → Forall (fun l => l ≠ []) (converging e)).
Proof.
  unfold figures, compared, converging.
  destruct show_convergence; repeat rewrite Forall_app;
    try rewrite tract_california_drawn; try rewrite tract_cal3_drawn;
    try rewrite precinct_california_drawn;
    repeat rewrite Forall_cons; repeat rewrite Forall_nil;
    unfold majority_minority, seat_share, efficiency_gaps;
    repeat rewrite plot_Ok_iff;
    repeat rewrite Forall_cons; repeat rewrite Forall_nil; cbn [fst];
    repeat rewrite shares_nonempty.
  - tauto.
  - intuition discriminate.
Qed.

Lemma figures_length (show_convergence : bool) (e : ensembles) :
  length (figures show_convergence e)
  = if show_convergence then 12%nat else 3%nat.
Proof. destruct show_convergence; reflexivity. Qed.

Lemma load_ensembles_find (files : gmap string pyobject) :
  load_ensembles files
  = match List.find (missing files) loaded_paths with
    | Some path => inl (FileNotFoundError path)
    | None => inr (loaded files)
    end.
Proof.
  unfold load_ensembles, loaded, loaded_paths, load, missing, read.
  cbn [List.find]. unfold mbind, attempt_bind, mret, attempt_ret.
  repeat match goal with
         | |- context [files !! ?p] => destruct (files !! p); [|reflexivity]
         end.
  reflexivity.
Qed.

Lemma find_first {A : Type} (f : A → bool) (l : list A) (x : A) :
  List.find f l = Some x
  ↔ ∃ before after, l = before ++ x :: after
      ∧ Forall (fun y => f y = false) before ∧ f x = true.
Proof.
  induction l as [|y l IH]; cbn [List.find].
  - split; [discriminate|]. intros (before & after & H & _).
    destruct before; discriminate.
  - destruct (f y) eqn:Hy.
    + split.
      * intros [= <-]. exists [], l. repeat split; [constructor|exact Hy].
      * intros (before & after & H & Hb & Hx).
        destruct before as [|z before]; cbn in H.
        -- congruence.
        -- injection H as <- _. apply Forall_cons in Hb as [Hz _]. congruence.
    + rewrite IH. split.
      * intros (before & after & -> & Hb & Hx).
        exists (y :: before), after. repeat split; [constructor|]; assumption.
      * intros (before & after & H & Hb & Hx).
        destruct before as [|z before]; cbn in H.
        -- congruence.
        -- injection H as <- ->. apply Forall_cons in Hb as [_ Hb].
           exists before, after. repeat split; assumption.
Qed.

Lemma find_none {A : Type} (f : A → bool) (l : list A) :
  List.find f l = None ↔ Forall (fun y => f y = false) l.
Proof.
  induction l as [|y l IH]; cbn [List.find].
  - split; [constructor|reflexivity].
  - destruct (f y) eqn:Hy.
    + split; [discriminate|]. intros H. apply Forall_cons in H as [H _].
      congruence.
    + rewrite IH. split; [constructor; assumption|].
      intros H. apply Forall_cons in H as [_ H]. exact H.
Qed.

Lemma missing_false (files : gmap string pyobject) (path : string) :
  missing files path = false ↔ is_Some (files !! path).
Proof.
  unfold missing. destruct (files !! path).
  - split; [eexists; reflexivity|reflexivity].
  - split; [discriminate|]. intros [o Ho]. discriminate.
Qed.

Lemma load_ensembles_present (files : gmap string pyobject) :
  Forall (fun path => is_Some (files !! path)) loaded_paths
  ↔ load_ensembles files = inr (loaded files).
Proof.
  rewrite load_ensembles_find.
  destruct (List.find (missing files) loaded_paths) as [p|] eqn:E.
  - split; [|discriminate]. intros H.
    apply find_first in E as (before & after & Hl & _ & Hp).
    rewrite Hl in H. apply Forall_app in H as [_ H].
    apply Forall_cons in H as [H _]. apply missing_false in H. congruence.
  - split; [reflexivity|]. intros _. apply find_none in E.
    eapply Forall_impl; [exact E|]. intros p. apply missing_false.
Qed.

Lemma load_ensembles_inr (files : gmap string pyobject) (e : ensembles) :
  load_ensembles files = inr e →
  e = loaded files
  ∧ Forall (fun path => is_Some (files !! path)) loaded_paths.
Proof.
  intros H. pose proof H as H'. rewrite load_ensembles_find in H'.
  destruct (List.find (missing files) loaded_paths) eqn:E; [discriminate|].
  injection H' as <-. split; [reflexivity|].
  apply load_ensembles_present. exact H.
Qed.

Lemma load_ensembles_missing (files : gmap string pyobject)
    (before after : list string) (path : string) :
  loaded_paths = before ++ path :: after →
  Forall (fun p => is_Some (files !! p)) before →
  files !! path = None →
  load_ensembles files = inl (FileNotFoundError path).
Proof.
  intros Hl Hb Hp. rewrite load_ensembles_find.
  assert (List.find (missing files) loaded_paths = Some path) as ->;
    [|reflexivity].
  apply find_first. exists before, after. repeat split; [exact Hl| |].
  - eapply Forall_impl; [exact Hb|]. intros p. apply missing_false.
  - unfold missing. rewrite Hp. reflexivity.
Qed.

Lemma read_nonempty (files : gmap string pyobject) (path : string) :
  is_Some (files !! path) →
  read files path ≠ []
  ↔ ∀ object, files !! path = Some object → numbers object ≠ [].
Proof.
  intros [o Ho]. unfold read. rewrite Ho. split.
  - intros H o' [= <-]. exact H.
  - intros H. apply H. reflexivity.
Qed.

Ltac split_Forall H :=
  repeat (let H1 := fresh H in apply Forall_cons in H as [H1 H]); clear H.

Ltac build_Forall :=
  repeat (apply Forall_cons; split); [..|solve [constructor]].

Lemma plottable_loaded (show_convergence : bool)
    (files : gmap string pyobject) :
  plottable show_convergence files
  ↔ Forall (fun path => is_Some (files !! path)) loaded_paths
    ∧ Forall (fun l => l ≠ []) (compared (loaded files))
    ∧ (show_convergence = true →
       Forall (fun l => l ≠ []) (converging (loaded files))).
Proof.
  unfold plottable. split.
  - intros [Hp Hn]. split; [exact Hp|].
    unfold loaded_paths, compared_paths in *. split_Forall Hp.
    destruct show_convergence; split_Forall Hn.
    + split; [|intros _]; build_Forall;
        (apply read_nonempty; [assumption|assumption]).
    + split; [|discriminate]. build_Forall;
        (apply read_nonempty; [assumption|assumption]).
  - intros (Hp & Hc & Hs). split; [exact Hp|].
    unfold loaded_paths, compared_paths in *. split_Forall Hp.
    unfold compared, loaded in Hc; cbn in Hc. split_Forall Hc.
    destruct show_convergence.
    + specialize (Hs eq_refl). unfold compared, loaded in Hs; cbn in Hs.
      split_Forall Hs.
      build_Forall; (apply read_nonempty; [assumption|assumption]).
    + build_Forall; (apply read_nonempty; [assumption|assumption]).
Qed.

Lemma plot_main_complete (show_convergence : bool)
    (files : gmap string pyobject) :
  plottable show_convergence files →
  ∃ figs, plot_main show_convergence files = (figs, None)
          ∧ length figs = if show_convergence then 12%nat else 3%nat.
Proof.
  intros H. apply plottable_loaded in H as (Hp & Hc & Hs).
  unfold plot_main. apply load_ensembles_present in Hp. rewrite Hp.
  destruct (show_figures_all (figures show_convergence (loaded files)))
    as [figs [Hf Hlen]].
  { apply figures_drawn. split; assumption. }
  exists figs. split; [exact Hf|]. rewrite Hlen. apply figures_length.
Qed.

(** X16.  The plotting script ends without an exception exactly
    when its thirteen files are there and the ensembles it plots are not
    empty: all thirteen with [show_convergence], and the six of the three
    comparison figures without. *)
Theorem plot_main_succeeds_iff (show_convergence : bool)
    (files : gmap string pyobject) :
  (∃ figs, plot_main show_convergence files = (figs, None))
  ↔ plottable show_convergence files.
Proof.
  split.
  - intros [figs H]. unfold plot_main in H.
    destruct (load_ensembles files) as [err|e] eqn:El; [discriminate|].
    apply load_ensembles_inr in El as [-> Hp].
    apply show_figures_None, figures_drawn in H as [Hc Hs].
    apply plottable_loaded. repeat split; assumption.
  - intros H. destruct (plot_main_complete show_convergence files H)
      as [figs [Hf _]]. exists figs. exact Hf.
Qed.

(** X17.  If the files before [path] in loading order are there
    and [path] is not, the plotting script raises [FileNotFoundError] for
    [path] and shows no figure. *)
Theorem missing_file_shows_nothing (show_convergence : bool)
    (files : gmap string pyobject) (before after : list string)
    (path : string) :
  loaded_paths = before ++ path :: after →
  Forall (fun p => is_Some (files !! p)) before →
  files !! path = None →
  plot_main show_convergence files = ([], Some (FileNotFoundError path)).
Proof.
  intros Hl Hb Hp. unfold plot_main.
  rewrite (load_ensembles_missing files before after path Hl Hb Hp).
  reflexivity.
Qed.

Lemma missing_file_shows_nothing_witness :
  plot_main true
    (delete "../ensembles/demographic/majority-minority/majmin_california_1.pkl"
       two_steps)
  = ([], Some (FileNotFoundError
         "../ensembles/demographic/majority-minority/majmin_california_1.pkl")).
Proof.
  apply (missing_file_shows_nothing true _ (take 3 loaded_paths)
           (drop 4 loaded_paths)).
  - reflexivity.
  - repeat constructor; vm_compute; eauto.
  - vm_compute. reflexivity.
Defined.

Lemma mean_lines_error (series : list (list Q * string)) (e : failure) :
  mean_lines series = inl e → e = StatisticsError.
Proof.
  revert e. induction series as [|[data c] series IH]; intros e;
    cbn [mean_lines]; [discriminate|].
  destruct data as [|x data]; cbn; [congruence|].
  destruct (mean_lines series) as [e'|lines]; cbn; [|discriminate].
  intros [= <-]. apply IH. reflexivity.
Qed.

Lemma plot_error (t : string) (bins : nat) (series : list (list Q * string))
    (marks : list vline) (lg : list patch) (xl : string) (e : failure) :
  plot t bins series marks lg xl = inl e → e = StatisticsError.
Proof.
  unfold plot. destruct (mean_lines series) as [e'|lines] eqn:E; cbn;
    [|discriminate].
  intros [= <-]. eapply mean_lines_error, E.
Qed.

Lemma figures_error (show_convergence : bool) (e : ensembles) :
  Forall (fun a => ∀ err, a = inl err → err = StatisticsError)
    (figures show_convergence e).
Proof.
  unfold figures.
  assert (∀ draw : Z → attempt figure,
            (∀ steps err, draw steps = inl err → err = StatisticsError) →
            Forall (fun a => ∀ err, a = inl err → err = StatisticsError)
              (map draw convergence_intervals)) as Hmap.
  { intros draw Hd. apply Forall_map, Forall_forall. intros steps _.
    apply Hd. }
  destruct show_convergence; repeat rewrite Forall_app; repeat split;
    try (apply Hmap; intros steps err);
    repeat constructor; try intros err; apply plot_error.
Qed.

Lemma show_figures_error (drawn : list (attempt figure))
    (figs : list figure) (e : failure) :
  Forall (fun a => ∀ err, a = inl err → err = StatisticsError) drawn →
  show_figures drawn = (figs, Some e) → e = StatisticsError.
Proof.
  intros H. revert figs. induction H as [|[err|f] drawn Ha _ IH];
    intros figs; cbn [show_figures].
  - discriminate.
  - intros [= _ <-]. apply Ha. reflexivity.
  - destruct (show_figures drawn) as [shown e'] eqn:Hs.
    intros [= _ ->]. eapply IH. reflexivity.
Qed.

(** X18.  The plotting script ends in one of three ways: without
    an exception after twelve figures ([show_convergence]) or three; with
    [FileNotFoundError] for one of its thirteen paths, which is missing,
    and no figure shown; or with [StatisticsError], all thirteen files
    there, and fewer figures than that. *)
Theorem plot_main_outcome (show_convergence : bool)
    (files : gmap string pyobject) (figs : list figure)
    (err : option failure) :
  plot_main show_convergence files = (figs, err) →
  (err = None
   ∧ length figs = if show_convergence then 12%nat else 3%nat)
  ∨ (∃ path, err = Some (FileNotFoundError path) ∧ path ∈ loaded_paths
             ∧ files !! path = None ∧ figs = [])
  ∨ (err = Some StatisticsError
     ∧ Forall (fun path => is_Some (files !! path)) loaded_paths
     ∧ (length figs < if show_convergence then 12 else 3)%nat).
Proof.
  unfold plot_main. intros Hrun.
  destruct (load_ensembles files) as [e|e] eqn:El.
  - injection Hrun as <- <-. right. left.
    rewrite load_ensembles_find in El.
    destruct (List.find (missing files) loaded_paths) as [path|] eqn:Ef;
      [|discriminate].
    injection El as <-. exists path.
    apply find_first in Ef as (before & after & Hl & _ & Hm).
    split; [reflexivity|]. split; [|split; [|reflexivity]].
    + rewrite Hl. apply elem_of_app. right. left.
    + unfold missing in Hm. destruct (files !! path); [discriminate|].
      reflexivity.
  - apply load_ensembles_inr in El as [-> Hp].
    destruct (show_figures_length _ _ _ Hrun) as [Hle Hiff].
    rewrite figures_length in Hle, Hiff.
    destruct err as [e|].
    + right. right.
      rewrite (show_figures_error _ _ _ (figures_error _ _) Hrun) in *.
      split; [reflexivity|]. split; [exact Hp|].
      destruct (decide (length figs
                        = if show_convergence then 12%nat else 3%nat))
        as [Heq|Hne]; [|lia].
      apply Hiff in Heq. discriminate.
    + left. split; [reflexivity|]. apply Hiff. reflexivity.
Qed.

Lemma plot_main_outcome_witness :
  ∃ figs,
    plot_main false
      (<["../ensembles/voting/efficiency_gap/efficiency_gap_cal3_1.pkl"
          := FloatList []]> two_steps)
    = (figs, Some StatisticsError)
    ∧ (length figs < 3)%nat.
Proof.
  eexists. split; [vm_compute; reflexivity|].
  edestruct (plot_main_outcome false
               (<["../ensembles/voting/efficiency_gap/efficiency_gap_cal3_1.pkl"
                   := FloatList []]> two_steps))
    as [[Hnone _]|[(path & Hpath & _)|(_ & _ & Hlt)]].
  - vm_compute. reflexivity.
  - discriminate Hnone.
  - discriminate Hpath.
  - exact Hlt.
Defined.

Lemma show_figures_app (before after : list (attempt figure))
    (figs : list figure) :
  show_figures (before ++ after) = (figs, None) →
  ∃ shown shown', figs = shown ++ shown'
    ∧ show_figures before = (shown, None)
    ∧ show_figures after = (shown', None).
Proof.
  revert figs. induction before as [|[err|f] before IH]; intros figs;
    cbn [app show_figures].
  - intros H. exists [], figs. repeat split. exact H.
  - discriminate.
  - destruct (show_figures (before ++ after)) as [shown e'] eqn:Hs.
    intros [= <- ->]. destruct (IH shown eq_refl) as (s1 & s2 & -> & H1 & H2).
    exists (f :: s1), s2. rewrite H1. repeat split. exact H2.
Qed.

Lemma show_figures_app_None (before after : list (attempt figure))
    (shown shown' : list figure) :
  show_figures before = (shown, None) →
  show_figures after = (shown', None) →
  show_figures (before ++ after) = (shown ++ shown', None).
Proof.
  revert shown. induction before as [|[err|f] before IH]; intros shown;
    cbn [app show_figures].
  - intros [= <-]. intros H. exact H.
  - discriminate.
  - destruct (show_figures before) as [s e'] eqn:Hs.
    intros [= <- ->] Ha. rewrite (IH s eq_refl Ha). reflexivity.
Qed.

(** X19.  [show_convergence] only adds figures: when the script
    shows all its figures with the flag, they are six tract-level
    convergence figures, the majority-minority comparison, three
    precinct-level convergence figures, the seat-share and the
    efficiency-gap comparison, and without the flag it shows the same three
    comparison figures and nothing else. *)
Theorem convergence_only_adds_figures (files : gmap string pyobject)
    (figs : list figure) :
  plot_main true files = (figs, None) →
  ∃ tract majmin precinct seats gaps,
    figs = tract ++ [majmin] ++ precinct ++ [seats; gaps]
    ∧ length tract = 6%nat ∧ length precinct = 3%nat
    ∧ plot_main false files = ([majmin; seats; gaps], None).
Proof.
  unfold plot_main. destruct (load_ensembles files) as [e|e]; [discriminate|].
  unfold figures. intros Hrun.
  apply show_figures_app in Hrun as (tract & rest & -> & Ht & Hrun).
  apply show_figures_app in Hrun as (mm & rest' & -> & Hm & Hrun).
  apply show_figures_app in Hrun as (precinct & last & -> & Hp & Hl).
  destruct (show_figures_length _ _ _ Ht) as [_ Htl].
  destruct (show_figures_length _ _ _ Hp) as [_ Hpl].
  destruct (show_figures_length _ _ _ Hm) as [_ Hml].
  destruct (show_figures_length _ _ _ Hl) as [_ Hll].
  destruct mm as [|majmin [|? ?]];
    try (exfalso; apply proj1 in Hml; specialize (Hml eq_refl);
         cbn in Hml; lia).
  destruct last as [|seats [|gaps [|? ?]]];
    try (exfalso; apply proj1 in Hll; specialize (Hll eq_refl);
         cbn in Hll; lia).
  exists tract, majmin, precinct, seats, gaps.
  split; [reflexivity|].
  split; [apply proj1 in Htl; rewrite (Htl eq_refl); reflexivity|].
  split; [apply proj1 in Hpl; rewrite (Hpl eq_refl); reflexivity|].
  cbn [app]. change [majority_minority e; seat_share e; efficiency_gaps e]
    with ([majority_minority e] ++ [seat_share e; efficiency_gaps e]).
  apply (show_figures_app_None _ _ [majmin] [seats; gaps]); assumption.
Qed.

Lemma convergence_only_adds_figures_witness :
  ∃ figs tract majmin precinct seats gaps,
    plot_main true two_steps = (figs, None)
    ∧ figs = tract ++ [majmin] ++ precinct ++ [seats; gaps]
    ∧ length tract = 6%nat ∧ length precinct = 3%nat
    ∧ plot_main false two_steps = ([majmin; seats; gaps], None).
Proof.
  eexists.
  edestruct (convergence_only_adds_figures two_steps)
    as (tract & majmin & precinct & seats & gaps & Hfigs & Hrest).
  - vm_compute. reflexivity.
  - exists tract, majmin, precinct, seats, gaps.
    split; [vm_compute; reflexivity|]. split; [exact Hfigs|exact Hrest].
Defined.

Lemma sum_Q_between (lo hi : Q) (data : list Q) :
  Forall (fun x => lo <= x ∧ x <= hi)%Q data →
  (lo * inject_Z (Z.of_nat (length data)) <= sum_Q data
   ∧ sum_Q data <= hi * inject_Z (Z.of_nat (length data)))%Q.
Proof.
  induction 1 as [|x data [Hlo Hhi] _ [IHlo IHhi]].
  - unfold sum_Q. cbn [foldr length].
    change (inject_Z (Z.of_nat 0)) with 0%Q. split; lra.
  - rewrite sum_Q_cons. cbn [length]. rewrite Nat2Z.inj_succ.
    unfold Z.succ. rewrite inject_Z_plus.
    change (inject_Z 1) with 1%Q. split; lra.
Qed.

Lemma mean_between (lo hi m : Q) (data : list Q) :
  mean data = inr m →
  Forall (fun x => lo <= x ∧ x <= hi)%Q data →
  (lo <= m ∧ m <= hi)%Q.
Proof.
  intros Hm Hdata. destruct (sum_Q_between lo hi data Hdata) as [Hlo Hhi].
  destruct data as [|x data]; [discriminate|].
  injection Hm as <-.
  assert (0 < inject_Z (Z.of_nat (length (x :: data))))%Q as Hpos.
  { change 0%Q with (inject_Z 0). rewrite <- Zlt_Qlt. cbn [length]. lia. }
  split.
  - apply Qle_shift_div_l; assumption.
  - apply Qle_shift_div_r; assumption.
Qed.

Lemma mean_lines_between (lo hi : Q) (series : list (list Q * string))
    (lines : list vline) :
  mean_lines series = inr lines →
  Forall (fun s => Forall (fun x => lo <= x ∧ x <= hi)%Q s.1) series →
  Forall (fun l => lo <= vline_x l ∧ vline_x l <= hi)%Q lines.
Proof.
  intros Hl Hs. revert lines Hl.
  induction Hs as [|[data c] series Hd _ IH]; intros lines;
    cbn [mean_lines].
  - intros [= <-]. constructor.
  - destruct (mean data) as [e|m] eqn:Em; cbn; [discriminate|].
    destruct (mean_lines series) as [e|lines'] eqn:El; cbn; [discriminate|].
    intros [= <-]. constructor.
    + cbn. eapply mean_between; [exact Em|exact Hd].
    + apply IH. reflexivity.
Qed.

Lemma shares_between (ensemble : list Q) :
  Forall (fun val => 0 <= val ∧ val <= 52)%Q ensemble →
  Forall (fun share => 0 <= share ∧ share <= 1)%Q (shares ensemble).
Proof.
  intros H. unfold shares. apply Forall_map.
  eapply Forall_impl; [exact H|]. intros val [Hlo Hhi]. cbn.
  split.
  - apply Qle_shift_div_l; [reflexivity|]. lra.
  - apply Qle_shift_div_r; [reflexivity|]. lra.
Qed.

Lemma plot_between (lo hi : Q) (t : string) (bins : nat)
    (series : list (list Q * string)) (marks : list vline)
    (lg : list patch) (xl : string) (f : figure) :
  plot t bins series marks lg xl = inr f →
  Forall (fun s => Forall (fun x => lo <= x ∧ x <= hi)%Q s.1) series →
  Forall (fun l => lo <= vline_x l ∧ vline_x l <= hi)%Q marks →
  Forall (fun h => Forall (fun x => lo <= x ∧ x <= hi)%Q (hist_data h))
    (hists f)
  ∧ Forall (fun l => lo <= vline_x l ∧ vline_x l <= hi)%Q (vlines f).
Proof.
  unfold plot. intros Hf Hs Hm.
  destruct (mean_lines series) as [e|lines] eqn:El; cbn in Hf;
    [discriminate|].
  injection Hf as <-. cbn [hists vlines]. split.
  - apply Forall_map. eapply Forall_impl; [exact Hs|].
    intros [data c] Hd. exact Hd.
  - apply Forall_app. split; [|exact Hm].
    eapply mean_lines_between; [exact El|exact Hs].
Qed.

Lemma mean_lines_length (series : list (list Q * string))
    (lines : list vline) :
  mean_lines series = inr lines → length lines = length series.
Proof.
  revert lines. induction series as [|[data c] series IH]; intros lines;
    cbn [mean_lines].
  - intros [= <-]. reflexivity.
  - destruct (mean data) as [e|m]; cbn; [discriminate|].
    destruct (mean_lines series) as [e|lines'] eqn:El; cbn; [discriminate|].
    intros [= <-]. cbn. rewrite (IH lines' eq_refl). reflexivity.
Qed.

Lemma plot_shape (t : string) (bins : nat) (series : list (list Q * string))
    (marks : list vline) (lg : list patch) (xl : string) (f : figure) :
  plot t bins series marks lg xl = inr f →
  length (hists f) = length series
  ∧ length (vlines f) = (length series + length marks)%nat.
Proof.
  unfold plot. intros Hf.
  destruct (mean_lines series) as [e|lines] eqn:El; cbn in Hf;
    [discriminate|].
  injection Hf as <-. cbn [hists vlines].
  rewrite length_map, length_app, (mean_lines_length _ _ El).
  split; reflexivity.
Qed.

(** X20.  When the loaded majority-minority counts and Republican
    seats are between 0 and 52, the majority-minority and the seat-share
    figure plot shares: both histograms, both mean lines and the line of
    the actual share lie between 0 and 1, and there are two histograms and
    three lines. *)
Theorem plotted_shares_within_unit (e : ensembles) (f : figure) :
  Forall (fun val => 0 <= val ∧ val <= 52)%Q (majmin_california_1 e) →
  Forall (fun val => 0 <= val ∧ val <= 52)%Q (majmin_cal3_1 e) →
  Forall (fun val => 0 <= val ∧ val <= 52)%Q
    (republican_seats_california_1 e) →
  Forall (fun val => 0 <= val ∧ val <= 52)%Q (republican_seats_cal3_1 e) →
  majority_minority e = inr f ∨ seat_share e = inr f →
  Forall (fun h => Forall (fun x => 0 <= x ∧ x <= 1)%Q (hist_data h))
    (hists f)
  ∧ Forall (fun l => 0 <= vline_x l ∧ vline_x l <= 1)%Q (vlines f)
  ∧ length (hists f) = 2%nat ∧ length (vlines f) = 3%nat.
Proof.
  intros H1 H2 H3 H4 [Hf|Hf].
  - unfold majority_minority in Hf.
    destruct (plot_shape _ _ _ _ _ _ _ Hf) as [Hh Hv].
    eapply (plot_between 0 1) in Hf.
    + destruct Hf. repeat split; assumption.
    + repeat constructor; cbn [fst]; apply shares_between; assumption.
    + repeat constructor; cbn; lra.
  - unfold seat_share in Hf.
    destruct (plot_shape _ _ _ _ _ _ _ Hf) as [Hh Hv].
    eapply (plot_between 0 1) in Hf.
    + destruct Hf. repeat split; assumption.
    + repeat constructor; cbn [fst]; apply shares_between; assumption.
    + repeat constructor; cbn; lra.
Qed.

Lemma plotted_shares_within_unit_witness :
  ∃ f, majority_minority (loaded two_steps) = inr f
       ∧ Forall (fun h => Forall (fun x => 0 <= x ∧ x <= 1)%Q (hist_data h))
           (hists f)
       ∧ Forall (fun l => 0 <= vline_x l ∧ vline_x l <= 1)%Q (vlines f).
Proof.
  eexists. split; [vm_compute; reflexivity|].
  edestruct (plotted_shares_within_unit (loaded two_steps))
    as (Hh & Hv & _).
  - repeat constructor; vm_compute; discriminate.
  - repeat constructor; vm_compute; discriminate.
  - repeat constructor; vm_compute; discriminate.
  - repeat constructor; vm_compute; discriminate.
  - left. vm_compute. reflexivity.
  - split; [exact Hh|exact Hv].
Defined.

Lemma dump_snoc (written : list (string * pyobject)) (path : string)
    (object : pyobject) (files : gmap string pyobject) :
  dump (written ++ [(path, object)]) files
  = <[path := object]> (dump written files).
Proof. unfold dump. rewrite foldl_app. reflexivity. Qed.

Lemma dump_lookup (written : list (string * pyobject))
    (files : gmap string pyobject) (path : string) :
  path ∈ written.*1 →
  ∃ object, (path, object) ∈ written
            ∧ dump written files !! path = Some object.
Proof.
  induction written as [|[p o] written IH] using rev_ind.
  - cbn. intros H. apply elem_of_nil in H. contradiction.
  - rewrite fmap_app, elem_of_app. cbn. intros Hin. rewrite dump_snoc.
    destruct (decide (p = path)) as [->|Hne].
    + exists o. split; [apply elem_of_app; right; left|].
      apply lookup_insert_eq.
    + destruct Hin as [Hin|Hin].
      * destruct (IH Hin) as (object & Hel & Hlook). exists object.
        split; [apply elem_of_app; left; exact Hel|].
        rewrite lookup_insert_ne by exact Hne. exact Hlook.
      * apply list_elem_of_singleton in Hin. congruence.
Qed.

Lemma dump_lookup_other (written : list (string * pyobject))
    (files : gmap string pyobject) (path : string) :
  path ∉ written.*1 → dump written files !! path = files !! path.
Proof.
  induction written as [|[p o] written IH] using rev_ind; [reflexivity|].
  rewrite fmap_app, elem_of_app. cbn. intros Hin. rewrite dump_snoc.
  rewrite lookup_insert_ne.
  - apply IH. tauto.
  - intros ->. apply Hin. right. left.
Qed.

(** X21.  The plotting script depends on its thirteen files only:
    two collections of files that agree at the thirteen loaded paths give
    the same figures and the same exception. *)
Theorem plot_main_reads_only_loaded (show_convergence : bool)
    (files files' : gmap string pyobject) :
  Forall (fun path => files !! path = files' !! path) loaded_paths →
  plot_main show_convergence files = plot_main show_convergence files'.
Proof.
  intros Hsame. unfold plot_main.
  assert (load_ensembles files = load_ensembles files') as ->;
    [|reflexivity].
  unfold load_ensembles, load. unfold loaded_paths in Hsame.
  split_Forall Hsame.
  repeat match goal with
         | Hpath : files !! _ = files' !! _ |- _ => rewrite Hpath; clear Hpath
         end.
  reflexivity.
Qed.

Lemma plot_main_reads_only_loaded_witness :
  plot_main true
    (<["../ensembles/demographic/majority-minority/majmin_california_2.pkl"
        := IntList []]> two_steps)
  = plot_main true two_steps.
Proof.
  apply (plot_main_reads_only_loaded true). unfold loaded_paths.
  repeat (apply Forall_cons; split); try (vm_compute; reflexivity).
  constructor.
Defined.

Lemma loaded_paths_written :
  Forall (fun path => path ∈ demographic_paths ++ voting_paths) loaded_paths.
Proof.
  apply (bool_decide_unpack _). vm_compute. exact I.
Qed.

Lemma compared_paths_loaded :
  Forall (fun path => path ∈ loaded_paths) compared_paths.
Proof.
  apply (bool_decide_unpack _). vm_compute. exact I.
Qed.

Lemma written_plottable (written : list (string * pyobject))
    (files : gmap string pyobject) (steps : nat) (show_convergence : bool) :
  (0 < steps)%nat →
  written.*1 = demographic_paths ++ voting_paths →
  Forall (fun file => length (numbers file.2) = steps) written →
  plottable show_convergence (dump written files).
Proof.
  intros Hsteps Hpaths Hlen.
  assert (∀ path, path ∈ loaded_paths →
            is_Some (dump written files !! path)
            ∧ ∀ object, dump written files !! path = Some object →
                        numbers object ≠ []) as Hall.
  { intros path Hin.
    pose proof loaded_paths_written as Hw.
    rewrite Forall_forall in Hw. specialize (Hw path Hin).
    rewrite <- Hpaths in Hw.
    destruct (dump_lookup written files path Hw) as (o & Hel & Hlook).
    split; [eexists; exact Hlook|].
    intros object Hobj. rewrite Hlook in Hobj. injection Hobj as <-.
    rewrite Forall_forall in Hlen. specialize (Hlen _ Hel). cbn in Hlen.
    intros Hnil. rewrite Hnil in Hlen. cbn in Hlen. lia. }
  split.
  - apply Forall_forall. intros path Hin. apply Hall, Hin.
  - apply Forall_forall. intros path Hin. apply Hall.
    destruct show_convergence; [exact Hin|].
    pose proof compared_paths_loaded as Hc.
    rewrite Forall_forall in Hc. apply Hc, Hin.
Qed.

Section RoundTrip.
Context `{GerryChain}.

(** X22.  What the generators write, the plotting script can show:
    after a demographic and a voting run of at least one step that both
    complete, with their files written over any earlier ones, the script
    shows all twelve figures ([show_convergence]) or all three without an
    exception. *)
Theorem generated_ensembles_plot (fuel steps : nat)
    (tracts tracts_norcal tracts_cal tracts_socal : Graph)
    (precincts precincts_norcal precincts_cal precincts_socal : Graph)
    (r1 r1' r2 r2' : RNG) (written written' : list (string * pyobject))
    (files : gmap string pyobject) (show_convergence : bool) :
  (0 < steps)%nat →
  make_demographic_ensembles fuel steps
    tracts tracts_norcal tracts_cal tracts_socal r1 = Ok (written, r1') →
  make_voting_ensembles fuel steps
    precincts precincts_norcal precincts_cal precincts_socal r2
  = Ok (written', r2') →
  ∃ figs,
    plot_main show_convergence (dump (written ++ written') files)
    = (figs, None)
    ∧ length figs = if show_convergence then 12%nat else 3%nat.
Proof.
  intros Hsteps Hd Hv.
  apply demographic_run_Ok in Hd
    as (ce & mm & mc & -> & Hce & Hmm & Hmc & Hlen & _).
  apply voting_run_Ok in Hv
    as (ce' & se & sc & ga & -> & Hce' & Hse & Hsc & Hga & Hlen' & Hgl & _).
  apply plot_main_complete, (written_plottable _ _ steps); [exact Hsteps| |].
  - rewrite fmap_app, !fst_zip; [reflexivity| |].
    + rewrite length_app, !length_map, !length_app, Hce', Hse, Hsc, Hga.
      reflexivity.
    + rewrite length_map, !length_app, Hce, Hmm, Hmc. reflexivity.
  - apply Forall_app. split.
    + apply Forall_forall. intros [p o] Hin.
      apply elem_of_zip_r in Hin. cbn.
      apply list_elem_of_fmap in Hin as (xs & -> & Hxs).
      rewrite Forall_forall in Hlen. cbn. rewrite length_map.
      apply Hlen, Hxs.
    + apply Forall_forall. intros [p o] Hin.
      apply elem_of_zip_r in Hin. cbn.
      apply elem_of_app in Hin as [Hin|Hin];
        apply list_elem_of_fmap in Hin as (xs & -> & Hxs); cbn.
      * rewrite length_map. rewrite Forall_forall in Hlen'.
        apply Hlen', Hxs.
      * rewrite Forall_forall in Hgl. apply Hgl, Hxs.
Qed.

End RoundTrip.

Lemma generated_ensembles_plot_witness :
  ∃ written written' r1' r2',
    make_demographic_ensembles (H := one_node_each) 5 2
      (graph_of (replicate 52 100%Z)) (graph_of (replicate 18 100%Z))
      (graph_of (replicate 16 100%Z)) (graph_of (replicate 18 100%Z)) 7
    = Ok (written, r1')
    ∧ make_voting_ensembles (H := one_node_each) 5 2
        (graph_of (replicate 52 100%Z)) (graph_of (replicate 18 100%Z))
        (graph_of (replicate 12 94%Z ++ replicate 4 93%Z))
        (graph_of (replicate 18 100%Z)) 7
      = Ok (written', r2')
    ∧ ∃ figs, plot_main true (dump (written ++ written') ∅) = (figs, None)
              ∧ length figs = 12%nat.
Proof.
  eexists _, _, _, _. split; [vm_compute; reflexivity|].
  split; [vm_compute; reflexivity|].
  eapply (generated_ensembles_plot (H := one_node_each) 5 2
           (graph_of (replicate 52 100%Z)) (graph_of (replicate 18 100%Z))
           (graph_of (replicate 16 100%Z)) (graph_of (replicate 18 100%Z))
           (graph_of (replicate 52 100%Z)) (graph_of (replicate 18 100%Z))
           (graph_of (replicate 12 94%Z ++ replicate 4 93%Z))
           (graph_of (replicate 18 100%Z)) 7 _ 7 _ _ _ ∅ true).
  - lia.
  - vm_compute. reflexivity.
  - vm_compute. reflexivity.
Defined.
